(** * reusable_file_search: the readfile audit, its scanner and its mutations

    A shallow embedding of [reusable_file_search.py]:
    - Python [str] values are sequences of Unicode code points;
    - [READFILE_PATTERN] and the two [re] entry points the program calls on
      it, [finditer] and [sub], as a scan of the text from left to right,
      shown below to find exactly the words the pattern describes;
    - [find_usages], [inline_singles] and [delete_unused], with the file
      system they read and change passed in and out, the two directory
      listings given as lists in the order [rglob] yields them, and the
      lines they print collected in order;
    - [report], one constructor for each line it prints, and [main], from
      the parsed arguments to the exit status, the two streams and the
      files it leaves.

    Paths are POSIX paths. *)

From Stdlib Require Import String Ascii.
From stdpp Require Import base option list sorting gmap fin_maps fin_sets.

Set Default Proof Using "Type".
#[local] Set Warnings "-clear-no-such-hyp".

(** ** Python strings *)

(** A [str] is a finite sequence of code points. *)
Abbreviation char := N.
Abbreviation str := (list N).

(** Literals of the source are written as Rocq strings and read by [py]. *)
Definition py (s : string) : str := N_of_ascii <$> list_ascii_of_string s.

(** [s.endswith(suffix)] *)
Definition endswith (s suffix : str) : bool :=
  bool_decide (suffix `suffix_of` s).

(** [s.rstrip] of the newline: code point 10 is removed from the right end
    only. *)
Definition NL : char := 10%N.

Fixpoint rstrip_nl (s : str) : str :=
  match s with
  | [] => []
  | c :: s' =>
      match rstrip_nl s' with
      | [] => if decide (c = NL) then [] else [c]
      | r => c :: r
      end
  end.

(** ** [pathlib]: the final component of a path, on a POSIX system

    [PurePosixPath(s).name]: the string is cut at every ['/'], empty
    components and ['.'] components are dropped, and the last component
    left is the name (the empty string when none is left). *)
Definition SLASH : char := 47%N.
Definition DOT : char := 46%N.

Fixpoint split_slash (s : str) : list str :=
  match s with
  | [] => [[]]
  | c :: s' =>
      if decide (c = SLASH) then [] :: split_slash s'
      else match split_slash s' with
           | [] => [[c]]
           | x :: xs => (c :: x) :: xs
           end
  end.

Definition path_parts (s : str) : list str :=
  filter (λ x, x ≠ [] ∧ x ≠ [DOT]) (split_slash s).

Definition path_name (s : str) : str := default [] (last (path_parts s)).

(** ** The resolution test shared by the scanner and the inliner

    [key.endswith(ref) or ref.endswith(key)], and the file-name test
    [Path(ref).name == Path(key).name] that follows it. *)
Definition suffix_match (key ref : str) : bool :=
  endswith key ref || endswith ref key.

Definition name_match (key ref : str) : bool :=
  bool_decide (path_name ref = path_name key).

Definition key_matches (key ref : str) : bool :=
  suffix_match key ref || name_match key ref.

(** The candidate loop of [find_usages]: [reusable_files] is the dict's keys
    in insertion order; the loop leaves at the first key that passes either
    [if]. *)
Fixpoint resolve (reusable_files : list str) (ref : str) : option str :=
  match reusable_files with
  | [] => None
  | key :: rest =>
      if suffix_match key ref then Some key
      else if name_match key ref then Some key
      else resolve rest ref
  end.

(** ** [READFILE_PATTERN]

    [{{<\s*readfile\s+file\s*=\s*Q([^Q]+)Q\s*>}}], where Q stands for the
    double quote character; the pattern is compiled for [str] input, so
    [\s] is the Unicode white space test of [str.isspace]. *)
Definition is_space (c : char) : bool :=
  ((9 <=? c) && (c <=? 13) || (28 <=? c) && (c <=? 32)
   || (c =? 133) || (c =? 160) || (c =? 5760)
   || (8192 <=? c) && (c <=? 8202)
   || (c =? 8232) || (c =? 8233) || (c =? 8239) || (c =? 8287)
   || (c =? 12288))%N.

Definition QUOTE : char := 34%N.

(** Each piece of the pattern consumes a prefix of the input and hands the
    rest on. Every repetition in the pattern is greedy and is followed by a
    literal that the repeated class excludes, so giving back characters never
    turns a failure into a success: the greedy run is the only candidate. *)

(** A literal. *)
Fixpoint lit (p s : str) : option str :=
  match p, s with
  | [], _ => Some s
  | _ :: _, [] => None
  | a :: p', c :: s' => if decide (a = c) then lit p' s' else None
  end.

(** [\s*] *)
Fixpoint spaces (s : str) : str :=
  match s with
  | c :: s' => if is_space c then spaces s' else s
  | [] => []
  end.

(** [\s+] *)
Definition spaces1 (s : str) : option str :=
  match s with
  | c :: s' => if is_space c then Some (spaces s') else None
  | [] => None
  end.

(** [([^Q]+)]: the captured group and what follows it. *)
Fixpoint unquoted (s : str) : str * str :=
  match s with
  | c :: s' =>
      if decide (c = QUOTE) then ([], s)
      else let '(g, r) := unquoted s' in (c :: g, r)
  | [] => ([], [])
  end.

Definition group1 (s : str) : option (str * str) :=
  match unquoted s with
  | ([], _) => None
  | (g, r) => Some (g, r)
  end.

(** [READFILE_PATTERN.match(s)]: group 1 and the text after the match. *)
Definition match_at (s : str) : option (str * str) :=
  s ← lit (py "{{<") s;
  s ← lit (py "readfile") (spaces s);
  s ← spaces1 s;
  s ← lit (py "file") s;
  s ← lit (py "=") (spaces s);
  s ← lit [QUOTE] (spaces s);
  '(ref, s) ← group1 s;
  s ← lit [QUOTE] s;
  s ← lit (py ">}}") (spaces s);
  Some (ref, s).

(** The left-to-right scan behind [finditer] and [sub]: a match is tried at
    every position that no earlier match covers. [skip] counts the
    characters of the current match still to be passed over. *)
Inductive piece :=
  | Plain (c : char)
  | Shortcode (group0 ref : str).

Fixpoint scan (skip : nat) (s : str) : list piece :=
  match s with
  | [] => []
  | c :: s' =>
      match skip with
      | S n => scan n s'
      | O =>
          match match_at s with
          | Some (ref, rest) =>
              let n := (length s - length rest)%nat in
              Shortcode (take n s) ref :: scan (pred n) s'
          | None => Plain c :: scan 0 s'
          end
      end
  end.

(** [m.group(0)] of a match; a character outside every match stands for
    itself. *)
Definition piece_text (p : piece) : str :=
  match p with
  | Plain c => [c]
  | Shortcode w _ => w
  end.

(** [m.group(1)] *)
Definition piece_ref (p : piece) : option str :=
  match p with
  | Plain _ => None
  | Shortcode _ ref => Some ref
  end.

(** [[m.group(1) for m in READFILE_PATTERN.finditer(text)]] *)
Definition finditer (text : str) : list str := omap piece_ref (scan 0 text).

(** ** The file system and the printed lines

    A path either names no file, or names a file with what reading it as
    UTF-8 text gives and whether the system lets it be overwritten and
    removed. The two exceptions are the ones the program catches. *)
Inductive exn := OSError | UnicodeDecodeError.

Record file := File {
  read : exn + str;
  may_write : bool;
  may_unlink : bool
}.

Abbreviation filesystem := (gmap (list N) file).

(** [Path(p).exists()] *)
Definition exists_ (fs : filesystem) (p : str) : bool :=
  bool_decide (is_Some (fs !! p)).

(** [Path(p).read_text(encoding=utf-8)] *)
Definition read_text (fs : filesystem) (p : str) : exn + str :=
  match fs !! p with
  | Some f => read f
  | None => inl OSError
  end.

(** [Path(p).write_text(text, encoding=utf-8)]: the whole file is
    replaced; a path that names no file gets one. *)
Definition write_text (fs : filesystem) (p text : str) : exn + filesystem :=
  match fs !! p with
  | Some f =>
      if may_write f
      then inr (<[p := File (inr text) (may_write f) (may_unlink f)]> fs)
      else inl OSError
  | None => inr (<[p := File (inr text) true true]> fs)
  end.

(** [Path(p).unlink()] *)
Definition unlink (fs : filesystem) (p : str) : exn + filesystem :=
  match fs !! p with
  | Some f => if may_unlink f then inr (delete p fs) else inl OSError
  | None => inl OSError
  end.

(** What the three functions print, one constructor per report. *)
Inductive line :=
  | WarnCouldNotRead (content_file : str) (exc : exn)
  | InlineNothing
  | InlineHeader (n : nat)
  | InlineSkipNotOnDisk (reusable_key : str)
  | InlineErrorRead (exc : exn)
  | InlineSkipNoShortcode (location : str)
  | InlineOk (reusable_key location : str)
  | InlineErrorFileOp (exc : exn)
  | DeleteNothing
  | DeleteHeader (n : nat)
  | DeleteSkipNotOnDisk (reusable_key : str)
  | DeleteOk (reusable_key : str)
  | DeleteError (reusable_key : str) (exc : exn).

(** ** [find_usages] *)

Abbreviation usage_map := (gmap (list N) (list (list N))).

(** The two results of [find_usages] and the lines it has written to
    [sys.stderr], as the scan goes on. *)
Record scan_state := ScanState {
  usages : usage_map;
  missing : gset (list N);
  stderr : list line
}.

(** [usages.setdefault(key, [])] *)
Definition setdefault (u : usage_map) (key : str) : usage_map :=
  match u !! key with
  | Some _ => u
  | None => <[key := []]> u
  end.

(** [usages[key].append(x)] on a [defaultdict(list)] *)
Definition append_use (u : usage_map) (key x : str) : usage_map :=
  <[key := default [] (u !! key) ++ [x]]> u.

(** The body of the loop over the matches of one content file. *)
Definition record_ref (reusable_files : list str) (content_file : str)
    (st : scan_state) (ref : str) : scan_state :=
  match resolve reusable_files ref with
  | Some matched_key =>
      ScanState (append_use (usages st) matched_key content_file)
                (missing st) (stderr st)
  | None => ScanState (usages st) ({[ref]} ∪ missing st) (stderr st)
  end.

(** The body of the loop over the content files. *)
Definition scan_file (fs : filesystem) (reusable_files : list str)
    (st : scan_state) (content_file : str) : scan_state :=
  match read_text fs content_file with
  | inl exc =>
      ScanState (usages st) (missing st)
                (stderr st ++ [WarnCouldNotRead content_file exc])
  | inr text =>
      foldl (record_ref reusable_files content_file) st (finditer text)
  end.

(** [reusable_md] and [content_md] are what the two [rglob] calls yield, as
    POSIX strings and in the order they yield it; [reusable_md] is the
    insertion order of the keys of [reusable_files]. *)
Definition find_usages (fs : filesystem) (reusable_md content_md : list str)
    : scan_state :=
  let reusable_files := reusable_md in
  let usages := foldl setdefault ∅ reusable_files in
  foldl (scan_file fs reusable_files) (ScanState usages ∅ []) content_md.

(** ** [sorted]: Python orders [str] by code points, lexicographically *)
Fixpoint str_leb (a b : str) : bool :=
  match a, b with
  | [], _ => true
  | _ :: _, [] => false
  | x :: a', y :: b' =>
      if (x <? y)%N then true
      else if (y <? x)%N then false
      else str_leb a' b'
  end.

Definition str_le (a b : str) : Prop := str_leb a b.

Definition item_le (a b : str * list str) : Prop := str_leb a.1 b.1.

(** ** [inline_singles] *)

(** [replacer], with the [nonlocal replaced] flag passed in and out. *)
Definition replacer (key reusable_text : str)
    (group0 ref : str) (replaced : bool) : str * bool :=
  if key_matches key ref then (rstrip_nl reusable_text, true)
  else (group0, replaced).

(** [READFILE_PATTERN.sub(repl, text)] for a function [repl] with a state:
    the text outside the matches is copied, every match is handed to [repl]
    as [m.group(0)] and [m.group(1)], from left to right, and what [repl]
    returns is spliced in as it is. *)
Definition sub_step {S : Type} (repl : str → str → S → str * S)
    (acc : str * S) (p : piece) : str * S :=
  let '(out, s) := acc in
  match p with
  | Plain c => (out ++ [c], s)
  | Shortcode w ref => let '(r, s') := repl w ref s in (out ++ r, s')
  end.

Definition sub {S : Type} (repl : str → str → S → str * S)
    (text : str) (s : S) : str * S :=
  foldl (sub_step repl) ([], s) (scan 0 text).

(** [candidates]: the items whose list has length 1, sorted; the only
    element of such a list is [locations[0]]. *)
Definition singles (u : usage_map) : list (str * list str) :=
  merge_sort item_le (filter (λ kv, length kv.2 = 1%nat) (map_to_list u)).

(** The body of the loop over the candidates; every candidate has one
    location, so the first branch is never taken. *)
Definition inline_one (st : filesystem * list line)
    (item : str * list str) : filesystem * list line :=
  let '(fs, out) := st in
  let '(reusable_key, locations) := item in
  match locations with
  | [] => st
  | content_file :: _ =>
      if negb (exists_ fs reusable_key)
      then (fs, out ++ [InlineSkipNotOnDisk reusable_key])
      else
        match read_text fs reusable_key with
        | inl exc => (fs, out ++ [InlineErrorRead exc])
        | inr reusable_text =>
        match read_text fs content_file with
        | inl exc => (fs, out ++ [InlineErrorRead exc])
        | inr content_text =>
            let '(new_content, replaced) :=
              sub (replacer reusable_key reusable_text) content_text false in
            if negb replaced
            then (fs, out ++ [InlineSkipNoShortcode content_file])
            else
              match write_text fs content_file new_content with
              | inl exc => (fs, out ++ [InlineErrorFileOp exc])
              | inr fs1 =>
                  match unlink fs1 reusable_key with
                  | inl exc => (fs1, out ++ [InlineErrorFileOp exc])
                  | inr fs2 => (fs2, out ++ [InlineOk reusable_key content_file])
                  end
              end
        end
        end
  end.

Definition inline_singles (u : usage_map) (fs : filesystem)
    : filesystem * list line :=
  let candidates := singles u in
  match candidates with
  | [] => (fs, [InlineNothing])
  | _ => foldl inline_one (fs, [InlineHeader (length candidates)]) candidates
  end.

(** ** [delete_unused] *)

(** [sorted(unused)]: the keys whose list is empty, sorted. *)
Definition unused (u : usage_map) : list str :=
  merge_sort str_le (filter (λ kv, length kv.2 = 0%nat) (map_to_list u)).*1.

(** The body of the loop over the unused keys. *)
Definition delete_one (st : filesystem * list line)
    (reusable_key : str) : filesystem * list line :=
  let '(fs, out) := st in
  if negb (exists_ fs reusable_key)
  then (fs, out ++ [DeleteSkipNotOnDisk reusable_key])
  else
    match unlink fs reusable_key with
    | inr fs' => (fs', out ++ [DeleteOk reusable_key])
    | inl exc => (fs, out ++ [DeleteError reusable_key exc])
    end.

Definition delete_unused (u : usage_map) (fs : filesystem)
    : filesystem * list line :=
  match unused u with
  | [] => (fs, [DeleteNothing])
  | keys => foldl delete_one (fs, [DeleteHeader (length keys)]) keys
  end.

(** ** The pattern, declaratively

    The words the pattern describes, with the group it captures. *)
Inductive readfile_shortcode : str → str → Prop :=
  | Readfile_shortcode ws1 ws2 ws3 ws4 ws5 ref :
      Forall is_space ws1 → Forall is_space ws2 → ws2 ≠ [] →
      Forall is_space ws3 → Forall is_space ws4 →
      Forall (λ c, c ≠ QUOTE) ref → ref ≠ [] →
      Forall is_space ws5 →
      readfile_shortcode
        (py "{{<" ++ ws1 ++ py "readfile" ++ ws2 ++ py "file" ++ ws3
         ++ py "=" ++ ws4 ++ [QUOTE] ++ ref ++ [QUOTE] ++ ws5 ++ py ">}}")
        ref.

(** A greedy run stops in front of [s]: either [s] is empty or its first
    character is outside the class. *)
Definition stops (P : N → bool) (s : str) : Prop :=
  match s with [] => True | c :: _ => P c = false end.

(** The directive as the tests write it. *)
Definition shortcode (ref : string) : str :=
  py "{{< readfile file=" ++ [QUOTE] ++ py ref ++ [QUOTE] ++ py " >}}".

(** ** What a scan sees

    The directive occurrences of the readable content files, each with the
    file it stands in, in the order the scan meets them; and the warnings
    for the files that cannot be read. *)
Definition occurrences (fs : filesystem) (content_md : list str)
    : list (str * str) :=
  content_md ≫= λ content_file,
    match read_text fs content_file with
    | inr text => (λ ref, (content_file, ref)) <$> finditer text
    | inl _ => []
    end.

Definition warnings (fs : filesystem) (content_md : list str) : list line :=
  omap (λ content_file,
          match read_text fs content_file with
          | inl exc => Some (WarnCouldNotRead content_file exc)
          | inr _ => None
          end) content_md.

(** The content files of the occurrences that resolve to [key]. *)
Definition uses_of (reusable_files : list str) (key : str)
    (occs : list (str * str)) : list str :=
  (filter (λ o, resolve reusable_files o.2 = Some key) occs).*1.

(** The references of the occurrences that resolve to nothing. *)
Definition unresolved (reusable_files : list str)
    (occs : list (str * str)) : list str :=
  filter (λ ref, resolve reusable_files ref = None) occs.*2.

(** What the pass does to the usage map and to the missing set. *)
Definition use_step (reusable_files : list str)
    (u : usage_map) (o : str * str) : usage_map :=
  match resolve reusable_files o.2 with
  | Some matched_key => append_use u matched_key o.1
  | None => u
  end.

Definition miss_step (reusable_files : list str)
    (m : gset (list N)) (o : str * str) : gset (list N) :=
  match resolve reusable_files o.2 with
  | Some _ => m
  | None => {[o.2]} ∪ m
  end.

(** The number of entries of a usage map, all lists together. *)
Definition total_uses (u : usage_map) : nat :=
  map_fold (λ _ l n, (length l + n)%nat) 0%nat u.

(** ** Two readings used in the statements below *)

(** The reading of the file-name test as a last resort of the whole search:
    a reference resolved to a key that does not suffix-match it has no
    suffix-matching candidate at all. *)
Definition name_match_is_last_resort (reusable_files : list str)
    (ref : str) : Prop :=
  ∀ key, resolve reusable_files ref = Some key →
         suffix_match key ref = false →
         Forall (λ k, suffix_match k ref = false) reusable_files.

(** The three tests of the heuristic, as relations on strings. *)
Definition matches (key ref : str) : Prop :=
  key `suffix_of` ref ∨ ref `suffix_of` key ∨ path_name ref = path_name key.

Definition OPEN : char := 123%N.

(** A directive written with nothing between the quotes. *)
Inductive empty_file_directive : str → Prop :=
  | Empty_file_directive ws1 ws2 ws3 ws4 ws5 :
      Forall is_space ws1 → Forall is_space ws2 → ws2 ≠ [] →
      Forall is_space ws3 → Forall is_space ws4 → Forall is_space ws5 →
      empty_file_directive
        (py "{{<" ++ ws1 ++ py "readfile" ++ ws2 ++ py "file" ++ ws3
         ++ py "=" ++ ws4 ++ [QUOTE] ++ [] ++ [QUOTE] ++ ws5 ++ py ">}}").

(** What [sub] puts in the place of a piece when it inlines [key]. *)
Definition inlined (key reusable_text : str) (p : piece) : str :=
  match p with
  | Plain c => [c]
  | Shortcode w ref =>
      if key_matches key ref then rstrip_nl reusable_text else w
  end.

(** The reports that say a candidate was left alone. *)
Definition skipped (l : line) : Prop :=
  match l with
  | InlineSkipNotOnDisk _ | InlineErrorRead _ | InlineSkipNoShortcode _ => True
  | _ => False
  end.

(** ** A small tree for the examples

    Under [/r], the reusable files: [tip.md], used once, and [orphan.md],
    not used. Under [/c], the content files: [page.md] with a directive for
    [tip.md] and one for a file that is not there, [twice.md] with two
    directives for [tip.md], [plain.md] without directives, and [broken.md],
    which does not decode. *)
Definition plain_file (text : str) : file := File (inr text) true true.

Definition tip_md : str := py "/r/tip.md".
Definition orphan_md : str := py "/r/orphan.md".
Definition page_md : str := py "/c/page.md".
Definition twice_md : str := py "/c/twice.md".
Definition plain_md : str := py "/c/plain.md".
Definition broken_md : str := py "/c/broken.md".

Definition page_text : str :=
  py "Before." ++ [NL] ++ shortcode "content/reusable/tip.md" ++ [NL]
  ++ shortcode "content/reusable/ghost.md".

Definition twice_text : str :=
  shortcode "content/reusable/tip.md" ++ [NL] ++ shortcode "r/tip.md".

Definition example_fs : filesystem :=
  <[tip_md := plain_file (py "Inlined tip." ++ [NL])]>
  (<[orphan_md := plain_file (py "Nobody reads this.")]>
  (<[page_md := plain_file page_text]>
  (<[twice_md := plain_file twice_text]>
  (<[plain_md := plain_file (py "No shortcodes here.")]>
  (<[broken_md := File (inl UnicodeDecodeError) true true]> ∅))))).

Definition example_reusable : list str := [tip_md; orphan_md].

(** A usage map that has gone stale: it names [plain.md] as the one file
    that uses [tip.md]. *)
Definition stale_usages : usage_map := {[ tip_md := [plain_md] ]}.

(** ** Documents

    The helper [shortcode] of the tests, for any reference; and a text laid
    out as a sequence of directives and of stretches of other text. *)
Definition shortcode_of (ref : str) : str :=
  py "{{< readfile file=" ++ [QUOTE] ++ ref ++ [QUOTE] ++ py " >}}".

Inductive segment :=
  | Other (s : str)
  | Directive (w ref : str).

Definition segment_text (g : segment) : str :=
  match g with
  | Other s => s
  | Directive w _ => w
  end.

Definition segment_ref (g : segment) : option str :=
  match g with
  | Other _ => None
  | Directive _ ref => Some ref
  end.

Definition segment_pieces (g : segment) : list piece :=
  match g with
  | Other s => Plain <$> s
  | Directive w ref => [Shortcode w ref]
  end.

(** A stretch of other text holds no opening brace; a directive is a word of
    the pattern. *)
Definition segment_ok (g : segment) : Prop :=
  match g with
  | Other s => Forall (λ c, c ≠ OPEN) s
  | Directive w ref => readfile_shortcode w ref
  end.

Definition render (d : list segment) : str := concat (segment_text <$> d).

(** ** Paths written as a directory part and a file name *)

(** [d/name] *)
Definition join (d name : str) : str := d ++ SLASH :: name.

(** A file name: one component, not empty and not the dot. *)
Definition file_name (name : str) : Prop :=
  name ≠ [] ∧ name ≠ [DOT] ∧ SLASH ∉ name.


(** Whether [read_text] returns. *)
Definition readable (fs : filesystem) (p : str) : bool :=
  match read_text fs p with
  | inr _ => true
  | inl _ => false
  end.

(** ** What the mutations report and leave behind *)

(** A path that names no file, or a file the system lets be removed. *)
Definition removable (fs : filesystem) (p : str) : bool :=
  match fs !! p with
  | Some f => may_unlink f
  | None => true
  end.

(** The report of [delete_unused] for a key, read off the file system. *)
Definition delete_report (fs : filesystem) (key : str) : line :=
  match fs !! key with
  | None => DeleteSkipNotOnDisk key
  | Some f => if may_unlink f then DeleteOk key else DeleteError key OSError
  end.

(** The file [write_text] leaves at a path that named the file [f]. *)
Definition rewritten (f : file) (text : str) : file :=
  File (inr text) (may_write f) (may_unlink f).

(** The text [inline_singles] writes when it inlines [key]. *)
Definition inlined_text (key reusable_text content_text : str) : str :=
  concat (inlined key reusable_text <$> scan 0 content_text).

(** Every file of [fs'] was a file of [fs] with the same permissions, and
    with the same contents unless it is the one location of a key of [u]. *)
Definition kept_from (u : usage_map) (fs fs' : filesystem) : Prop :=
  ∀ p f', fs' !! p = Some f' →
    ∃ f, fs !! p = Some f ∧
         may_write f' = may_write f ∧ may_unlink f' = may_unlink f ∧
         (read f' = read f ∨ ∃ key, u !! key = Some [p]).

(** ** [report]

    What [report] prints, one constructor for each [print] call. The dict
    [usages] is given by its items in the order of the dict, which is the
    order the stable sort of the table starts from. *)
Inductive use_label := ZeroUses | OneUse.

Inductive report_line :=
  | ReportTitle (total : nat)
  | ReportRule
  | AlertHeader (n : nat)
  | Alert (file_path : str) (label : use_label)
  | AlertLocation (loc : str)
  | AllUsedMoreThanOnce
  | MissingHeader (n : nat)
  | MissingRef (ref : str)
  | NothingMissing
  | TableHeader
  | TableRule
  | Row (file_path : str) (count : nat)
  | RowLocation (loc : str)
  | ReportEnd.

(** [sorted(items, key=lambda x: -len(x[1]))]: the sort is stable, so an
    item stays in front of the items after it that have as many uses. *)
Fixpoint insert_by_uses (x : str * list str) (l : list (str * list str))
    : list (str * list str) :=
  match l with
  | [] => [x]
  | y :: l' =>
      if (length x.2 <? length y.2)%nat then y :: insert_by_uses x l'
      else x :: l
  end.

Definition sort_by_uses (items : list (str * list str))
    : list (str * list str) :=
  foldr insert_by_uses [] items.

(** The lines of one entry of the alert section. *)
Definition alert_lines (show_locations : bool) (item : str * list str)
    : list report_line :=
  let '(file_path, locations) := item in
  let label := if (length locations =? 0)%nat then ZeroUses else OneUse in
  Alert file_path label ::
  match show_locations, locations with
  | true, _ :: _ => AlertLocation <$> locations
  | _, _ => []
  end.

(** The lines of one row of the table; the locations are
    [sorted(set(locations))]. *)
Definition row_lines (show_locations : bool) (item : str * list str)
    : list report_line :=
  let '(file_path, locations) := item in
  Row file_path (length locations) ::
  match show_locations, locations with
  | true, _ :: _ =>
      RowLocation <$>
        merge_sort str_le (elements (list_to_set locations : gset (list N)))
  | _, _ => []
  end.

(** [errors]: the items of [sorted(usages.items())] with at most one use. *)
Definition report_errors (items : list (str * list str))
    : list (str * list str) :=
  filter (λ kv, (length kv.2 ≤ 1)%nat) (merge_sort item_le items).

Definition alert_section (items : list (str * list str))
    (show_locations : bool) : list report_line :=
  match report_errors items with
  | [] => [AllUsedMoreThanOnce]
  | errors =>
      AlertHeader (length errors) :: (errors ≫= alert_lines show_locations)
  end.

Definition missing_section (missing : gset (list N)) (show_missing : bool)
    : list report_line :=
  if show_missing then
    if decide (missing = ∅) then [NothingMissing]
    else MissingHeader (size missing)
         :: (MissingRef <$> merge_sort str_le (elements missing))
  else [].

Definition table_section (items : list (str * list str))
    (show_locations : bool) : list report_line :=
  [TableHeader; TableRule]
  ++ (sort_by_uses items ≫= row_lines show_locations).

Definition report (items : list (str * list str)) (missing : gset (list N))
    (show_locations show_missing : bool) : list report_line :=
  [ReportTitle (length items); ReportRule]
  ++ alert_section items show_locations
  ++ missing_section missing show_missing
  ++ table_section items show_locations
  ++ [ReportEnd].

(** The rows of a report, and the lines that name a location. *)
Definition rows (out : list report_line) : list (str * nat) :=
  omap (λ l, match l with Row p n => Some (p, n) | _ => None end) out.

Definition is_location (l : report_line) : bool :=
  match l with
  | AlertLocation _ | RowLocation _ => true
  | _ => false
  end.

Definition is_missing_line (l : report_line) : bool :=
  match l with
  | MissingHeader _ | MissingRef _ | NothingMissing => true
  | _ => false
  end.

(** The items of a dict that holds the map [u], in some order. *)
Definition items_of (u : usage_map) (items : list (str * list str)) : Prop :=
  items ≡ₚ map_to_list u.

(** The alerts of a report. *)
Definition alerts (out : list report_line) : list (str * use_label) :=
  omap (λ l, match l with Alert p lab => Some (p, lab) | _ => None end) out.

Definition missing_refs (out : list report_line) : list str :=
  omap (λ l, match l with MissingRef ref => Some ref | _ => None end) out.

(** The label [report] gives a list of locations with at most one entry. *)
Definition label_of (locations : list str) : use_label :=
  if (length locations =? 0)%nat then ZeroUses else OneUse.

(** [a] stands in front of [b] in a table: it has at least as many uses. *)
Definition more_uses (a b : str * list str) : Prop :=
  (length b.2 ≤ length a.2)%nat.


#[global] Instance use_label_eq_dec : EqDecision use_label.
Proof. solve_decision. Defined.

(** The paths of the alerts with a given label, in the order of the
    report. *)
Definition alerted (lab : use_label) (out : list report_line) : list str :=
  (filter (λ a, a.2 = lab) (alerts out)).*1.

(** The location lines of a report, of the alert section and of the
    table. *)
Definition alert_locations (out : list report_line) : list str :=
  omap (λ l, match l with AlertLocation loc => Some loc | _ => None end) out.

Definition row_locations (out : list report_line) : list str :=
  omap (λ l, match l with RowLocation loc => Some loc | _ => None end) out.

(** A report cut into blocks: a line that opens a block, with the
    location lines that stand right beneath it. *)
Fixpoint beneath (loc : report_line → option str) (out : list report_line)
    : list str :=
  match out with
  | [] => []
  | l :: out' =>
      match loc l with
      | Some x => x :: beneath loc out'
      | None => []
      end
  end.

Fixpoint blocks {A} (opens : report_line → option A)
    (loc : report_line → option str) (out : list report_line)
    : list (A * list str) :=
  match out with
  | [] => []
  | l :: out' =>
      match opens l with
      | Some a => (a, beneath loc out') :: blocks opens loc out'
      | None => blocks opens loc out'
      end
  end.

(** The rows of the table, each with the locations printed beneath it, and
    the alerts, each with the locations printed beneath it. *)
Definition row_blocks (out : list report_line)
    : list (str * nat * list str) :=
  blocks (λ l, match l with Row p n => Some (p, n) | _ => None end)
         (λ l, match l with RowLocation loc => Some loc | _ => None end) out.

Definition alert_blocks (out : list report_line)
    : list (str * use_label * list str) :=
  blocks (λ l, match l with Alert p lab => Some (p, lab) | _ => None end)
         (λ l, match l with AlertLocation loc => Some loc | _ => None end)
         out.

(** [sorted(set(locations))] *)
Definition sorted_set (locations : list str) : list str :=
  merge_sort str_le (elements (list_to_set locations : gset (list N))).

(** ** [main]

    The parsed command line. *)
Record args := Args {
  arg_reusable_dir : str;
  arg_content_dir : str;
  arg_show_locations : bool;
  arg_show_missing : bool;
  arg_inline_singles : bool;
  arg_delete_unused : bool
}.

(** What [main] asks of the machine: [Path(p).expanduser().resolve()],
    [is_dir], what [rglob] yields under a directory, as POSIX strings and in
    the order it yields them, and the files. *)
Record machine := Machine {
  resolved : str → str;
  is_dir : str → bool;
  rglob_md : str → list str;
  files : filesystem
}.

Inductive dir_label := ReusableDir | ContentDir.

Inductive stderr_line :=
  | NotADirectory (label : dir_label) (path : str)
  | Warning (l : line).

Inductive stdout_line :=
  | ReportLine (l : report_line)
  | MutationLine (l : line).

(** A run of [main]: the exit status, the two streams and the files it
    leaves. *)
Record outcome := Outcome {
  exit_status : nat;
  out_lines : list stdout_line;
  err_lines : list stderr_line;
  final_files : filesystem
}.

(** The keys of a dict in the order of their first insertion. *)
Fixpoint dict_keys (keys : list str) : list str :=
  match keys with
  | [] => []
  | k :: keys' => k :: filter (λ k', k' ≠ k) (dict_keys keys')
  end.

(** [usages.items()] after [find_usages]: the keys were inserted by the
    loop of [setdefault] over the listing, and an [append] to a key that is
    there does not move it. *)
Definition dict_items (reusable_md : list str) (u : usage_map)
    : list (str * list str) :=
  omap (λ k, (λ locs, (k, locs)) <$> u !! k) (dict_keys reusable_md).

Definition main (a : args) (m : machine) : outcome :=
  let reusable_dir := resolved m (arg_reusable_dir a) in
  let content_dir := resolved m (arg_content_dir a) in
  if negb (is_dir m reusable_dir)
  then Outcome 1 [] [NotADirectory ReusableDir reusable_dir] (files m)
  else if negb (is_dir m content_dir)
  then Outcome 1 [] [NotADirectory ContentDir content_dir] (files m)
  else
    let st := find_usages (files m) (rglob_md m reusable_dir)
                          (rglob_md m content_dir) in
    let printed :=
      report (dict_items (rglob_md m reusable_dir) (usages st)) (missing st)
             (arg_show_locations a) (arg_show_missing a) in
    let '(fs1, out1) :=
      if arg_inline_singles a then inline_singles (usages st) (files m)
      else (files m, []) in
    let '(fs2, out2) :=
      if arg_delete_unused a then delete_unused (usages st) fs1
      else (fs1, []) in
    Outcome 0
      ((ReportLine <$> printed) ++ (MutationLine <$> out1)
       ++ (MutationLine <$> out2))
      (Warning <$> stderr st) fs2.

(** The report lines and the mutation lines of the standard output. *)
Definition report_lines (out : list stdout_line) : list report_line :=
  omap (λ l, match l with ReportLine r => Some r | _ => None end) out.

Definition mutation_lines (out : list stdout_line) : list line :=
  omap (λ l, match l with MutationLine r => Some r | _ => None end) out.

(** The usage map a run of [main] works with. *)
Definition scanned (a : args) (m : machine) : scan_state :=
  find_usages (files m) (rglob_md m (resolved m (arg_reusable_dir a)))
              (rglob_md m (resolved m (arg_content_dir a))).

(** An example machine around the example tree. *)
Definition example_machine : machine :=
  Machine (λ p, SLASH :: p)
          (λ p, bool_decide (p = py "/r") || bool_decide (p = py "/c"))
          (λ d, if bool_decide (d = py "/r") then example_reusable
                else if bool_decide (d = py "/c")
                then [page_md; twice_md; plain_md; broken_md] else [])
          example_fs.

Definition example_args (inline delete : bool) : args :=
  Args (py "r") (py "c") true true inline delete.

(** * Properties *)

(** ** The pattern *)

Lemma lit_spec p s r : lit p s = Some r ↔ s = p ++ r.
Proof.
  revert s. induction p as [|a p IH]; intros s; simpl.
  - split; [by intros [= ->] | by intros ->].
  - destruct s as [|c s]; [by split|].
    case_decide as Hac; [subst c|].
    + rewrite IH. split; [by intros -> | by intros [= ->]].
    + split; [done | intros [= ? _]; by subst].
Qed.

Lemma lit_app p r : lit p (p ++ r) = Some r.
Proof. by apply lit_spec. Qed.

Lemma spaces_run s : ∃ ws, s = ws ++ spaces s ∧ Forall is_space ws.
Proof.
  induction s as [|c s (ws & Hs & Hws)]; simpl.
  - by exists [].
  - destruct (is_space c) eqn:Hc.
    + exists (c :: ws). split; [by simpl; rewrite <- Hs|].
      constructor; [by rewrite Hc | done].
    + by exists [].
Qed.

Lemma spaces_app ws s :
  Forall is_space ws → stops is_space s → spaces (ws ++ s) = s.
Proof.
  intros Hws Hs. induction Hws as [|c ws Hc _ IH]; simpl.
  - destruct s as [|c s]; [done|]. simpl in *. by rewrite Hs.
  - destruct (is_space c); [done | by destruct Hc].
Qed.

Lemma spaces1_spec s r :
  spaces1 s = Some r ↔
  ∃ ws, s = ws ++ r ∧ Forall is_space ws ∧ ws ≠ [] ∧ stops is_space r.
Proof.
  split.
  - destruct s as [|c s]; simpl; [done|].
    destruct (is_space c) eqn:Hc; [|done]. intros [= <-].
    destruct (spaces_run s) as (ws & Hs & Hws).
    exists (c :: ws). split_and!; [by simpl; rewrite <- Hs| |done|].
    + constructor; [by rewrite Hc | done].
    + clear. induction s as [|c s IH]; simpl; [done|].
      destruct (is_space c) eqn:Hc; [done | by simpl].
  - intros (ws & -> & Hws & Hne & Hr).
    destruct Hws as [|c ws Hc Hws]; [done|]. simpl.
    destruct (is_space c); [|by destruct Hc].
    by rewrite spaces_app.
Qed.

Lemma unquoted_run s g r :
  unquoted s = (g, r) →
  s = g ++ r ∧ Forall (λ c, c ≠ QUOTE) g ∧
  stops (λ c, negb (bool_decide (c = QUOTE))) r.
Proof.
  revert g r. induction s as [|c s IH]; intros g r; simpl.
  - by intros [= <- <-].
  - case_decide as Hc.
    + intros [= <- <-]. split_and!; [done..|]. simpl.
      by rewrite bool_decide_eq_true_2.
    + destruct (unquoted s) as [g' r'] eqn:Hs. intros [= <- <-].
      destruct (IH _ _ eq_refl) as (-> & Hg & Hr).
      by split_and!; [|constructor|].
Qed.

Lemma unquoted_app g r :
  Forall (λ c, c ≠ QUOTE) g → unquoted (g ++ QUOTE :: r) = (g, QUOTE :: r).
Proof.
  induction 1 as [|c g Hc _ IH]; cbn [app unquoted].
  - by rewrite decide_True.
  - rewrite decide_False by done. by rewrite IH.
Qed.

Lemma group1_spec s g r :
  group1 s = Some (g, QUOTE :: r) ↔
  s = g ++ QUOTE :: r ∧ Forall (λ c, c ≠ QUOTE) g ∧ g ≠ [].
Proof.
  unfold group1. split.
  - destruct (unquoted s) as [g' r'] eqn:Hs.
    apply unquoted_run in Hs as (-> & Hg & _).
    destruct g'; [done|]. by intros [= <- <-].
  - intros (-> & Hg & Hne). rewrite unquoted_app by done. by destruct g.
Qed.

(** One step through the chain of binds of [match_at], read off a
    successful run ([bind_inv]) or made on an input of known shape
    ([consume]). *)
Ltac bind_inv H s E :=
  match type of H with
  | mbind _ ?m = Some _ =>
      destruct m as [s|] eqn:E; cbn [mbind option_bind] in H; [|done]
  end.

Ltac consume :=
  cbn [mbind option_bind];
  first [ rewrite lit_app | rewrite spaces_app by done ].

Lemma match_at_sound s ref rest :
  match_at s = Some (ref, rest) →
  ∃ w, s = w ++ rest ∧ readfile_shortcode w ref.
Proof.
  unfold match_at. intros H.
  bind_inv H s1 H1. bind_inv H s2 H2. bind_inv H s3 H3. bind_inv H s4 H4.
  bind_inv H s5 H5. bind_inv H s6 H6. bind_inv H gs H7. destruct gs as [g s7].
  bind_inv H s8 H8. bind_inv H s9 H9.
  injection H as -> ->.
  apply lit_spec in H1, H2, H4, H5, H6, H8, H9.
  apply spaces1_spec in H3 as (ws2 & -> & Hws2 & Hne2 & _).
  destruct (spaces_run s1) as (ws1 & E1 & Hws1).
  destruct (spaces_run s4) as (ws3 & E3 & Hws3).
  destruct (spaces_run s5) as (ws4 & E4 & Hws4).
  destruct (spaces_run s8) as (ws5 & E5 & Hws5).
  subst s7. apply group1_spec in H7 as (-> & Hg & Hgne).
  exists (py "{{<" ++ ws1 ++ py "readfile" ++ ws2 ++ py "file" ++ ws3
          ++ py "=" ++ ws4 ++ [QUOTE] ++ ref ++ [QUOTE] ++ ws5 ++ py ">}}").
  split; [|by constructor].
  rewrite H1, E1, H2. rewrite H4, E3, H5, E4, H6, E5, H9.
  by rewrite <- !app_assoc.
Qed.

Lemma match_at_complete w ref rest :
  readfile_shortcode w ref → match_at (w ++ rest) = Some (ref, rest).
Proof.
  intros [ws1 ws2 ws3 ws4 ws5 g Hws1 Hws2 Hne2 Hws3 Hws4 Hg Hgne Hws5].
  unfold match_at. rewrite <- !app_assoc.
  do 3 consume. cbn [mbind option_bind].
  rewrite (proj2 (spaces1_spec _ _)) by (by exists ws2).
  do 5 consume. cbn [mbind option_bind].
  rewrite (proj2 (group1_spec _ g _)) by done.
  cbn [mbind option_bind]. change (QUOTE :: ?x) with ([QUOTE] ++ x).
  do 3 consume. done.
Qed.

(** [match_at] finds exactly the prefixes of the input that the pattern
    describes. *)
Lemma match_at_spec s ref rest :
  match_at s = Some (ref, rest) ↔ ∃ w, s = w ++ rest ∧ readfile_shortcode w ref.
Proof.
  split; [apply match_at_sound|].
  intros (w & -> & Hw). by apply match_at_complete.
Qed.

(** At one position the pattern describes at most one prefix, so the order
    in which a backtracking matcher tries the alternatives cannot matter. *)
Lemma readfile_shortcode_unique w1 ref1 rest1 w2 ref2 rest2 :
  readfile_shortcode w1 ref1 → readfile_shortcode w2 ref2 →
  w1 ++ rest1 = w2 ++ rest2 → w1 = w2 ∧ ref1 = ref2.
Proof.
  intros H1 H2 E.
  pose proof (match_at_complete _ _ rest1 H1) as M1.
  pose proof (match_at_complete _ _ rest2 H2) as M2.
  rewrite E, M2 in M1. injection M1 as -> ->.
  by apply app_inv_tail in E.
Qed.

Lemma readfile_shortcode_nonempty w ref : readfile_shortcode w ref → w ≠ [].
Proof. by intros []. Qed.

(** ** The scan *)

Lemma match_at_take s ref rest :
  match_at s = Some (ref, rest) →
  let n := (length s - length rest)%nat in
  readfile_shortcode (take n s) ref ∧ drop n s = rest ∧
  (0 < n ≤ length s)%nat.
Proof.
  intros (w & -> & Hw)%match_at_sound. cbn zeta.
  pose proof (readfile_shortcode_nonempty _ _ Hw) as Hne.
  rewrite length_app.
  replace (length w + length rest - length rest)%nat with (length w) by lia.
  rewrite take_app_length, drop_app_length. split_and!; [done..| |lia].
  destruct w; [done | simpl; lia].
Qed.

(** The pieces, put back together, are the text that was scanned. *)
Lemma scan_text n s :
  (n ≤ length s)%nat → concat (piece_text <$> scan n s) = drop n s.
Proof.
  revert n. induction s as [|c s IH]; intros n Hn.
  - by destruct n.
  - destruct n as [|n]; cbn [scan].
    + destruct (match_at (c :: s)) as [[ref rest]|] eqn:Hm.
      * apply match_at_take in Hm as (_ & Hd & Hk).
        set (k := (length (c :: s) - length rest)%nat) in *.
        cbn [fmap list_fmap concat piece_text].
        rewrite IH by (simpl in Hk; lia).
        destruct k as [|k]; [lia|]. cbn [pred].
        rewrite <- (take_drop (S k) (c :: s)) at 2. done.
      * cbn [fmap list_fmap concat piece_text]. rewrite IH by lia. done.
    + simpl in Hn. rewrite IH by lia. done.
Qed.

Lemma scan_0_text s : concat (piece_text <$> scan 0 s) = s.
Proof. rewrite scan_text by lia. done. Qed.

(** Every [Shortcode] piece is an occurrence of the pattern. *)
Lemma scan_shortcode n s w ref :
  Shortcode w ref ∈ scan n s → readfile_shortcode w ref.
Proof.
  revert n. induction s as [|c s IH]; intros n; cbn [scan].
  - by intros ?%elem_of_nil.
  - destruct n as [|n]; [|by apply IH].
    destruct (match_at (c :: s)) as [[ref' rest]|] eqn:Hm.
    + intros [[= -> ->]|?]%elem_of_cons; [|by eapply IH].
      by destruct (match_at_take _ _ _ Hm) as (? & _).
    + intros [[=]|?]%elem_of_cons. by eapply IH.
Qed.

Lemma scan_skip n s : (n ≤ length s)%nat → scan n s = scan 0 (drop n s).
Proof.
  revert n. induction s as [|c s IH]; intros [|n] Hn; try done.
  cbn [scan drop]. apply IH. cbn in Hn. lia.
Qed.

(** The scan, as [finditer] proceeds: a match at the front is taken and the
    scan resumes where the match ends; otherwise it moves on by one
    character. *)
Lemma scan_match w ref rest :
  readfile_shortcode w ref →
  scan 0 (w ++ rest) = Shortcode w ref :: scan 0 rest.
Proof.
  intros Hw. pose proof (match_at_complete w ref rest Hw) as Hm.
  destruct (match_at_take _ _ _ Hm) as (_ & _ & Hn).
  destruct w as [|c w]; [by apply readfile_shortcode_nonempty in Hw|].
  cbn [app scan] in *. rewrite Hm.
  replace (length (c :: w ++ rest) - length rest)%nat with (S (length w))
    by (cbn; rewrite length_app; lia).
  cbn [pred take]. rewrite take_app_length.
  rewrite scan_skip by (rewrite length_app; lia).
  by rewrite drop_app_length.
Qed.

Lemma scan_no_match c s :
  match_at (c :: s) = None → scan 0 (c :: s) = Plain c :: scan 0 s.
Proof. intros Hm. cbn [scan]. by rewrite Hm. Qed.

(** ** The candidate loop *)

Lemma resolve_Some (reusable_files : list str) ref key :
  resolve reusable_files ref = Some key ↔
  ∃ before after,
    reusable_files = before ++ key :: after ∧
    key_matches key ref = true ∧
    Forall (λ k, key_matches k ref = false) before.
Proof.
  unfold key_matches. induction reusable_files as [|k l IH]; cbn [resolve].
  - split; [done|]. intros (b & a & E & _). by destruct b.
  - destruct (suffix_match k ref) eqn:Hs;
      [|destruct (name_match k ref) eqn:Hn].
    1,2: split;
      [ intros [= <-]; exists [], l; by rewrite ?Hs, ?Hn
      | intros ([|k' b] & a & E & Hk & Hb); simplify_eq/=; [done|];
        apply Forall_cons_1 in Hb as [Hb _]; by rewrite ?Hs, ?Hn in Hb ].
    rewrite IH. split.
    + intros (b & a & -> & Hk & Hb). exists (k :: b), a.
      split_and!; [done..|]. constructor; [by rewrite Hs, Hn | done].
    + intros ([|k' b] & a & E & Hk & Hb); simplify_eq/=.
      * by rewrite Hs, Hn in Hk.
      * apply Forall_cons_1 in Hb as [_ Hb]. by exists b, a.
Qed.

Lemma resolve_None (reusable_files : list str) ref :
  resolve reusable_files ref = None ↔
  Forall (λ k, key_matches k ref = false) reusable_files.
Proof.
  unfold key_matches. induction reusable_files as [|k l IH]; cbn [resolve].
  - by split.
  - rewrite Forall_cons.
    destruct (suffix_match k ref), (name_match k ref); cbn [orb];
      rewrite ?IH; intuition congruence.
Qed.

Lemma resolve_elem_of (reusable_files : list str) ref key :
  resolve reusable_files ref = Some key → key ∈ reusable_files.
Proof.
  intros (b & a & -> & _)%resolve_Some. set_solver.
Qed.


(** ** The scan as one pass over the occurrences *)

Section find_usages.
Context (fs : filesystem) (reusable_files : list str).

Lemma foldl_record_ref content_file st refs :
  foldl (record_ref reusable_files content_file) st refs =
  let occs := (λ ref, (content_file, ref)) <$> refs in
  ScanState (foldl (use_step reusable_files) (usages st) occs)
            (foldl (miss_step reusable_files) (missing st) occs) (stderr st).
Proof.
  revert st. induction refs as [|ref refs IH]; intros st;
    cbn [foldl fmap list_fmap].
  - by destruct st.
  - rewrite IH. unfold record_ref, use_step, miss_step. cbn [fst snd].
    by destruct (resolve reusable_files ref).
Qed.

Lemma foldl_scan_file st content_md :
  foldl (scan_file fs reusable_files) st content_md =
  let occs := occurrences fs content_md in
  ScanState (foldl (use_step reusable_files) (usages st) occs)
            (foldl (miss_step reusable_files) (missing st) occs)
            (stderr st ++ warnings fs content_md).
Proof.
  revert st. induction content_md as [|c l IH]; intros st.
  - destruct st. cbn. by rewrite app_nil_r.
  - cbn [foldl]. rewrite IH. unfold scan_file, occurrences, warnings.
    cbn [mbind list_bind omap list_omap].
    fold (occurrences fs l) (warnings fs l).
    destruct (read_text fs c) as [exc|text]; cbn [usages missing stderr].
    + by rewrite <- app_assoc.
    + rewrite foldl_record_ref. cbn [usages missing stderr].
      by rewrite !foldl_app.
Qed.

Lemma foldl_setdefault (u : usage_map) l key :
  foldl setdefault u l !! key =
  match u !! key with
  | Some v => Some v
  | None => if decide (key ∈ l) then Some [] else None
  end.
Proof.
  revert u. induction l as [|k l IH]; intros u; cbn [foldl].
  - by destruct (u !! key).
  - rewrite IH. unfold setdefault.
    destruct (u !! k) eqn:Hk.
    + destruct (u !! key) eqn:Hkey; [done|].
      assert (key ≠ k) by congruence.
      repeat case_decide; set_solver.
    + destruct (decide (key = k)) as [->|Hne].
      * rewrite lookup_insert_eq, Hk. by rewrite decide_True by set_solver.
      * rewrite lookup_insert_ne by done.
        destruct (u !! key); [done|]. repeat case_decide; set_solver.
Qed.

Lemma lookup_append_use (u : usage_map) key x k :
  append_use u key x !! k =
  if decide (key = k) then Some (default [] (u !! key) ++ [x]) else u !! k.
Proof. unfold append_use. apply lookup_insert. Qed.

(** While every reusable file has its key, the pass only ever appends, and
    only to lists that are there. *)
Lemma foldl_use_step (u : usage_map) occs key :
  (∀ k, k ∈ reusable_files → is_Some (u !! k)) →
  foldl (use_step reusable_files) u occs !! key =
  (λ l, l ++ uses_of reusable_files key occs) <$> u !! key.
Proof.
  revert u. induction occs as [|[c ref] occs IH]; intros u Hu; cbn [foldl].
  - unfold uses_of. cbn. destruct (u !! key); cbn; [|done].
    by rewrite app_nil_r.
  - unfold uses_of in *. rewrite filter_cons. unfold use_step at 2.
    cbn [fst snd].
    destruct (resolve reusable_files ref) as [k|] eqn:Hr.
    + rewrite IH.
      2:{ intros k' Hk'. rewrite lookup_append_use. case_decide; [done|eauto]. }
      rewrite lookup_append_use.
      destruct (Hu k) as [v Hv]; [by eapply resolve_elem_of|].
      destruct (decide (k = key)) as [->|Hne].
      * rewrite decide_True by done. rewrite Hv. cbn. by rewrite <- app_assoc.
      * rewrite decide_False by congruence. done.
    + rewrite decide_False by done. by apply IH.
Qed.

Lemma foldl_miss_step (m : gset (list N)) occs :
  foldl (miss_step reusable_files) m occs =
  m ∪ list_to_set (unresolved reusable_files occs).
Proof.
  revert m. induction occs as [|[c ref] occs IH]; intros m; cbn [foldl].
  - unfold unresolved. cbn. set_solver.
  - rewrite IH. unfold unresolved, miss_step. cbn [fmap list_fmap fst snd].
    rewrite filter_cons.
    destruct (resolve reusable_files ref) eqn:Hr.
    + by rewrite decide_False by done.
    + rewrite decide_True by done. set_solver.
Qed.

(** The result of [find_usages], in closed form. *)
Lemma find_usages_usages content_md key :
  usages (find_usages fs reusable_files content_md) !! key =
  if decide (key ∈ reusable_files)
  then Some (uses_of reusable_files key (occurrences fs content_md))
  else None.
Proof.
  unfold find_usages. cbn zeta. rewrite foldl_scan_file. cbn [usages].
  rewrite foldl_use_step.
  - rewrite foldl_setdefault, lookup_empty. by case_decide.
  - intros k Hk. rewrite foldl_setdefault, lookup_empty.
    by rewrite decide_True.
Qed.

Lemma find_usages_missing content_md :
  missing (find_usages fs reusable_files content_md) =
  list_to_set (unresolved reusable_files (occurrences fs content_md)).
Proof.
  unfold find_usages. cbn zeta. rewrite foldl_scan_file. cbn [missing].
  rewrite foldl_miss_step. set_solver.
Qed.

Lemma find_usages_stderr content_md :
  stderr (find_usages fs reusable_files content_md) = warnings fs content_md.
Proof.
  unfold find_usages. cbn zeta. by rewrite foldl_scan_file.
Qed.

End find_usages.

(** ** Claims about the scanner *)

Lemma occurrences_app fs l1 l2 :
  occurrences fs (l1 ++ l2) = occurrences fs l1 ++ occurrences fs l2.
Proof. unfold occurrences. apply bind_app. Qed.

Lemma occurrences_cons fs c l :
  occurrences fs (c :: l) =
  match read_text fs c with
  | inr text => (λ ref, (c, ref)) <$> finditer text
  | inl _ => []
  end ++ occurrences fs l.
Proof. done. Qed.

Lemma warnings_app fs l1 l2 :
  warnings fs (l1 ++ l2) = warnings fs l1 ++ warnings fs l2.
Proof. unfold warnings. apply omap_app. Qed.

Lemma elem_of_occurrences fs content_md c ref :
  (c, ref) ∈ occurrences fs content_md ↔
  c ∈ content_md ∧ ∃ text, read_text fs c = inr text ∧ ref ∈ finditer text.
Proof.
  unfold occurrences. rewrite list_elem_of_bind. split.
  - intros (c' & Hin & Hc'). destruct (read_text fs c') as [|text] eqn:Hr.
    + by apply elem_of_nil in Hin.
    + apply list_elem_of_fmap in Hin as (ref' & [= -> ->] & Hin). eauto.
  - intros (Hc & text & Hr & Hin). exists c. split; [|done].
    rewrite Hr. apply list_elem_of_fmap. eauto.
Qed.

Lemma uses_of_app rf key l1 l2 :
  uses_of rf key (l1 ++ l2) = uses_of rf key l1 ++ uses_of rf key l2.
Proof. unfold uses_of. by rewrite filter_app, fmap_app. Qed.

Lemma uses_of_file rf key c refs :
  uses_of rf key ((λ ref, (c, ref)) <$> refs) =
  replicate (length (filter (λ ref, resolve rf ref = Some key) refs)) c.
Proof.
  unfold uses_of. induction refs as [|ref refs IH]; [done|].
  cbn [fmap list_fmap]. rewrite !filter_cons. cbn [snd].
  case_decide; cbn; by rewrite IH.
Qed.

Lemma elem_of_uses_of rf key occs c :
  c ∈ uses_of rf key occs → ∃ ref, (c, ref) ∈ occs.
Proof.
  unfold uses_of.
  intros ([c' ref] & -> & Hin%list_elem_of_filter)%list_elem_of_fmap.
  exists ref. by destruct Hin.
Qed.

(** How often [x] occurs in [l]. *)
Lemma count_replicate (x y : list N) n :
  length (filter (λ z, z = x) (replicate n y)) =
  if decide (y = x) then n else 0%nat.
Proof.
  induction n as [|n IH]; cbn [replicate]; [by case_decide|].
  rewrite filter_cons. repeat case_decide; simplify_eq; cbn; by rewrite ?IH.
Qed.

Lemma count_not_elem_of (x : list N) l :
  x ∉ l → length (filter (λ z, z = x) l) = 0%nat.
Proof.
  induction l as [|y l IH]; [done|]. intros [? ?]%not_elem_of_cons.
  rewrite filter_cons, decide_False by done. auto.
Qed.

Lemma count_NoDup (x : list N) l :
  NoDup l → x ∈ l → length (filter (λ z, z = x) l) = 1%nat.
Proof.
  induction 1 as [|y l Hy Hl IH]; [by intros ?%elem_of_nil|].
  rewrite filter_cons. intros [->|Hx]%elem_of_cons.
  - rewrite decide_True by done. cbn. by rewrite count_not_elem_of.
  - rewrite decide_False by (intros ->; done). auto.
Qed.

(** C5: every reusable file the scan has discovered is a key of the usage
    map it returns; a reusable file that no occurrence resolves to (so, in
    particular, one that no reference matches) has the empty list, it is not
    left out. *)
Theorem find_usages_keeps_every_reusable_file
    fs (reusable_md content_md : list str) key :
  key ∈ reusable_md →
  let r := find_usages fs reusable_md content_md in
  is_Some (usages r !! key) ∧
  ((∀ c ref, (c, ref) ∈ occurrences fs content_md →
             resolve reusable_md ref ≠ Some key) →
   usages r !! key = Some []) ∧
  ((∀ c ref, (c, ref) ∈ occurrences fs content_md →
             key_matches key ref = false) →
   usages r !! key = Some []).
Proof.
  intros Hkey r. unfold r. rewrite find_usages_usages, decide_True by done.
  assert ((∀ c ref, (c, ref) ∈ occurrences fs content_md →
             resolve reusable_md ref ≠ Some key) →
          Some (uses_of reusable_md key (occurrences fs content_md)) = Some [])
    as Hzero.
  { intros Hno. f_equal. unfold uses_of.
    induction (occurrences fs content_md) as [|[c ref] occs IH]; [done|].
    rewrite filter_cons, decide_False by (apply (Hno c); set_solver).
    apply IH. intros c' ref' Hin. apply (Hno c'). set_solver. }
  split_and!; [done..|].
  intros Hno. apply Hzero. intros c ref Hin (b & a & _ & Hm & _)%resolve_Some.
  by rewrite (Hno c ref Hin) in Hm.
Qed.

(** C6: a reference is in the missing set exactly when it occurs in a
    readable content file and no known reusable file matches it; it is there
    as it was written, and however often it occurs, it is there once. *)
Theorem find_usages_missing_verbatim_once
    fs (reusable_md content_md : list str) ref :
  let r := find_usages fs reusable_md content_md in
  (ref ∈ missing r ↔
     (∃ c, (c, ref) ∈ occurrences fs content_md) ∧
     Forall (λ key, key_matches key ref = false) reusable_md) ∧
  NoDup (elements (missing r)) ∧
  (ref ∈ missing r →
   length (filter (λ x, x = ref) (elements (missing r))) = 1%nat).
Proof.
  intros r. unfold r. rewrite find_usages_missing. split_and!.
  - rewrite elem_of_list_to_set. unfold unresolved.
    rewrite list_elem_of_filter, resolve_None, list_elem_of_fmap. split.
    + intros [Hno ([c ref'] & -> & Hin)]. eauto.
    + intros [[c Hin] Hno]. split; [done|]. by exists (c, ref).
  - apply NoDup_elements.
  - intros Hin. apply count_NoDup; [apply NoDup_elements|].
    by apply elem_of_elements.
Qed.

(** C7: occurrences are counted, not content files. With the content
    files listed once each, the usage list of a reusable file holds the path
    of a content file as many times as that file has occurrences resolving
    to it. *)
Theorem find_usages_counts_every_occurrence
    fs (reusable_md content_md : list str) content_file text key :
  NoDup content_md → content_file ∈ content_md →
  read_text fs content_file = inr text →
  key ∈ reusable_md →
  ∃ l, usages (find_usages fs reusable_md content_md) !! key = Some l ∧
       length (filter (λ x, x = content_file) l) =
       length (filter (λ ref, resolve reusable_md ref = Some key)
                      (finditer text)).
Proof.
  intros Hnd Hc Hr Hkey. rewrite find_usages_usages, decide_True by done.
  eexists; split; [done|].
  induction Hnd as [|c l Hcl Hnd IH]; [by apply elem_of_nil in Hc|].
  rewrite occurrences_cons, uses_of_app, filter_app, length_app.
  apply elem_of_cons in Hc as [<-|Hc].
  - rewrite Hr, uses_of_file, count_replicate, decide_True by done.
    rewrite count_not_elem_of; [lia|].
    intros [ref [? _]%elem_of_occurrences]%elem_of_uses_of. done.
  - rewrite IH by done. destruct (read_text fs c) as [|text'].
    + done.
    + rewrite uses_of_file, count_replicate, decide_False; [done|].
      intros ->. done.
Qed.

(** C8: a content file that cannot be read costs one warning and nothing
    else: the usage map and the missing set are those of the scan of the
    other files, the ones after it included. *)
Theorem find_usages_skips_unreadable_file
    fs (reusable_md before after : list str) content_file exc :
  read_text fs content_file = inl exc →
  let r := find_usages fs reusable_md (before ++ content_file :: after) in
  let r' := find_usages fs reusable_md (before ++ after) in
  usages r = usages r' ∧ missing r = missing r' ∧
  stderr r = warnings fs before
             ++ WarnCouldNotRead content_file exc :: warnings fs after ∧
  stderr r' = warnings fs before ++ warnings fs after.
Proof.
  intros Hr r r'. unfold r, r'.
  assert (occurrences fs (before ++ content_file :: after)
          = occurrences fs (before ++ after)) as Hocc.
  { by rewrite !occurrences_app, occurrences_cons, Hr. }
  split_and!.
  - apply map_eq. intros k. by rewrite !find_usages_usages, Hocc.
  - by rewrite !find_usages_missing, Hocc.
  - rewrite find_usages_stderr, warnings_app. f_equal.
    unfold warnings. cbn [omap list_omap]. by rewrite Hr.
  - by rewrite find_usages_stderr, warnings_app.
Qed.

Lemma total_uses_insert (u : usage_map) key l :
  u !! key = None → total_uses (<[key := l]> u) = (length l + total_uses u)%nat.
Proof.
  intros Hk. unfold total_uses.
  rewrite map_fold_insert_L; [done| |done]. intros. lia.
Qed.

Lemma total_uses_append_use (u : usage_map) key x :
  total_uses (append_use u key x) = S (total_uses u).
Proof.
  unfold append_use. destruct (u !! key) as [l|] eqn:Hk; cbn [default].
  - rewrite <- (insert_delete_id u key l) at 2 by done.
    rewrite <- insert_delete_eq.
    rewrite !total_uses_insert by apply lookup_delete_eq.
    rewrite length_app. cbn. lia.
  - by rewrite total_uses_insert.
Qed.

Lemma total_uses_setdefault (u : usage_map) l :
  total_uses (foldl setdefault u l) = total_uses u.
Proof.
  revert u. induction l as [|k l IH]; intros u; cbn [foldl]; [done|].
  rewrite IH. unfold setdefault. destruct (u !! k) eqn:Hk; [done|].
  by rewrite total_uses_insert.
Qed.

Lemma total_uses_use_step (rf : list str) (u : usage_map) occs :
  total_uses (foldl (use_step rf) u occs) =
  (total_uses u + length (filter (λ o, is_Some (resolve rf o.2)) occs))%nat.
Proof.
  revert u. induction occs as [|[c ref] occs IH]; intros u; cbn [foldl].
  - cbn. lia.
  - rewrite IH, filter_cons. unfold use_step. cbn [fst snd].
    destruct (resolve rf ref) eqn:Hr.
    + rewrite total_uses_append_use, decide_True by done. cbn. lia.
    + rewrite decide_False by (by intros [? ?]). done.
Qed.

(** One round of the loop over the matches changes one of the two results
    and leaves the other as it was. *)
Lemma record_ref_cases (rf : list str) content_file st ref :
  let st' := record_ref rf content_file st ref in
  (∃ key, resolve rf ref = Some key ∧ key ∈ rf ∧
          usages st' !! key = Some (default [] (usages st !! key) ++ [content_file]) ∧
          (∀ k, k ≠ key → usages st' !! k = usages st !! k) ∧
          total_uses (usages st') = S (total_uses (usages st)) ∧
          missing st' = missing st) ∨
  (resolve rf ref = None ∧ usages st' = usages st ∧
   missing st' = {[ref]} ∪ missing st).
Proof.
  unfold record_ref. destruct (resolve rf ref) as [key|] eqn:Hr; [left|right].
  - exists key. cbn [usages missing]. split_and!; [done| |..|done].
    + by eapply resolve_elem_of.
    + by rewrite lookup_append_use, decide_True.
    + intros k Hk. by rewrite lookup_append_use, decide_False.
    + apply total_uses_append_use.
  - done.
Qed.

(** The scan as one round of the loop over the matches for each
    occurrence, in the order of the occurrences. *)
Lemma foldl_record_occurrence (rf : list str) st (occs : list (str * str)) :
  foldl (λ st o, record_ref rf o.1 st o.2) st occs =
  ScanState (foldl (use_step rf) (usages st) occs)
            (foldl (miss_step rf) (missing st) occs) (stderr st).
Proof.
  revert st. induction occs as [|[c ref] occs IH]; intros st; cbn [foldl].
  - by destruct st.
  - rewrite IH. unfold record_ref, use_step, miss_step. cbn [fst snd].
    by destruct (resolve rf ref).
Qed.

Lemma elem_of_missing fs (reusable_md content_md : list str) ref :
  ref ∈ missing (find_usages fs reusable_md content_md) ↔
  ∃ c, (c, ref) ∈ occurrences fs content_md ∧
       resolve reusable_md ref = None.
Proof.
  rewrite find_usages_missing, elem_of_list_to_set. unfold unresolved.
  rewrite list_elem_of_filter, list_elem_of_fmap. split.
  - intros (Hr & [c ref'] & -> & Hin). by exists c.
  - intros (c & Hin & Hr). split; [done|]. by exists (c, ref).
Qed.

(** C9: every occurrence in a readable content file is accounted for
    once. The scan is one round of the loop for each occurrence, in order,
    and a round does one of two things: it appends the content file to the
    list of the first candidate that matches the reference, and to no other
    list, and leaves the missing set as it is; or, when no candidate
    matches, it adds the reference to the missing set and leaves the usage
    map as it is. So the list of a reusable file is, entry for entry, the
    content files of the occurrences that resolve to it, the missing set
    holds the references of the others, and the usage map holds, all lists
    together, as many entries as there are occurrences that resolve. *)
Theorem find_usages_accounts_for_every_occurrence
    fs (reusable_md content_md : list str) :
  let r := find_usages fs reusable_md content_md in
  let occs := occurrences fs content_md in
  let rounds :=
    foldl (λ st o, record_ref reusable_md o.1 st o.2)
          (ScanState (foldl setdefault ∅ reusable_md) ∅ []) occs in
  (usages r = usages rounds ∧ missing r = missing rounds) ∧
  (∀ st c ref,
     let st' := record_ref reusable_md c st ref in
     (∃ key before after,
        reusable_md = before ++ key :: after ∧
        key_matches key ref = true ∧
        Forall (λ k, key_matches k ref = false) before ∧
        usages st' !! key = Some (default [] (usages st !! key) ++ [c]) ∧
        (∀ k, k ≠ key → usages st' !! k = usages st !! k) ∧
        missing st' = missing st) ∨
     (Forall (λ k, key_matches k ref = false) reusable_md ∧
      usages st' = usages st ∧
      missing st' = {[ref]} ∪ missing st)) ∧
  (∀ key, key ∈ reusable_md →
     usages r !! key =
     Some (filter (λ o, resolve reusable_md o.2 = Some key) occs).*1) ∧
  (∀ key, key ∉ reusable_md → usages r !! key = None) ∧
  (∀ ref, ref ∈ missing r ↔
          ∃ c, (c, ref) ∈ occs ∧ resolve reusable_md ref = None) ∧
  (∀ c ref, (c, ref) ∈ occs →
     (∃ key l, resolve reusable_md ref = Some key ∧
               usages r !! key = Some l ∧ c ∈ l ∧ ref ∉ missing r) ∨
     (resolve reusable_md ref = None ∧ ref ∈ missing r)) ∧
  total_uses (usages r) =
    length (filter (λ o, is_Some (resolve reusable_md o.2)) occs) ∧
  (total_uses (usages r)
   + length (filter (λ o, resolve reusable_md o.2 = None) occs))%nat
  = length occs.
Proof.
  intros r occs rounds. unfold r, rounds.
  assert (total_uses (usages (find_usages fs reusable_md content_md)) =
          length (filter (λ o, is_Some (resolve reusable_md o.2)) occs)) as Htot.
  { unfold find_usages. cbn zeta. rewrite foldl_scan_file. cbn [usages].
    rewrite total_uses_use_step, total_uses_setdefault. done. }
  split_and!; [| |..|done|].
  - rewrite foldl_record_occurrence. unfold find_usages. cbn zeta.
    by rewrite foldl_scan_file.
  - rewrite foldl_record_occurrence. unfold find_usages. cbn zeta.
    by rewrite foldl_scan_file.
  - intros st c ref.
    destruct (record_ref_cases reusable_md c st ref)
      as [(key & Hr & _ & Hkey & Hothers & _ & Hm)|(Hr & Hu & Hm)].
    + left. apply resolve_Some in Hr as (before & after & E & Hk & Hb).
      by exists key, before, after.
    + right. by apply resolve_None in Hr.
  - intros key Hkey. by rewrite find_usages_usages, decide_True.
  - intros key Hkey. by rewrite find_usages_usages, decide_False.
  - intros ref. apply elem_of_missing.
  - intros c ref Hin. destruct (resolve reusable_md ref) as [key|] eqn:Hr.
    + left. exists key, (uses_of reusable_md key occs). split_and!; [done|..].
      * rewrite find_usages_usages, decide_True; [done|].
        by eapply resolve_elem_of.
      * unfold uses_of. apply list_elem_of_fmap. exists (c, ref).
        split; [done|]. by apply list_elem_of_filter.
      * intros (_ & _ & Hm)%elem_of_missing. congruence.
    + right. split; [done|]. apply elem_of_missing. by exists c.
  - rewrite Htot. clear. induction occs as [|[c ref] l IH]; [done|].
    rewrite !filter_cons. cbn [snd length].
    destruct (resolve reusable_md ref) eqn:Hr.
    + rewrite decide_True, decide_False by done. cbn. lia.
    + rewrite decide_False, decide_True by (done || by intros [? ?]). cbn. lia.
Qed.

(** ** The resolution heuristic *)

Lemma key_matches_spec key ref : key_matches key ref = true ↔ matches key ref.
Proof.
  unfold key_matches, suffix_match, name_match, endswith, matches.
  rewrite !orb_true_iff, !bool_decide_eq_true. tauto.
Qed.

Lemma key_matches_false key ref : key_matches key ref = false ↔ ¬ matches key ref.
Proof. rewrite <- key_matches_spec. by destruct (key_matches key ref). Qed.

(** C1, as stated, fails: with a file [c.md] directly under the reusable
    root listed before [sub/c.md], the reference [sub/c.md] is resolved to
    the former by file name alone although the latter suffix-matches it. *)
Lemma name_match_precedes_later_suffix_match :
  ¬ name_match_is_last_resort [py "/t/r/c.md"; py "/t/r/sub/c.md"]
                              (py "sub/c.md").
Proof.
  intros H. specialize (H (py "/t/r/c.md") eq_refl eq_refl).
  apply Forall_cons_1 in H as [_ H]. apply Forall_cons_1 in H as [H _].
  vm_compute in H. discriminate.
Qed.

(** C1, amended: a reference resolves to the first key, in the order the
    keys are tried, that passes any of the three tests, and to nothing when
    no key passes any; a key that passes only the file-name test wins over
    every key after it. *)
Theorem resolve_first_match (reusable_files : list str) ref :
  (∀ key, resolve reusable_files ref = Some key ↔
          ∃ before after,
            reusable_files = before ++ key :: after ∧
            matches key ref ∧
            Forall (λ k, ¬ matches k ref) before) ∧
  (resolve reusable_files ref = None ↔
   Forall (λ k, ¬ matches k ref) reusable_files).
Proof.
  split.
  - intros key. rewrite resolve_Some.
    do 2 (apply exist_proper; intros ?).
    rewrite key_matches_spec.
    by setoid_rewrite key_matches_false.
  - rewrite resolve_None. by setoid_rewrite key_matches_false.
Qed.

(** ** The empty file parameter *)

Lemma match_at_open s : head s ≠ Some OPEN → match_at s = None.
Proof.
  destruct s as [|c s]; [done|]. intros Hc. unfold match_at.
  cbn [py list_ascii_of_string fmap list_fmap lit].
  rewrite decide_False; [done|]. intros <-. by apply Hc.
Qed.

Lemma omap_plain s : omap piece_ref (Plain <$> s) = [].
Proof. by induction s. Qed.

Lemma spaces_no_open ws : Forall is_space ws → Forall (λ c, c ≠ OPEN) ws.
Proof. intros H. eapply Forall_impl; [exact H|]. by intros c Hc ->. Qed.

Lemma match_at_empty_file w rest :
  empty_file_directive w → match_at (w ++ rest) = None.
Proof.
  intros [ws1 ws2 ws3 ws4 ws5 Hws1 Hws2 Hne2 Hws3 Hws4 Hws5].
  unfold match_at. rewrite <- !app_assoc.
  do 3 consume. cbn [mbind option_bind].
  rewrite (proj2 (spaces1_spec _ _)) by (by exists ws2).
  do 5 consume. cbn [mbind option_bind].
  unfold group1. cbn [app unquoted]. by rewrite decide_True.
Qed.

(** The shape of the two kinds of directive: where the opening braces and
    the quotes are. *)
Lemma spaces_no_quote ws : Forall is_space ws → Forall (λ c, c ≠ QUOTE) ws.
Proof. intros H. eapply Forall_impl; [exact H|]. by intros c Hc ->. Qed.

Ltac no_such_char :=
  repeat first
    [ apply Forall_app; split
    | by apply spaces_no_open
    | by apply spaces_no_quote
    | by (repeat constructor) ].

Lemma readfile_shortcode_shape m ref :
  readfile_shortcode m ref →
  ∃ a ws,
    m = OPEN :: OPEN :: a ++ QUOTE :: ref ++ QUOTE :: ws ++ py ">}}" ∧
    Forall (λ c, c ≠ OPEN) a ∧ Forall (λ c, c ≠ QUOTE) ref ∧
    Forall is_space ws.
Proof.
  intros [ws1 ws2 ws3 ws4 ws5 g Hws1 Hws2 Hne2 Hws3 Hws4 Hg Hgne Hws5].
  exists (60%N :: ws1 ++ py "readfile" ++ ws2 ++ py "file" ++ ws3
          ++ py "=" ++ ws4), ws5.
  split_and!; [| |done..].
  - cbn [app]. by rewrite <- !app_assoc.
  - constructor; [done|]. no_such_char.
Qed.

Lemma empty_file_directive_shape w :
  empty_file_directive w →
  ∃ b ws,
    w = OPEN :: OPEN :: b ++ QUOTE :: QUOTE :: ws ++ py ">}}" ∧
    Forall (λ c, c ≠ OPEN) b ∧ Forall (λ c, c ≠ QUOTE) b ∧
    Forall is_space ws.
Proof.
  intros [ws1 ws2 ws3 ws4 ws5 Hws1 Hws2 Hne2 Hws3 Hws4 Hws5].
  exists (60%N :: ws1 ++ py "readfile" ++ ws2 ++ py "file" ++ ws3
          ++ py "=" ++ ws4), ws5.
  split_and!; [| | |done].
  - cbn [app]. by rewrite <- !app_assoc.
  - constructor; [done|]. no_such_char.
  - constructor; [done|]. no_such_char.
Qed.

(** A match that begins before a directive with an empty file parameter
    ends before it. *)
Lemma match_ends_before_empty_file t w post m ref rest :
  t ≠ [] → empty_file_directive w → readfile_shortcode m ref →
  t ++ w ++ post = m ++ rest →
  ∃ l, t = m ++ l ∧ rest = l ++ w ++ post.
Proof.
  intros Ht Hw Hm E.
  apply app_eq_inv in E as [(l & -> & ->)|(l & Hml & Hl)]; [by eauto|].
  destruct l as [|x l'].
  { exists []. rewrite app_nil_r in *. by subst. }
  exfalso.
  apply empty_file_directive_shape in Hw as (b & ws' & -> & Hbo & Hbq & Hws').
  apply readfile_shortcode_shape in Hm as (a & ws & -> & Hao & Hrq & Hws).
  assert (Forall (λ c, c ≠ OPEN) (QUOTE :: ws ++ py ">}}")) as Htail.
  { constructor; [done|]. no_such_char. }
  cbn [app] in Hl. injection Hl as <- Hl.
  destruct t as [|c t']; [done|]. cbn [app] in Hml. injection Hml as <- Hml.
  destruct t' as [|c' t''].
  { (* the match starts one character before the directive *)
    cbn [app] in Hml. injection Hml as <-.
    destruct a as [|y a]; cbn [app] in Hl; [by injection Hl|].
    injection Hl as Hy _. by apply Forall_cons_1 in Hao as [? _]. }
  cbn [app] in Hml. injection Hml as <- Hml.
  apply app_eq_inv in Hml as [(k & Hk1 & Hk2)|(k & -> & Hk)].
  { (* the directive would start before the quote that opens the group *)
    destruct k as [|y k]; [cbn in Hk2; by injection Hk2|].
    cbn [app] in Hk2. injection Hk2 as Hy _. subst y. rewrite Hk1 in Hao.
    apply Forall_app in Hao as [_ Hao]. by apply Forall_cons_1 in Hao as [? _]. }
  destruct k as [|q k']; cbn [app] in Hk; [by injection Hk|].
  injection Hk as <- Hk.
  apply app_eq_inv in Hk as [(j & Hj1 & Hj2)|(j & -> & Hj)].
  - (* the directive would start inside the group *)
    destruct j as [|y j']; [cbn in Hj2; by injection Hj2|].
    cbn [app] in Hj2. injection Hj2 as Hy Hl'. subst y l'. rewrite Hj1 in Hrq.
    apply Forall_app in Hrq as [_ Hrq]. apply Forall_cons_1 in Hrq as [_ Hrq].
    pose proof (unquoted_app j' ((ws ++ py ">}}") ++ rest) Hrq) as U1.
    pose proof (unquoted_app (OPEN :: b)
                  (QUOTE :: (ws' ++ py ">}}") ++ post)) as U2.
    specialize (U2 ltac:(by constructor)).
    rewrite <- !app_assoc in Hl. cbn [app] in Hl, U1, U2.
    rewrite <- ?app_assoc in Hl. rewrite <- ?app_assoc in U1.
    rewrite <- ?app_assoc in U2.
    rewrite <- Hl, U2 in U1.
    injection U1 as _ U1.
    destruct Hws as [|s ws Hs _]; cbn [app] in U1; [by injection U1|].
    injection U1 as Hq _. by subst s.
  - (* the directive would start after the group *)
    assert (OPEN ∈ QUOTE :: ws ++ py ">}}") as Hin.
    { rewrite Hj. set_solver. }
    eapply Forall_forall in Htail; [|exact Hin]. done.
Qed.

Lemma match_at_before_empty_file t w post :
  t ≠ [] → empty_file_directive w →
  match_at (t ++ w ++ post) =
  (λ '(ref, rest), (ref, rest ++ w ++ post)) <$> match_at t.
Proof.
  intros Ht Hw. destruct (match_at t) as [[ref rest]|] eqn:Hm; cbn.
  - apply match_at_sound in Hm as (m & -> & Hm).
    rewrite <- app_assoc. by apply match_at_complete.
  - destruct (match_at (t ++ w ++ post)) as [[ref rest]|] eqn:Hm'; [|done].
    apply match_at_sound in Hm' as (m & E & Hmw).
    destruct (match_ends_before_empty_file _ _ _ _ _ _ Ht Hw Hmw E)
      as (l & -> & _).
    by rewrite (match_at_complete _ _ _ Hmw) in Hm.
Qed.

(** Text in front of [x] is scanned as it is scanned alone when no match
    that begins in it needs a character of [x]. *)
Lemma scan_app pre x n :
  (∀ t, t ≠ [] → t `suffix_of` pre →
        match_at (t ++ x) = (λ '(ref, rest), (ref, rest ++ x)) <$> match_at t) →
  (n ≤ length pre)%nat →
  scan n (pre ++ x) = scan n pre ++ scan 0 x.
Proof.
  revert n. induction pre as [|c pre IH]; intros n Hpre Hn.
  - by destruct n; [|cbn in Hn; lia].
  - assert (∀ t, t ≠ [] → t `suffix_of` pre →
              match_at (t ++ x)
              = (λ '(ref, rest), (ref, rest ++ x)) <$> match_at t) as Hpre'.
    { intros t Ht Hsuf. apply Hpre; [done|]. by apply suffix_cons_r. }
    destruct n as [|n]; cbn [app scan].
    + assert (match_at (c :: pre ++ x)
              = (λ '(ref, rest), (ref, rest ++ x)) <$> match_at (c :: pre))
        as -> by (by apply (Hpre (c :: pre))).
      destruct (match_at (c :: pre)) as [[ref rest]|] eqn:Hm;
        cbn [fmap option_fmap option_map].
      * destruct (match_at_take _ _ _ Hm) as (_ & _ & Hk).
        replace (length (c :: pre ++ x) - length (rest ++ x))%nat
          with (length (c :: pre) - length rest)%nat
          by (cbn [length]; rewrite !length_app; lia).
        destruct (length (c :: pre) - length rest)%nat as [|k]; [lia|].
        cbn [take pred app]. cbn [length] in Hk.
        rewrite take_app_le by lia. by rewrite IH by (done || lia).
      * by rewrite IH by (done || lia).
    + cbn in Hn. apply IH; [done | lia].
Qed.

Lemma scan_app_no_open s x :
  Forall (λ c, c ≠ OPEN) s → scan 0 (s ++ x) = (Plain <$> s) ++ scan 0 x.
Proof.
  induction 1 as [|c s Hc _ IH]; [done|]. cbn [app scan].
  rewrite match_at_open by (cbn; congruence). by rewrite IH.
Qed.

Lemma scan_empty_file w post :
  empty_file_directive w → scan 0 (w ++ post) = (Plain <$> w) ++ scan 0 post.
Proof.
  intros Hw. pose proof (match_at_empty_file w post Hw) as Hm.
  apply empty_file_directive_shape in Hw as (b & ws & -> & Hbo & _ & Hws).
  cbn [app scan] in *. rewrite Hm.
  assert (match_at (OPEN :: (b ++ QUOTE :: QUOTE :: ws ++ py ">}}") ++ post)
          = None) as ->.
  { unfold match_at. cbn [py list_ascii_of_string fmap list_fmap lit].
    rewrite decide_True by done.
    destruct b as [|y b]; cbn [app]; [by rewrite decide_False|].
    apply Forall_cons_1 in Hbo as [Hy _]. by rewrite decide_False. }
  rewrite scan_app_no_open; [done|].
  apply Forall_app. split; [done|]. repeat constructor; try done.
  no_such_char.
Qed.

(** In any text, a directive with an empty file parameter is scanned as
    plain text, and the matches before and after it are the matches of the
    text before and of the text after. *)
Lemma finditer_around_empty_file pre w post :
  empty_file_directive w →
  scan 0 (pre ++ w ++ post) = scan 0 pre ++ (Plain <$> w) ++ scan 0 post ∧
  finditer (pre ++ w ++ post) = finditer pre ++ finditer post.
Proof.
  intros Hw.
  assert (scan 0 (pre ++ w ++ post)
          = scan 0 pre ++ (Plain <$> w) ++ scan 0 post) as Hscan.
  { rewrite scan_app; [by rewrite scan_empty_file| |lia].
    intros t Ht _. by apply match_at_before_empty_file. }
  split; [done|]. unfold finditer.
  by rewrite Hscan, !omap_app, omap_plain.
Qed.

(** C10: the pattern does not match a directive written with an empty
    file parameter, whatever follows it; in any text the scan passes over
    such a directive as plain text and finds the matches it finds in the
    text before it and in the text after it; so the scan takes nothing from
    it: no occurrence, hence no usage entry and no missing entry. *)
Theorem empty_file_parameter_not_recognised w :
  empty_file_directive w →
  (∀ rest, match_at (w ++ rest) = None) ∧
  (∀ pre post, finditer (pre ++ w ++ post) = finditer pre ++ finditer post) ∧
  finditer w = [] ∧
  (∀ fs reusable_files st content_file,
     read_text fs content_file = inr w →
     scan_file fs reusable_files st content_file = st) ∧
  (∀ fs content_md content_file ref,
     read_text fs content_file = inr w →
     (content_file, ref) ∉ occurrences fs content_md).
Proof.
  intros Hw.
  assert (finditer w = []) as Hfind.
  { destruct (finditer_around_empty_file [] w [] Hw) as [_ H].
    by rewrite app_nil_l, app_nil_r in H. }
  split_and!.
  - intros rest. by apply match_at_empty_file.
  - intros pre post. by apply finditer_around_empty_file.
  - done.
  - intros fs rf st c Hr. unfold scan_file. by rewrite Hr, Hfind.
  - intros fs cm c ref Hr (_ & text & Hr' & Hin)%elem_of_occurrences.
    rewrite Hr in Hr'. injection Hr' as <-. rewrite Hfind in Hin.
    by apply elem_of_nil in Hin.
Qed.

(** ** Substitution *)

Lemma rstrip_nl_spec s :
  ∃ n, s = rstrip_nl s ++ replicate n NL ∧ last (rstrip_nl s) ≠ Some NL.
Proof.
  induction s as [|c s (n & Hs & Hlast)]; cbn [rstrip_nl].
  - by exists 0%nat.
  - destruct (rstrip_nl s) as [|d r] eqn:Hr.
    + case_decide as Hc.
      * exists (S n). subst c. cbn in *. by rewrite <- Hs.
      * exists n. cbn in *. split; [by rewrite <- Hs | congruence].
    + exists n. split; [by rewrite Hs at 1 | done].
Qed.

Lemma foldl_sub_step_replacer key reusable_text ps out replaced :
  foldl (sub_step (replacer key reusable_text)) (out, replaced) ps =
  (out ++ concat (inlined key reusable_text <$> ps),
   replaced || existsb (key_matches key) (omap piece_ref ps)).
Proof.
  revert out replaced. induction ps as [|p ps IH]; intros out replaced.
  - cbn. by rewrite app_nil_r, orb_false_r.
  - cbn [foldl fmap list_fmap concat omap list_omap]. destruct p as [c|w ref].
    + cbn [sub_step]. rewrite IH. cbn [piece_ref inlined]. by rewrite <- app_assoc.
    + cbn [sub_step piece_ref inlined existsb]. unfold replacer.
      destruct (key_matches key ref); rewrite IH, <- app_assoc; [|done].
      by rewrite orb_true_r.
Qed.

Lemma sub_replacer key reusable_text text replaced :
  sub (replacer key reusable_text) text replaced =
  (concat (inlined key reusable_text <$> scan 0 text),
   replaced || existsb (key_matches key) (finditer text)).
Proof. unfold sub. by rewrite foldl_sub_step_replacer. Qed.

Lemma existsb_key_matches key refs :
  existsb (key_matches key) refs = false ↔
  Forall (λ ref, key_matches key ref = false) refs.
Proof.
  induction refs as [|ref refs IH]; cbn [existsb]; [done|].
  rewrite Forall_cons, orb_false_iff, IH. done.
Qed.

(** ** The file system operations *)

Lemma read_text_Some (fs : filesystem) p text :
  read_text fs p = inr text ↔ ∃ f, fs !! p = Some f ∧ read f = inr text.
Proof.
  unfold read_text. destruct (fs !! p) as [f|]; [|naive_solver].
  split; [eauto|]. by intros (? & [= <-] & ?).
Qed.

Lemma write_text_lookup (fs fs' : filesystem) p text q :
  write_text fs p text = inr fs' → q ≠ p → fs' !! q = fs !! q.
Proof.
  unfold write_text. intros H Hq.
  destruct (fs !! p) as [f|]; [destruct (may_write f)|]; simplify_eq;
    by rewrite lookup_insert_ne.
Qed.

Lemma write_text_read (fs fs' : filesystem) p text :
  write_text fs p text = inr fs' → read_text fs' p = inr text.
Proof.
  unfold write_text, read_text. intros H.
  destruct (fs !! p) as [f|]; [destruct (may_write f)|]; simplify_eq;
    by rewrite lookup_insert_eq.
Qed.

Lemma unlink_lookup (fs fs' : filesystem) p q :
  unlink fs p = inr fs' → fs' !! q = if decide (p = q) then None else fs !! q.
Proof.
  unfold unlink. intros H.
  destruct (fs !! p) as [f|]; [destruct (may_unlink f)|]; simplify_eq.
  apply lookup_delete.
Qed.

(** ** One candidate of [inline_singles] *)

(** A candidate whose content file has no occurrence matching it is left
    as it is, whichever of the guards stops it. *)
Lemma inline_one_no_match fs out key content_file rest content_text :
  read_text fs content_file = inr content_text →
  Forall (λ ref, key_matches key ref = false) (finditer content_text) →
  ∃ l, inline_one (fs, out) (key, content_file :: rest) = (fs, out ++ [l]) ∧
       skipped l ∧
       ((∃ reusable_text, read_text fs key = inr reusable_text) →
        l = InlineSkipNoShortcode content_file).
Proof.
  intros Hc Hno. unfold inline_one.
  destruct (exists_ fs key) eqn:He; cbn [negb].
  - destruct (read_text fs key) as [exc|reusable_text] eqn:Hk.
    + eexists. split_and!; [done..|]. by intros [? [=]].
    + rewrite Hc, sub_replacer. cbn [orb].
      apply existsb_key_matches in Hno as ->. cbn [negb].
      by eexists.
  - eexists. split_and!; [done..|].
    intros [t (f & Hf & _)%read_text_Some].
    unfold exists_ in He. rewrite Hf in He.
    by rewrite bool_decide_eq_true_2 in He.
Qed.

(** Whatever happens to a candidate, only its own file and its content file
    can change. *)
Lemma inline_one_frame fs out key content_file rest p :
  p ≠ key → p ≠ content_file →
  (inline_one (fs, out) (key, content_file :: rest)).1 !! p = fs !! p.
Proof.
  intros Hk Hc. unfold inline_one.
  destruct (negb (exists_ fs key)); [done|].
  destruct (read_text fs key) as [|reusable_text]; [done|].
  destruct (read_text fs content_file) as [|content_text]; [done|].
  destruct (sub _ _ _) as [new_content replaced].
  destruct (negb replaced); [done|].
  destruct (write_text fs content_file new_content) as [|fs1] eqn:Hw; [done|].
  destruct (unlink fs1 key) as [|fs2] eqn:Hu; cbn [fst].
  - by eapply write_text_lookup.
  - erewrite unlink_lookup by done. rewrite decide_False by done.
    by eapply write_text_lookup.
Qed.

Lemma foldl_inline_one_frame st (items : list (str * list str)) p :
  Forall (λ item, p ≠ item.1 ∧ head item.2 ≠ Some p) items →
  (foldl inline_one st items).1 !! p = st.1 !! p.
Proof.
  revert st. induction items as [|[key locs] items IH]; intros [fs out]; [done|].
  intros [[Hk Hc] Hitems]%Forall_cons_1. cbn [foldl]. rewrite IH by done.
  cbn [fst snd] in *. destruct locs as [|c rest]; [done|].
  apply inline_one_frame; [done|]. cbn in Hc. congruence.
Qed.

(** ** One key of [delete_unused] *)

Lemma delete_one_lookup fs out key p :
  (delete_one (fs, out) key).1 !! p =
  if decide (p = key)
  then match fs !! key with
       | Some f => if may_unlink f then None else Some f
       | None => None
       end
  else fs !! p.
Proof.
  unfold delete_one, exists_, unlink.
  destruct (fs !! key) as [f|] eqn:Hf.
  - rewrite bool_decide_eq_true_2 by done. cbn [negb].
    destruct (may_unlink f); cbn [fst].
    + rewrite lookup_delete. repeat case_decide; congruence.
    + case_decide; congruence.
  - rewrite bool_decide_eq_false_2 by (by intros [? ?]). cbn [negb fst].
    case_decide; congruence.
Qed.

Lemma foldl_delete_one_frame st keys p :
  p ∉ keys → (foldl delete_one st keys).1 !! p = st.1 !! p.
Proof.
  revert st. induction keys as [|key keys IH]; intros [fs out]; [done|].
  intros [Hk Hkeys]%not_elem_of_cons. cbn [foldl]. rewrite IH by done.
  rewrite delete_one_lookup. by rewrite decide_False.
Qed.

Lemma foldl_delete_one_absent st keys p :
  st.1 !! p = None → (foldl delete_one st keys).1 !! p = None.
Proof.
  revert st. induction keys as [|key keys IH]; intros [fs out] Hp; [done|].
  cbn [foldl]. apply IH. rewrite delete_one_lookup. cbn [fst] in Hp.
  case_decide; [subst; by rewrite Hp | done].
Qed.

Lemma foldl_delete_one_removes st keys key :
  key ∈ keys →
  match st.1 !! key with Some f => may_unlink f = true | None => True end →
  (foldl delete_one st keys).1 !! key = None.
Proof.
  revert st. induction keys as [|k keys IH]; intros [fs out];
    [by intros ?%elem_of_nil|].
  cbn [foldl fst]. intros Hin Hf. destruct (decide (k = key)) as [->|Hne].
  - apply foldl_delete_one_absent. rewrite delete_one_lookup, decide_True by done.
    destruct (fs !! key) as [f|]; [by rewrite Hf | done].
  - apply IH; [set_solver|]. rewrite delete_one_lookup, decide_False by done.
    done.
Qed.

(** ** The candidates *)

Lemma elem_of_singles (u : usage_map) key locs :
  (key, locs) ∈ singles u ↔ u !! key = Some locs ∧ length locs = 1%nat.
Proof.
  unfold singles. rewrite merge_sort_Permutation, list_elem_of_filter.
  rewrite elem_of_map_to_list. cbn. tauto.
Qed.

Lemma elem_of_unused (u : usage_map) key :
  key ∈ unused u ↔ u !! key = Some [].
Proof.
  unfold unused. rewrite merge_sort_Permutation, list_elem_of_fmap. split.
  - intros ([k locs] & -> & [Hl Hin]%list_elem_of_filter).
    apply elem_of_map_to_list in Hin. cbn in *. by destruct locs.
  - intros Hk. exists (key, []). split; [done|].
    apply list_elem_of_filter. split; [done|]. by apply elem_of_map_to_list.
Qed.

(** ** The order of [sorted] *)

Lemma str_leb_refl a : str_leb a a = true.
Proof.
  induction a as [|x a IH]; [done|]. cbn [str_leb].
  by rewrite N.ltb_irrefl.
Qed.

Lemma str_leb_total a b : str_leb a b = true ∨ str_leb b a = true.
Proof.
  revert b. induction a as [|x a IH]; intros [|y b]; cbn [str_leb]; auto.
  destruct (N.ltb_spec x y), (N.ltb_spec y x); auto.
Qed.

Lemma str_leb_trans a b c :
  str_leb a b = true → str_leb b c = true → str_leb a c = true.
Proof.
  revert b c. induction a as [|x a IH]; intros [|y b] [|z c]; cbn [str_leb];
    try done.
  destruct (N.ltb_spec x y), (N.ltb_spec y x), (N.ltb_spec y z),
    (N.ltb_spec z y), (N.ltb_spec x z), (N.ltb_spec z x);
    try done; try lia; eauto.
Qed.

Lemma str_leb_antisym a b : str_leb a b = true → str_leb b a = true → a = b.
Proof.
  revert b. induction a as [|x a IH]; intros [|y b]; cbn [str_leb]; try done.
  destruct (N.ltb_spec x y), (N.ltb_spec y x); try done; try lia.
  intros ? ?. f_equal; [lia | auto].
Qed.

#[local] Instance str_le_total : Total str_le.
Proof.
  intros a b. unfold str_le.
  destruct (str_leb_total a b) as [->| ->]; [by left | by right].
Qed.

#[local] Instance str_le_trans : Transitive str_le.
Proof.
  intros a b c. unfold str_le. intros Hab%Is_true_true Hbc%Is_true_true.
  apply Is_true_true. by eapply str_leb_trans.
Qed.

#[local] Instance item_le_total : Total item_le.
Proof. intros a b. apply (str_le_total a.1 b.1). Qed.

#[local] Instance item_le_trans : Transitive item_le.
Proof. intros a b c. apply (str_le_trans a.1 b.1 c.1). Qed.

(** Both mutations go through their keys in ascending order. *)
Lemma unused_sorted (u : usage_map) : StronglySorted str_le (unused u).
Proof. apply StronglySorted_merge_sort; apply _. Qed.

Lemma singles_sorted (u : usage_map) : StronglySorted item_le (singles u).
Proof. apply StronglySorted_merge_sort; apply _. Qed.

(** ** Claims about the two mutations *)

Lemma inline_one_reports st key content_file rest :
  ∃ l, (inline_one st (key, content_file :: rest)).2 = st.2 ++ [l].
Proof.
  destruct st as [fs out]. unfold inline_one.
  repeat match goal with
         | |- context [match ?x with _ => _ end] => destruct x
         | |- context [let '(_, _) := ?x in _] => destruct x
         end; cbn [snd]; by eexists.
Qed.

Lemma foldl_inline_one_reports st (items : list (str * list str)) :
  Forall (λ item, item.2 ≠ []) items →
  length (foldl inline_one st items).2 = (length st.2 + length items)%nat.
Proof.
  revert st. induction items as [|[key locs] items IH]; intros st.
  - cbn. lia.
  - intros [Hne Hitems]%Forall_cons_1. cbn [foldl]. rewrite IH by done.
    destruct locs as [|c rest]; [done|].
    destruct (inline_one_reports st key c rest) as [l ->].
    rewrite length_app. cbn. lia.
Qed.

Lemma foldl_delete_one_reports st keys :
  length (foldl delete_one st keys).2 = (length st.2 + length keys)%nat.
Proof.
  revert st. induction keys as [|key keys IH]; intros [fs out].
  - cbn. lia.
  - cbn [foldl]. rewrite IH. unfold delete_one.
    destruct (negb _); [|destruct (unlink fs key)]; cbn [snd];
      rewrite length_app; cbn; lia.
Qed.

Lemma exists_Some (fs : filesystem) p f : fs !! p = Some f → exists_ fs p = true.
Proof. intros H. unfold exists_. by rewrite bool_decide_eq_true_2 by eauto. Qed.

Lemma exists_None (fs : filesystem) p : fs !! p = None → exists_ fs p = false.
Proof.
  intros H. unfold exists_. rewrite bool_decide_eq_false_2; [done|].
  rewrite H. by intros [? ?].
Qed.

(** The candidate up to the point where it writes. *)
Lemma inline_one_writes fs out key c rest fk fc reusable_text content_text :
  fs !! key = Some fk → read fk = inr reusable_text →
  fs !! c = Some fc → read fc = inr content_text →
  existsb (key_matches key) (finditer content_text) = true →
  inline_one (fs, out) (key, c :: rest) =
  match write_text fs c (inlined_text key reusable_text content_text) with
  | inl exc => (fs, out ++ [InlineErrorFileOp exc])
  | inr fs1 =>
      match unlink fs1 key with
      | inl exc => (fs1, out ++ [InlineErrorFileOp exc])
      | inr fs2 => (fs2, out ++ [InlineOk key c])
      end
  end.
Proof.
  intros Hk Hrk Hc Hrc Hex. unfold inline_one, read_text.
  rewrite (exists_Some _ _ _ Hk), Hk, Hrk, Hc, Hrc. cbn [negb].
  by rewrite sub_replacer, Hex.
Qed.

Lemma inline_one_ok fs out key c rest fk fc reusable_text content_text :
  fs !! key = Some fk → read fk = inr reusable_text →
  fs !! c = Some fc → read fc = inr content_text →
  existsb (key_matches key) (finditer content_text) = true →
  may_write fc = true → may_unlink fk = true →
  inline_one (fs, out) (key, c :: rest) =
  (delete key
     (<[c := rewritten fc (inlined_text key reusable_text content_text)]> fs),
   out ++ [InlineOk key c]).
Proof.
  intros Hk Hrk Hc Hrc Hex Hw Hu.
  rewrite (inline_one_writes _ _ _ _ _ _ _ _ _ Hk Hrk Hc Hrc Hex).
  unfold write_text, unlink. rewrite Hc, Hw.
  destruct (decide (c = key)) as [->|Hne].
  - rewrite lookup_insert_eq. cbn [may_unlink rewritten].
    rewrite Hk in Hc. injection Hc as <-. rewrite Hu.
    unfold rewritten. by rewrite ?Hw, ?Hu.
  - rewrite lookup_insert_ne, Hk, Hu by done.
    unfold rewritten. by rewrite ?Hw, ?Hu.
Qed.

Lemma inline_singles_unfold (u : usage_map) fs :
  singles u ≠ [] →
  inline_singles u fs =
  foldl inline_one (fs, [InlineHeader (length (singles u))]) (singles u).
Proof. unfold inline_singles. by destruct (singles u). Qed.

Lemma singles_NoDup (u : usage_map) : NoDup (singles u).*1.
Proof.
  unfold singles. rewrite merge_sort_Permutation.
  eapply NoDup_fmap_fst.
  - intros k l1 l2 [_ H1%elem_of_map_to_list]%list_elem_of_filter
      [_ H2%elem_of_map_to_list]%list_elem_of_filter. congruence.
  - apply NoDup_filter, NoDup_map_to_list.
Qed.

(** The loop only adds lines. *)
Lemma foldl_inline_one_output st (items : list (str * list str)) :
  Forall (λ item, item.2 ≠ []) items →
  ∃ l, (foldl inline_one st items).2 = st.2 ++ l.
Proof.
  revert st. induction items as [|[key locs] items IH]; intros st.
  - intros _. exists []. cbn. by rewrite app_nil_r.
  - intros [Hne Hitems]%Forall_cons_1. cbn [foldl].
    destruct (IH (inline_one st (key, locs)) Hitems) as [l ->].
    destruct locs as [|c rest]; [done|].
    destruct (inline_one_reports st key c rest) as [l' ->].
    exists (l' :: l). by rewrite <- app_assoc.
Qed.

(** Every key with one location has its turn, once: the loop runs the
    candidates before it, then the key, then the candidates after it. *)
Lemma inline_singles_turn (u : usage_map) fs key c :
  u !! key = Some [c] →
  ∃ before after,
    singles u = before ++ (key, [c]) :: after ∧
    inline_singles u fs =
    foldl inline_one
      (inline_one
         (foldl inline_one (fs, [InlineHeader (length (singles u))]) before)
         (key, [c]))
      after.
Proof.
  intros Hkey.
  assert ((key, [c]) ∈ singles u) as Hin by (by apply elem_of_singles).
  apply list_elem_of_split in Hin as (before & after & Hs).
  exists before, after. split; [done|].
  rewrite inline_singles_unfold by (rewrite Hs; by destruct before).
  rewrite Hs at 2. by rewrite foldl_app.
Qed.

(** A key with one location whose two files no other candidate touches:
    when the files can be read, the content file holds a matching
    directive and the system lets the one be written and the other be
    removed, the reusable file is gone at the end and the content file
    holds the substituted text. *)
Lemma inline_singles_inlines
    (u : usage_map) fs key c fk fc reusable_text content_text :
  u !! key = Some [c] →
  (∀ k, u !! k ≠ Some [key]) →
  (∀ loc, u !! c ≠ Some [loc]) →
  (∀ k, u !! k = Some [c] → k = key) →
  fs !! key = Some fk → read fk = inr reusable_text →
  fs !! c = Some fc → read fc = inr content_text →
  existsb (key_matches key) (finditer content_text) = true →
  may_write fc = true → may_unlink fk = true →
  (inline_singles u fs).1 !! key = None ∧
  (inline_singles u fs).1 !! c =
    Some (rewritten fc (inlined_text key reusable_text content_text)) ∧
  InlineOk key c ∈ (inline_singles u fs).2.
Proof.
  intros Hkey Hnoloc Hnokey Honly Hk Hrk Hc Hrc Hex Hw Hul.
  assert (c ≠ key) as Hne by (intros ->; by eapply Hnoloc).
  destruct (inline_singles_turn u fs key c Hkey)
    as (before & after & Hs & ->).
  pose proof (singles_NoDup u) as Hnd. rewrite Hs in Hnd.
  rewrite fmap_app, fmap_cons in Hnd. cbn [fst] in Hnd.
  apply NoDup_app in Hnd as (_ & Hbefore & [Hafter _]%NoDup_cons).
  assert (∀ item, item ∈ before ∨ item ∈ after →
            (key ≠ item.1 ∧ head item.2 ≠ Some key) ∧
            (c ≠ item.1 ∧ head item.2 ≠ Some c)) as Hother.
  { intros [k locs] Hitem.
    assert ((k, locs) ∈ singles u ∧ k ≠ key) as [Hin Hk'].
    { rewrite Hs. split; [set_solver|]. intros ->.
      destruct Hitem as [Hitem|Hitem].
      - apply (Hbefore key); [|set_solver].
        apply list_elem_of_fmap. by exists (key, locs).
      - apply Hafter. apply list_elem_of_fmap. by exists (key, locs). }
    apply elem_of_singles in Hin as [Hu Hlen].
    destruct locs as [|loc [|]]; try done. cbn [fst snd head].
    split_and!; [done| |intros ->; by eapply Hnokey|].
    - intros [= ->]. by eapply Hnoloc.
    - intros [= ->]. by apply Hk', Honly. }
  set (st := foldl inline_one (fs, [InlineHeader (length (singles u))]) before).
  assert (st.1 !! key = Some fk ∧ st.1 !! c = Some fc) as [Hk' Hc'].
  { unfold st. rewrite !foldl_inline_one_frame; [done|..];
      apply Forall_forall; intros item Hitem; apply Hother; by left. }
  assert (inline_one st (key, [c]) =
          (delete key
             (<[c := rewritten fc
                       (inlined_text key reusable_text content_text)]> st.1),
           st.2 ++ [InlineOk key c])) as ->.
  { rewrite (surjective_pairing st) at 1. by eapply inline_one_ok. }
  split_and!.
  - rewrite foldl_inline_one_frame.
    + cbn [fst]. apply lookup_delete_eq.
    + apply Forall_forall. intros item Hitem. apply Hother. by right.
  - rewrite foldl_inline_one_frame.
    + cbn [fst]. by rewrite lookup_delete_ne, lookup_insert_eq.
    + apply Forall_forall. intros item Hitem. apply Hother. by right.
  - edestruct (foldl_inline_one_output
                 (delete key
                    (<[c := rewritten fc
                       (inlined_text key reusable_text content_text)]> st.1),
                  st.2 ++ [InlineOk key c]) after) as [l ->].
    + apply Forall_forall. intros [k locs] Hitem.
      assert ((k, locs) ∈ singles u) as Hin by (rewrite Hs; set_solver).
      apply elem_of_singles in Hin as [_ Hlen]. by destruct locs.
    + cbn [snd]. set_solver.
Qed.

(** C2: the Pruner goes through the keys whose list is empty, each once;
    it removes the file of every such key that is absent already or that the
    system lets it remove, and every other path is as it was. The Inliner goes
    through the keys whose list has one element, each once and with one
    report each; a path that is neither such a key nor the content file of
    such a key is as it was. Every such key has its turn in the loop, and
    its turn, when the files can be read, the content file holds a matching
    directive and the system lets the one be written and the other be
    removed, rewrites the content file and removes the reusable file; when
    no other candidate touches the two files, that is how they are at the
    end. *)
Theorem mutations_select_by_use_count (u : usage_map) (fs : filesystem) :
  let after_prune := (delete_unused u fs).1 in
  let after_inline := (inline_singles u fs).1 in
  ((∀ key, key ∈ unused u ↔ u !! key = Some []) ∧
   NoDup (unused u) ∧
   length (delete_unused u fs).2 = S (length (unused u)) ∧
   (∀ key, u !! key = Some [] →
           match fs !! key with
           | Some f => may_unlink f = true
           | None => True
           end →
           after_prune !! key = None) ∧
   (∀ p, u !! p ≠ Some [] → after_prune !! p = fs !! p)) ∧
  ((∀ key locs, (key, locs) ∈ singles u ↔
                u !! key = Some locs ∧ length locs = 1%nat) ∧
   NoDup (singles u).*1 ∧
   length (inline_singles u fs).2 = S (length (singles u)) ∧
   (∀ p, (∀ c, u !! p ≠ Some [c]) → (∀ key, u !! key ≠ Some [p]) →
         after_inline !! p = fs !! p) ∧
   (∀ key c, u !! key = Some [c] →
      ∃ before after,
        singles u = before ++ (key, [c]) :: after ∧
        inline_singles u fs =
        foldl inline_one
          (inline_one
             (foldl inline_one
                (fs, [InlineHeader (length (singles u))]) before)
             (key, [c]))
          after) ∧
   (∀ st key c fk fc reusable_text content_text,
      st.1 !! key = Some fk → read fk = inr reusable_text →
      st.1 !! c = Some fc → read fc = inr content_text →
      existsb (key_matches key) (finditer content_text) = true →
      may_write fc = true → may_unlink fk = true →
      inline_one st (key, [c]) =
      (delete key
         (<[c := rewritten fc
                   (inlined_text key reusable_text content_text)]> st.1),
       st.2 ++ [InlineOk key c])) ∧
   (∀ key c fk fc reusable_text content_text,
      u !! key = Some [c] →
      (∀ k, u !! k ≠ Some [key]) →
      (∀ loc, u !! c ≠ Some [loc]) →
      (∀ k, u !! k = Some [c] → k = key) →
      fs !! key = Some fk → read fk = inr reusable_text →
      fs !! c = Some fc → read fc = inr content_text →
      existsb (key_matches key) (finditer content_text) = true →
      may_write fc = true → may_unlink fk = true →
      after_inline !! key = None ∧
      after_inline !! c =
        Some (rewritten fc (inlined_text key reusable_text content_text)) ∧
      InlineOk key c ∈ (inline_singles u fs).2)).
Proof.
  intros after_prune after_inline. split; split_and!.
  - apply elem_of_unused.
  - unfold unused. rewrite merge_sort_Permutation.
    eapply NoDup_fmap_fst.
    + intros k l1 l2 [_ H1%elem_of_map_to_list]%list_elem_of_filter
        [_ H2%elem_of_map_to_list]%list_elem_of_filter. congruence.
    + apply NoDup_filter, NoDup_map_to_list.
  - unfold delete_unused. destruct (unused u) as [|k keys] eqn:Hu; [done|].
    rewrite foldl_delete_one_reports. done.
  - intros key Hkey Hf. unfold after_prune, delete_unused.
    apply elem_of_unused in Hkey.
    destruct (unused u) as [|k keys] eqn:Hu; [by apply elem_of_nil in Hkey|].
    by apply foldl_delete_one_removes.
  - intros p Hp. unfold after_prune, delete_unused.
    destruct (unused u) as [|k keys] eqn:Hu; [done|].
    rewrite foldl_delete_one_frame; [done|].
    rewrite <- Hu. by rewrite elem_of_unused.
  - apply elem_of_singles.
  - apply singles_NoDup.
  - unfold inline_singles. destruct (singles u) as [|i items] eqn:Hu; [done|].
    rewrite foldl_inline_one_reports; [done|].
    rewrite <- Hu. apply Forall_forall. intros [key locs] [_ Hl]%elem_of_singles.
    by destruct locs.
  - intros p Hkey Hloc. unfold after_inline, inline_singles.
    destruct (singles u) as [|i items] eqn:Hu; [done|].
    rewrite foldl_inline_one_frame; [done|].
    rewrite <- Hu. apply Forall_forall.
    intros [key locs] [Hk Hl]%elem_of_singles.
    destruct locs as [|c [|]]; try done. cbn [fst snd head].
    split; [intros <-; by eapply Hkey | intros [= <-]; by eapply Hloc].
  - intros key c. apply inline_singles_turn.
  - intros st key c fk fc reusable_text content_text Hk Hrk Hc Hrc Hex Hw Hul.
    rewrite (surjective_pairing st) at 1. by eapply inline_one_ok.
  - intros key c fk fc reusable_text content_text.
    apply inline_singles_inlines.
Qed.

(** C3: when a candidate is inlined, the content file is rewritten with
    every occurrence that matches the candidate replaced by the text of the
    reusable file without its trailing newlines, and with everything else,
    the occurrences that do not match included, kept as it stood. *)
Theorem inline_one_substitutes_every_match
    fs out key content_file rest reusable_text content_text f :
  read_text fs key = inr reusable_text →
  fs !! content_file = Some f →
  read f = inr content_text →
  may_write f = true →
  content_file ≠ key →
  existsb (key_matches key) (finditer content_text) = true →
  let fs' := (inline_one (fs, out) (key, content_file :: rest)).1 in
  let pieces := scan 0 content_text in
  concat (piece_text <$> pieces) = content_text ∧
  (∀ w ref, Shortcode w ref ∈ pieces → readfile_shortcode w ref) ∧
  read_text fs' content_file =
    inr (concat (inlined key reusable_text <$> pieces)) ∧
  (∃ n, reusable_text = rstrip_nl reusable_text ++ replicate n NL ∧
        last (rstrip_nl reusable_text) ≠ Some NL).
Proof.
  intros Hk Hf Hread Hw Hne Hex fs' pieces. split_and!.
  - apply scan_0_text.
  - intros w ref. apply scan_shortcode.
  - unfold fs', inline_one.
    pose proof Hk as (fk & Hfk & _)%read_text_Some.
    unfold exists_. rewrite bool_decide_eq_true_2 by (by rewrite Hfk).
    cbn [negb]. rewrite Hk.
    assert (read_text fs content_file = inr content_text) as ->.
    { apply read_text_Some. eauto. }
    rewrite sub_replacer, Hex. cbn [orb negb].
    destruct (write_text fs content_file _) as [|fs1] eqn:Hwr.
    { unfold write_text in Hwr. by rewrite Hf, Hw in Hwr. }
    pose proof (write_text_read _ _ _ _ Hwr) as Hr1.
    destruct (unlink fs1 key) as [|fs2] eqn:Hu; cbn [fst]; [done|].
    unfold read_text in *. erewrite unlink_lookup by done.
    by rewrite decide_False.
  - apply rstrip_nl_spec.
Qed.

(** C4: a candidate whose content file holds no occurrence that matches
    it is skipped: nothing is written, nothing is removed, one report says
    so, and the candidates after it are processed from the same file
    system. *)
Theorem inline_singles_skips_unlocated
    (u : usage_map) fs before key content_file after content_text :
  singles u = before ++ (key, [content_file]) :: after →
  let st := foldl inline_one (fs, [InlineHeader (length (singles u))]) before in
  read_text st.1 content_file = inr content_text →
  Forall (λ ref, key_matches key ref = false) (finditer content_text) →
  ∃ l, skipped l ∧
       ((∃ reusable_text, read_text st.1 key = inr reusable_text) →
        l = InlineSkipNoShortcode content_file) ∧
       inline_one st (key, [content_file]) = (st.1, st.2 ++ [l]) ∧
       inline_singles u fs = foldl inline_one (st.1, st.2 ++ [l]) after.
Proof.
  intros Hs st Hr Hno.
  destruct (inline_one_no_match st.1 st.2 key content_file [] content_text Hr Hno)
    as (l & Hl & Hsk & Hwhy).
  rewrite <- surjective_pairing in Hl.
  exists l. split_and!; [done..|].
  rewrite <- Hl, inline_singles_unfold by (rewrite Hs; by destruct before).
  subst st. rewrite Hs at 2. by rewrite foldl_app.
Qed.

(** ** The definitions on small inputs *)

Example path_name_examples :
  path_name (py "content/reusable/md/foo.md") = py "foo.md" ∧
  path_name (py "a/b/./") = py "b" ∧
  path_name (py "a/..") = py ".." ∧
  path_name (py "/") = [].
Proof. vm_compute. done. Qed.

Example rstrip_nl_example :
  rstrip_nl (py "ab" ++ [NL; 13%N; NL; NL]) = py "ab" ++ [NL; 13%N].
Proof. vm_compute. done. Qed.

Example sorted_example :
  merge_sort str_le [py "b"; py "ab"; py "a"; py "B"; []]
  = [[]; py "B"; py "a"; py "ab"; py "b"].
Proof. vm_compute. done. Qed.

(** White space may be any run of Unicode white space and may span lines;
    an empty parameter and a missing space after [readfile] are not
    matched. *)
Example finditer_example :
  finditer (py "Before." ++ [NL] ++ shortcode "content/reusable/tip.md"
            ++ py "x" ++ shortcode ""
            ++ py "{{<readfile" ++ [NL; 160%N] ++ py "file =" ++ [QUOTE]
            ++ py "a b" ++ [NL; QUOTE; 9%N] ++ py ">}}}"
            ++ py "{{< readfilefile=" ++ [QUOTE] ++ py "c" ++ [QUOTE]
            ++ py ">}}")
  = [py "content/reusable/tip.md"; py "a b" ++ [NL]].
Proof. vm_compute. done. Qed.

(** ** The claims on the example tree *)

Example find_usages_example :
  let r := find_usages example_fs example_reusable [page_md; broken_md] in
  map_to_list (usages r) = [(tip_md, [page_md]); (orphan_md, [])] ∧
  elements (missing r) = [py "content/reusable/ghost.md"] ∧
  stderr r = [WarnCouldNotRead broken_md UnicodeDecodeError].
Proof. vm_compute. done. Qed.

Example inline_singles_example :
  let r := find_usages example_fs example_reusable [page_md] in
  let '(fs', out) := inline_singles (usages r) example_fs in
  out = [InlineHeader 1; InlineOk tip_md page_md] ∧
  fs' !! tip_md = None ∧
  read_text fs' page_md =
    inr (py "Before." ++ [NL] ++ py "Inlined tip." ++ [NL]
         ++ shortcode "content/reusable/ghost.md").
Proof. vm_compute. done. Qed.

Example delete_unused_example :
  let r := find_usages example_fs example_reusable [page_md] in
  let '(fs', out) := delete_unused (usages r) example_fs in
  out = [DeleteHeader 1; DeleteOk orphan_md] ∧
  fs' !! orphan_md = None ∧ fs' !! tip_md = example_fs !! tip_md.
Proof. vm_compute. done. Qed.

Lemma resolve_first_match_witness :
  resolve [py "/t/r/c.md"; py "/t/r/sub/c.md"] (py "sub/c.md")
  = Some (py "/t/r/c.md").
Proof.
  apply (proj1 (resolve_first_match _ _)).
  exists [], [py "/t/r/sub/c.md"]. split_and!; [done| |constructor].
  right. right. vm_compute. reflexivity.
Defined.

Lemma find_usages_keeps_every_reusable_file_witness :
  usages (find_usages example_fs example_reusable [page_md; broken_md])
    !! orphan_md = Some [].
Proof.
  refine (proj1 (proj2 (find_usages_keeps_every_reusable_file
            example_fs example_reusable [page_md; broken_md] orphan_md _)) _).
  - vm_compute. repeat constructor.
  - intros c ref Hin. vm_compute in Hin.
    apply elem_of_cons in Hin as [[= -> ->]|Hin]; [vm_compute; discriminate|].
    apply elem_of_cons in Hin as [[= -> ->]|Hin]; [vm_compute; discriminate|].
    by apply elem_of_nil in Hin.
Defined.

Lemma find_usages_missing_verbatim_once_witness :
  length (filter (λ x, x = py "content/reusable/ghost.md")
            (elements (missing (find_usages example_fs example_reusable
                                  [page_md; page_md])))) = 1%nat.
Proof.
  apply (find_usages_missing_verbatim_once
           example_fs example_reusable [page_md; page_md]).
  vm_compute. reflexivity.
Defined.

Lemma find_usages_counts_every_occurrence_witness :
  ∃ l, usages (find_usages example_fs example_reusable [page_md; twice_md])
         !! tip_md = Some l ∧
       length (filter (λ x, x = twice_md) l) = 2%nat.
Proof.
  destruct (find_usages_counts_every_occurrence
              example_fs example_reusable [page_md; twice_md]
              twice_md twice_text tip_md) as (l & Hl & Hn).
  - apply (bool_decide_unpack _). vm_compute. exact I.
  - vm_compute. repeat constructor.
  - vm_compute. reflexivity.
  - vm_compute. repeat constructor.
  - exists l. split; [exact Hl|]. rewrite Hn. vm_compute. reflexivity.
Defined.

Lemma find_usages_skips_unreadable_file_witness :
  usages (find_usages example_fs example_reusable [page_md; broken_md; twice_md])
  = usages (find_usages example_fs example_reusable [page_md; twice_md]).
Proof.
  apply (find_usages_skips_unreadable_file example_fs example_reusable
           [page_md] [twice_md] broken_md UnicodeDecodeError).
  vm_compute. reflexivity.
Defined.

Lemma find_usages_accounts_for_every_occurrence_witness :
  usages (find_usages example_fs example_reusable
            [page_md; broken_md; twice_md]) !! tip_md
  = Some [page_md; twice_md; twice_md] ∧
  total_uses (usages (find_usages example_fs example_reusable
                        [page_md; broken_md; twice_md])) = 3%nat.
Proof.
  destruct (find_usages_accounts_for_every_occurrence
              example_fs example_reusable [page_md; broken_md; twice_md])
    as (_ & _ & Hlists & _ & _ & _ & Htotal & _).
  split.
  - rewrite (Hlists tip_md).
    + vm_compute. reflexivity.
    + vm_compute. repeat constructor.
  - rewrite Htotal. vm_compute. reflexivity.
Defined.

Lemma empty_file_parameter_not_recognised_witness :
  finditer (shortcode "") = [].
Proof.
  apply (empty_file_parameter_not_recognised (shortcode "")).
  apply (Empty_file_directive [32%N] [32%N] [] [] [32%N]);
    repeat constructor. discriminate.
Defined.

Lemma mutations_select_by_use_count_witness :
  let u := usages (find_usages example_fs example_reusable [page_md]) in
  (delete_unused u example_fs).1 !! orphan_md = None ∧
  (delete_unused u example_fs).1 !! tip_md = example_fs !! tip_md ∧
  (inline_singles u example_fs).1 !! orphan_md = example_fs !! orphan_md ∧
  (inline_singles u example_fs).1 !! tip_md = None ∧
  (inline_singles u example_fs).1 !! page_md =
    Some (rewritten (plain_file page_text)
            (inlined_text tip_md (py "Inlined tip." ++ [NL]) page_text)) ∧
  InlineOk tip_md page_md ∈ (inline_singles u example_fs).2.
Proof.
  intros u.
  destruct (mutations_select_by_use_count u example_fs)
    as [(_ & _ & _ & Hdel & Hkeep) (_ & _ & _ & Hframe & _ & _ & Hinline)].
  assert (∀ k locs, u !! k = Some locs →
            (k, locs) = (tip_md, [page_md]) ∨ (k, locs) = (orphan_md, []))
    as Hu.
  { intros k locs Hk. apply elem_of_map_to_list in Hk. vm_compute in Hk.
    apply elem_of_cons in Hk as [Hk|Hk]; [by left|].
    apply elem_of_cons in Hk as [Hk|Hk]; [by right|].
    by apply elem_of_nil in Hk. }
  split_and!.
  - apply Hdel; vm_compute; reflexivity.
  - apply Hkeep. vm_compute. discriminate.
  - apply Hframe.
    + intros c. vm_compute. discriminate.
    + intros key Hkey. by destruct (Hu _ _ Hkey) as [[=]|[=]].
  - eapply (Hinline tip_md page_md (plain_file (py "Inlined tip." ++ [NL]))
              (plain_file page_text) (py "Inlined tip." ++ [NL]) page_text);
      try (vm_compute; reflexivity).
    + intros k Hk. by destruct (Hu _ _ Hk) as [[=]|[=]].
    + intros loc. vm_compute. discriminate.
    + intros k Hk. by destruct (Hu _ _ Hk) as [[= -> ]|[=]].
  - eapply (Hinline tip_md page_md (plain_file (py "Inlined tip." ++ [NL]))
              (plain_file page_text) (py "Inlined tip." ++ [NL]) page_text);
      try (vm_compute; reflexivity).
    + intros k Hk. by destruct (Hu _ _ Hk) as [[=]|[=]].
    + intros loc. vm_compute. discriminate.
    + intros k Hk. by destruct (Hu _ _ Hk) as [[= -> ]|[=]].
  - eapply (Hinline tip_md page_md (plain_file (py "Inlined tip." ++ [NL]))
              (plain_file page_text) (py "Inlined tip." ++ [NL]) page_text);
      try (vm_compute; reflexivity).
    + intros k Hk. by destruct (Hu _ _ Hk) as [[=]|[=]].
    + intros loc. vm_compute. discriminate.
    + intros k Hk. by destruct (Hu _ _ Hk) as [[= -> ]|[=]].
Defined.

Lemma inline_one_substitutes_every_match_witness :
  read_text (inline_one (example_fs, []) (tip_md, [twice_md])).1 twice_md
  = inr (py "Inlined tip." ++ [NL] ++ py "Inlined tip.").
Proof.
  refine (proj1 (proj2 (proj2 (inline_one_substitutes_every_match
            example_fs [] tip_md twice_md [] (py "Inlined tip." ++ [NL])
            twice_text (plain_file twice_text) _ _ _ _ _ _)))).
  all: vm_compute; (reflexivity || discriminate).
Defined.

Lemma inline_singles_skips_unlocated_witness :
  inline_singles stale_usages example_fs
  = (example_fs, [InlineHeader 1; InlineSkipNoShortcode plain_md]).
Proof.
  destruct (inline_singles_skips_unlocated stale_usages example_fs
              [] tip_md plain_md [] (py "No shortcodes here."))
    as (l & _ & Hwhy & _ & Hrun).
  - vm_compute. reflexivity.
  - vm_compute. reflexivity.
  - vm_compute. constructor.
  - rewrite Hrun, Hwhy; [reflexivity|].
    exists (py "Inlined tip." ++ [NL]). vm_compute. reflexivity.
Defined.

(** * Further properties *)

(** ** The pattern and the helper of the tests *)

Lemma shortcode_of_word ref :
  ref ≠ [] → Forall (λ c, c ≠ QUOTE) ref →
  readfile_shortcode (shortcode_of ref) ref.
Proof.
  intros Hne Hq.
  by apply (Readfile_shortcode [32%N] [32%N] [] [] [32%N] ref);
    repeat constructor.
Qed.

(** X1: what [shortcode] writes, the pattern reads back: for a reference
    that is not empty and holds no double quote, a match at the front of the
    directive captures the reference and ends where the directive ends, and
    the directive alone holds that one match. *)
Theorem shortcode_round_trip ref :
  ref ≠ [] → Forall (λ c, c ≠ QUOTE) ref →
  (∀ rest, match_at (shortcode_of ref ++ rest) = Some (ref, rest)) ∧
  (∀ rest, finditer (shortcode_of ref ++ rest) = ref :: finditer rest) ∧
  finditer (shortcode_of ref) = [ref].
Proof.
  intros Hne Hq. pose proof (shortcode_of_word ref Hne Hq) as Hw.
  assert (∀ rest, finditer (shortcode_of ref ++ rest) = ref :: finditer rest)
    as Hrest.
  { intros rest. unfold finditer. by rewrite (scan_match _ ref). }
  split_and!; [|done|].
  - intros rest. by apply match_at_complete.
  - specialize (Hrest []). by rewrite app_nil_r in Hrest.
Qed.

Lemma shortcode_round_trip_witness :
  finditer (shortcode_of (py "content/reusable/md/foo.md"))
  = [py "content/reusable/md/foo.md"].
Proof.
  apply (shortcode_round_trip (py "content/reusable/md/foo.md")).
  - discriminate.
  - apply (bool_decide_unpack _). vm_compute. exact I.
Defined.

Lemma scan_render d :
  Forall segment_ok d → scan 0 (render d) = d ≫= segment_pieces.
Proof.
  unfold render. induction 1 as [|g d Hg _ IH]; [done|].
  cbn [fmap list_fmap concat mbind list_bind]. fold (mbind segment_pieces d).
  destruct g as [s|w ref]; cbn [segment_text segment_pieces segment_ok] in *.
  - by rewrite scan_app_no_open, IH.
  - by rewrite (scan_match w ref), IH.
Qed.

(** X2: in a text made of directives, in any of the spellings the
    pattern allows, and of stretches of text without an opening brace,
    [finditer] finds the references of the directives, all of them, in
    order, and nothing else. *)
Theorem finditer_render d :
  Forall segment_ok d → finditer (render d) = omap segment_ref d.
Proof.
  intros Hd. unfold finditer. rewrite scan_render by done.
  clear Hd. induction d as [|g d IH]; [done|].
  cbn [mbind list_bind omap list_omap]. fold (mbind segment_pieces d).
  rewrite omap_app, IH.
  destruct g as [s|w ref]; cbn [segment_pieces segment_ref]; [|done].
  by rewrite omap_plain.
Qed.

Lemma finditer_render_witness :
  finditer (render [Other (py "Before."); Directive (shortcode_of (py "a.md")) (py "a.md");
                    Other [NL]; Directive (shortcode_of (py "b c")) (py "b c")])
  = [py "a.md"; py "b c"].
Proof.
  apply (finditer_render
           [Other (py "Before."); Directive (shortcode_of (py "a.md")) (py "a.md");
            Other [NL]; Directive (shortcode_of (py "b c")) (py "b c")]).
  repeat constructor; try discriminate;
    apply shortcode_of_word; try discriminate;
    apply (bool_decide_unpack _); vm_compute; exact I.
Defined.

Lemma readfile_shortcode_quoted w ref :
  readfile_shortcode w ref →
  ref ≠ [] ∧ (QUOTE ∉ ref) ∧
  ∃ a b, w = a ++ [QUOTE] ++ ref ++ [QUOTE] ++ b.
Proof.
  intros [ws1 ws2 ws3 ws4 ws5 g Hws1 Hws2 Hne2 Hws3 Hws4 Hg Hgne Hws5].
  split_and!; [done| |].
  - intros Hin. by eapply Forall_forall in Hg.
  - exists (py "{{<" ++ ws1 ++ py "readfile" ++ ws2 ++ py "file" ++ ws3
            ++ py "=" ++ ws4), (ws5 ++ py ">}}").
    by rewrite <- !app_assoc.
Qed.

(** X3: every reference [finditer] captures is not empty, holds no
    double quote, and stands in the text between two double quotes, as it
    was written. *)
Theorem finditer_captures_quoted text ref :
  ref ∈ finditer text →
  ref ≠ [] ∧ (QUOTE ∉ ref) ∧
  ∃ before after, text = before ++ [QUOTE] ++ ref ++ [QUOTE] ++ after.
Proof.
  unfold finditer. intros (p & Hin & Hp)%list_elem_of_omap.
  destruct p as [c|w ref']; [done|]. injection Hp as ->.
  pose proof (scan_shortcode _ _ _ _ Hin) as Hw.
  apply readfile_shortcode_quoted in Hw as (Hne & Hq & a & b & ->).
  split_and!; [done..|].
  apply list_elem_of_split in Hin as (l1 & l2 & Hscan).
  pose proof (scan_0_text text) as Htext. rewrite Hscan in Htext.
  rewrite fmap_app, concat_app in Htext.
  cbn [fmap list_fmap concat piece_text] in Htext.
  exists (concat (piece_text <$> l1) ++ a), (b ++ concat (piece_text <$> l2)).
  rewrite <- Htext, <- !app_assoc. done.
Qed.

Lemma finditer_captures_quoted_witness :
  py "content/reusable/tip.md" ≠ [] ∧ (QUOTE ∉ py "content/reusable/tip.md").
Proof.
  destruct (finditer_captures_quoted page_text (py "content/reusable/tip.md"))
    as (Hne & Hq & _); [|by split].
  vm_compute. repeat constructor.
Defined.

(** ** File names and the resolution of references *)

Lemma split_slash_nonempty s : split_slash s ≠ [].
Proof.
  destruct s as [|c s]; cbn [split_slash]; [done|].
  case_decide; [done|]. by destruct (split_slash s).
Qed.

Lemma split_slash_no_slash s : SLASH ∉ s → split_slash s = [s].
Proof.
  induction s as [|c s IH]; [done|]. intros [Hc Hs]%not_elem_of_cons.
  cbn [split_slash]. rewrite decide_False by done. by rewrite IH.
Qed.

Lemma split_slash_join d s :
  split_slash (join d s) = split_slash d ++ split_slash s.
Proof.
  unfold join. induction d as [|c d IH]; cbn [app split_slash].
  - by rewrite decide_True.
  - case_decide; [by rewrite IH|]. rewrite IH.
    pose proof (split_slash_nonempty d). by destruct (split_slash d).
Qed.

Lemma path_name_join d name :
  file_name name → path_name (join d name) = name.
Proof.
  intros (Hne & Hdot & Hslash). unfold path_name, path_parts.
  rewrite split_slash_join, (split_slash_no_slash name), filter_app by done.
  rewrite filter_cons, decide_True by done. cbn [filter list_filter].
  by rewrite last_snoc.
Qed.




(** X4: a reference whose last component is the file name of a known
    reusable file is never missing, whatever directory part each of the two
    carries: the path written relative to another root still resolves. *)
Theorem same_file_name_resolves (reusable_files : list str) d1 d2 name :
  file_name name → join d1 name ∈ reusable_files →
  key_matches (join d1 name) (join d2 name) = true ∧
  key_matches (join d1 name) name = true ∧
  ∃ key, resolve reusable_files (join d2 name) = Some key ∧
         key ∈ reusable_files ∧ matches key (join d2 name).
Proof.
  intros Hname Hin.
  assert (key_matches (join d1 name) (join d2 name) = true) as Hm.
  { apply key_matches_spec. right. right. by rewrite !path_name_join. }
  split_and!; [done| |].
  - apply key_matches_spec. right. left. by exists (d1 ++ [SLASH]);
      unfold join; rewrite <- app_assoc.
  - destruct (resolve reusable_files (join d2 name)) as [key|] eqn:Hr.
    + exists key. split_and!; [done|by eapply resolve_elem_of|].
      apply resolve_Some in Hr as (_ & _ & _ & Hk & _).
      by apply key_matches_spec.
    + apply resolve_None in Hr. eapply Forall_forall in Hr; [|done].
      by rewrite Hm in Hr.
Qed.

Lemma same_file_name_resolves_witness :
  ∃ key, resolve example_reusable (py "content/reusable/tip.md") = Some key ∧
         key ∈ example_reusable ∧ matches key (py "content/reusable/tip.md").
Proof.
  refine (proj2 (proj2 (same_file_name_resolves example_reusable
            (py "/r") (py "content/reusable") (py "tip.md") _ _))).
  - split_and!; [discriminate..|].
    apply (bool_decide_unpack _). vm_compute. exact I.
  - vm_compute. repeat constructor.
Defined.





(** ** More on [find_usages] *)

Lemma occurrences_Permutation fs l1 l2 :
  l1 ≡ₚ l2 → occurrences fs l1 ≡ₚ occurrences fs l2.
Proof. intros H. unfold occurrences. by rewrite H. Qed.

Lemma uses_of_Permutation rf key o1 o2 :
  o1 ≡ₚ o2 → uses_of rf key o1 ≡ₚ uses_of rf key o2.
Proof. intros H. unfold uses_of. by rewrite H. Qed.

Lemma uses_of_nil_iff rf key occs :
  uses_of rf key occs = [] ↔
  ∀ c ref, (c, ref) ∈ occs → resolve rf ref ≠ Some key.
Proof.
  unfold uses_of. induction occs as [|[c ref] occs IH].
  - split; [|done]. by intros _ c ref ?%elem_of_nil.
  - rewrite filter_cons. cbn [snd]. case_decide as Hr.
    + split; [done|]. intros H. by destruct (H c ref); [left|].
    + rewrite IH. split.
      * intros H c' ref' [[= -> ->]|Hin]%elem_of_cons; [done | by eapply H].
      * intros H c' ref' Hin. eapply H. by right.
Qed.

Lemma snd_pair_fmap (c : str) (refs : list str) :
  ((λ ref, (c, ref)) <$> refs).*2 = refs.
Proof. induction refs as [|ref refs IH]; [done|]. cbn. by rewrite IH. Qed.

(** X6: the usage map has the reusable files for keys and no other key,
    so it has as many entries as there are reusable files. *)
Theorem find_usages_keys_exact fs (reusable_md content_md : list str) :
  let r := find_usages fs reusable_md content_md in
  dom (usages r) = list_to_set reusable_md ∧
  (∀ key, key ∉ reusable_md → usages r !! key = None) ∧
  (NoDup reusable_md → size (usages r) = length reusable_md).
Proof.
  intros r.
  assert (dom (usages r) = list_to_set reusable_md) as Hdom.
  { apply set_eq. intros key. rewrite elem_of_dom, elem_of_list_to_set.
    unfold r. rewrite find_usages_usages.
    case_decide; [by split; eauto|]. split; [by intros [? ?]|done]. }
  split_and!; [done| |].
  - intros key Hkey. unfold r. by rewrite find_usages_usages, decide_False.
  - intros Hnd. rewrite <- size_dom, Hdom. by apply size_list_to_set.
Qed.

(** X7: a scan of one readable content file gives every reusable file
    the path of that file once for each directive in it that resolves to the
    reusable file, and the missing set holds the references that resolve to
    nothing. *)
Theorem find_usages_one_file fs (reusable_md : list str) c text key :
  read_text fs c = inr text → key ∈ reusable_md →
  let r := find_usages fs reusable_md [c] in
  usages r !! key =
    Some (replicate
            (length (filter (λ ref, resolve reusable_md ref = Some key)
                            (finditer text))) c) ∧
  missing r =
    list_to_set (filter (λ ref, resolve reusable_md ref = None)
                        (finditer text)) ∧
  stderr r = [].
Proof.
  intros Hr Hkey r. unfold r.
  rewrite find_usages_usages, find_usages_missing, find_usages_stderr.
  rewrite decide_True by done. unfold occurrences, warnings, unresolved.
  cbn [mbind list_bind omap list_omap]. rewrite Hr, app_nil_r.
  split_and!; [by rewrite uses_of_file| |done].
  by rewrite snd_pair_fmap.
Qed.

Lemma find_usages_one_file_witness :
  usages (find_usages example_fs example_reusable [twice_md]) !! tip_md
  = Some [twice_md; twice_md].
Proof.
  refine (proj1 (find_usages_one_file example_fs example_reusable
                   twice_md twice_text tip_md _ _)).
  - vm_compute. reflexivity.
  - vm_compute. repeat constructor.
Defined.

(** X8: a scan of two listings, one after the other, is the two scans
    put together: for every reusable file the list of the first scan followed
    by the list of the second, the union of the missing sets, and the
    warnings of the first followed by those of the second. *)
Theorem find_usages_app fs (reusable_md l1 l2 : list str) key :
  key ∈ reusable_md →
  let r := find_usages fs reusable_md (l1 ++ l2) in
  let r1 := find_usages fs reusable_md l1 in
  let r2 := find_usages fs reusable_md l2 in
  (∃ u1 u2, usages r1 !! key = Some u1 ∧ usages r2 !! key = Some u2 ∧
            usages r !! key = Some (u1 ++ u2)) ∧
  missing r = missing r1 ∪ missing r2 ∧
  stderr r = stderr r1 ++ stderr r2.
Proof.
  intros Hkey r r1 r2. unfold r, r1, r2.
  rewrite !find_usages_usages, !find_usages_missing, !find_usages_stderr.
  rewrite !decide_True by done. split_and!.
  - eexists _, _. split_and!; [done..|].
    by rewrite occurrences_app, uses_of_app.
  - rewrite occurrences_app. unfold unresolved.
    rewrite fmap_app, filter_app. set_solver.
  - apply warnings_app.
Qed.

Lemma find_usages_app_witness :
  usages (find_usages example_fs example_reusable ([page_md] ++ [twice_md]))
    !! tip_md = Some ([page_md] ++ [twice_md; twice_md]).
Proof.
  destruct (find_usages_app example_fs example_reusable
              [page_md] [twice_md] tip_md) as ((u1 & u2 & H1 & H2 & H) & _).
  - vm_compute. repeat constructor.
  - rewrite H. vm_compute in H1, H2.
    injection H1 as <-. injection H2 as <-. reflexivity.
Defined.

(** X9: the order in which the content files are listed changes the
    order of the entries of a usage list and nothing else: the list of a
    reusable file is a permutation, so it has the same length and a file
    that is unused, used once or used more often stays so, and the missing
    set is the same. *)
Theorem find_usages_content_order fs (reusable_md l1 l2 : list str) key :
  l1 ≡ₚ l2 → key ∈ reusable_md →
  let r1 := find_usages fs reusable_md l1 in
  let r2 := find_usages fs reusable_md l2 in
  (∃ u1 u2, usages r1 !! key = Some u1 ∧ usages r2 !! key = Some u2 ∧
            u1 ≡ₚ u2 ∧ length u1 = length u2) ∧
  missing r1 = missing r2.
Proof.
  intros Hp Hkey r1 r2. unfold r1, r2.
  rewrite !find_usages_usages, !find_usages_missing.
  rewrite !decide_True by done.
  pose proof (occurrences_Permutation fs _ _ Hp) as Ho. split.
  - eexists _, _. split_and!; [done..| |].
    + by apply uses_of_Permutation.
    + by rewrite (uses_of_Permutation _ _ _ _ Ho).
  - apply set_eq. intros ref. rewrite !elem_of_list_to_set.
    unfold unresolved. by rewrite Ho.
Qed.

Lemma find_usages_content_order_witness :
  missing (find_usages example_fs example_reusable [page_md; twice_md])
  = missing (find_usages example_fs example_reusable [twice_md; page_md]).
Proof.
  refine (proj2 (find_usages_content_order example_fs example_reusable
                   [page_md; twice_md] [twice_md; page_md] tip_md _ _)).
  - apply Permutation_swap.
  - vm_compute. repeat constructor.
Defined.

(** X10: the two empty listings. With no reusable file the usage map is
    empty and every reference of a readable content file is missing; with no
    content file every reusable file has the empty list, nothing is missing
    and nothing is warned about. *)
Theorem find_usages_empty_listings fs (reusable_md content_md : list str) :
  (usages (find_usages fs [] content_md) = ∅ ∧
   missing (find_usages fs [] content_md) =
     list_to_set (occurrences fs content_md).*2) ∧
  ((∀ key, key ∈ reusable_md →
           usages (find_usages fs reusable_md []) !! key = Some []) ∧
   missing (find_usages fs reusable_md []) = ∅ ∧
   stderr (find_usages fs reusable_md []) = []).
Proof.
  split; split_and!.
  - apply map_eq. intros key.
    by rewrite find_usages_usages, lookup_empty, decide_False by set_solver.
  - rewrite find_usages_missing. unfold unresolved. f_equal.
    induction ((occurrences fs content_md).*2) as [|ref l IH]; [done|].
    by rewrite filter_cons, decide_True, IH.
  - intros key Hkey. by rewrite find_usages_usages, decide_True.
  - by rewrite find_usages_missing.
  - by rewrite find_usages_stderr.
Qed.

(** X11: the scan warns about a content file exactly when reading it
    fails, with the exception that was raised, once for each time the file
    is listed; it prints nothing else. *)
Theorem find_usages_warnings fs (reusable_md content_md : list str) :
  let r := find_usages fs reusable_md content_md in
  (∀ l, l ∈ stderr r ↔
        ∃ c exc, l = WarnCouldNotRead c exc ∧ c ∈ content_md ∧
                 read_text fs c = inl exc) ∧
  length (stderr r) =
    length (filter (λ c, readable fs c = false) content_md).
Proof.
  intros r. unfold r. rewrite find_usages_stderr. unfold warnings. split.
  - intros l. rewrite list_elem_of_omap. split.
    + intros (c & Hc & Hl). destruct (read_text fs c) as [exc|] eqn:Hr; [|done].
      injection Hl as <-. eauto.
    + intros (c & exc & -> & Hc & Hr). exists c. by rewrite Hr.
  - induction content_md as [|c l IH]; [done|].
    cbn [omap list_omap]. rewrite filter_cons.
    destruct (read_text fs c) as [exc|text] eqn:Hr.
    + rewrite decide_True by (unfold readable; by rewrite Hr).
      cbn. by rewrite IH.
    + by rewrite decide_False by (unfold readable; by rewrite Hr).
Qed.

(** ** More on [delete_unused] *)

Lemma foldl_delete_one_lookup st keys p :
  (foldl delete_one st keys).1 !! p =
  if decide (p ∈ keys)
  then match st.1 !! p with
       | Some f => if may_unlink f then None else Some f
       | None => None
       end
  else st.1 !! p.
Proof.
  revert st. induction keys as [|k keys IH]; intros [fs out]; [done|].
  cbn [foldl fst]. rewrite IH, delete_one_lookup. cbn [fst].
  destruct (decide (p = k)) as [->|Hne].
  - rewrite (decide_True (P := k ∈ k :: keys)) by set_solver.
    destruct (fs !! k) as [f|]; [destruct (may_unlink f) eqn:Hf|];
      case_decide; by rewrite ?Hf.
  - destruct (decide (p ∈ keys)).
    + by rewrite decide_True by set_solver.
    + by rewrite decide_False by set_solver.
Qed.

Lemma delete_unused_lookup (u : usage_map) fs p :
  (delete_unused u fs).1 !! p =
  match fs !! p with
  | Some f =>
      if decide (u !! p = Some [] ∧ may_unlink f = true) then None else Some f
  | None => None
  end.
Proof.
  unfold delete_unused.
  assert ((foldl delete_one (fs, [DeleteHeader (length (unused u))])
             (unused u)).1 !! p =
          match fs !! p with
          | Some f =>
              if decide (u !! p = Some [] ∧ may_unlink f = true)
              then None else Some f
          | None => None
          end) as H.
  { rewrite foldl_delete_one_lookup. cbn [fst].
    destruct (fs !! p) as [f|]; [|by case_decide].
    destruct (may_unlink f); repeat case_decide; try done;
      rewrite elem_of_unused in *; naive_solver. }
  destruct (unused u) as [|k keys] eqn:Hu; [|done].
  cbn [fst]. destruct (fs !! p) as [f|]; [|done].
  rewrite decide_False; [done|]. intros [Hp _].
  apply elem_of_unused in Hp. rewrite Hu in Hp. by apply elem_of_nil in Hp.
Qed.

Lemma unused_NoDup (u : usage_map) : NoDup (unused u).
Proof.
  unfold unused. rewrite merge_sort_Permutation.
  eapply NoDup_fmap_fst.
  - intros k l1 l2 [_ H1%elem_of_map_to_list]%list_elem_of_filter
      [_ H2%elem_of_map_to_list]%list_elem_of_filter. congruence.
  - apply NoDup_filter, NoDup_map_to_list.
Qed.

Lemma delete_one_report fs out key :
  (delete_one (fs, out) key).2 = out ++ [delete_report fs key].
Proof.
  unfold delete_one, delete_report, exists_, unlink.
  destruct (fs !! key) as [f|].
  - rewrite bool_decide_eq_true_2 by done. cbn [negb].
    by destruct (may_unlink f).
  - by rewrite bool_decide_eq_false_2 by (by intros [? ?]).
Qed.

Lemma foldl_delete_one_report st keys :
  NoDup keys →
  (foldl delete_one st keys).2 = st.2 ++ (delete_report st.1 <$> keys).
Proof.
  intros Hnd. revert st. induction Hnd as [|k keys Hk Hnd IH]; intros [fs out].
  - cbn. by rewrite app_nil_r.
  - cbn [foldl]. rewrite IH.
    rewrite (surjective_pairing (delete_one (fs, out) k)) at 1.
    cbn [fst snd fmap list_fmap]. rewrite delete_one_report, <- app_assoc.
    cbn [app]. do 2 f_equal. apply list_fmap_ext. intros i k' Hk'.
    unfold delete_report. rewrite delete_one_lookup, decide_False; [done|].
    intros ->. apply Hk. by eapply list_elem_of_lookup_2.
Qed.

(** X12: what [delete_unused] leaves behind, path by path: a file is
    gone exactly when the usage map gives it the empty list and the system
    lets it be removed; every other file is there as it was, contents and
    permissions, and no file is added. *)
Theorem delete_unused_result (u : usage_map) fs p :
  let fs' := (delete_unused u fs).1 in
  (fs' !! p = None ↔
   fs !! p = None ∨
   ∃ f, fs !! p = Some f ∧ u !! p = Some [] ∧ may_unlink f = true) ∧
  (∀ f, fs' !! p = Some f → fs !! p = Some f).
Proof.
  intros fs'. unfold fs'. rewrite delete_unused_lookup.
  destruct (fs !! p) as [f|]; [|naive_solver].
  case_decide; naive_solver.
Qed.

Lemma delete_unused_lines (u : usage_map) fs :
  (∃ key, u !! key = Some []) →
  (delete_unused u fs).2 =
  DeleteHeader (length (unused u)) :: (delete_report fs <$> unused u).
Proof.
  intros [key Hkey%elem_of_unused]. unfold delete_unused.
  destruct (unused u) as [|k keys] eqn:Hu; [by apply elem_of_nil in Hkey|].
  rewrite foldl_delete_one_report; [done|].
  rewrite <- Hu. apply unused_NoDup.
Qed.

(** X13: the reports of [delete_unused]: one line when no key has the
    empty list; else a header with the number of such keys and one report
    for each of them, in ascending order of the keys, that says whether the
    file was not there, was removed, or could not be removed. *)
Theorem delete_unused_reports (u : usage_map) fs :
  StronglySorted str_le (unused u) ∧
  ((∀ key, u !! key ≠ Some []) →
   delete_unused u fs = (fs, [DeleteNothing])) ∧
  ((∃ key, u !! key = Some []) →
   (delete_unused u fs).2 =
   DeleteHeader (length (unused u)) :: (delete_report fs <$> unused u)).
Proof.
  split_and!; [apply unused_sorted| |].
  - intros Hno. unfold delete_unused.
    destruct (unused u) as [|k keys] eqn:Hu; [done|].
    destruct (Hno k). apply elem_of_unused. rewrite Hu. by left.
  - apply delete_unused_lines.
Qed.

Lemma delete_unused_reports_witness :
  (delete_unused {[ tip_md := [page_md]; orphan_md := []; plain_md := [] ]}
     (delete plain_md example_fs)).2
  = [DeleteHeader 2; DeleteSkipNotOnDisk plain_md; DeleteOk orphan_md].
Proof.
  rewrite (proj2 (proj2 (delete_unused_reports
             {[ tip_md := [page_md]; orphan_md := []; plain_md := [] ]}
             (delete plain_md example_fs)))).
  - vm_compute. reflexivity.
  - exists orphan_md. vm_compute. reflexivity.
Defined.

(** X14: running [delete_unused] again on the same usage map changes
    nothing more, and reports no removal. *)
Theorem delete_unused_twice (u : usage_map) fs :
  let fs' := (delete_unused u fs).1 in
  (delete_unused u fs').1 = fs' ∧
  (∀ key, DeleteOk key ∉ (delete_unused u fs').2).
Proof.
  intros fs'. split.
  - apply map_eq. intros p. rewrite delete_unused_lookup.
    unfold fs'. rewrite delete_unused_lookup.
    destruct (fs !! p) as [f|]; [|done].
    destruct (decide (u !! p = Some [] ∧ may_unlink f = true)); [done|].
    by rewrite decide_False.
  - intros key Hin.
    assert (∃ k, u !! k = Some []) as Hex.
    { unfold delete_unused in Hin.
      destruct (unused u) as [|k keys] eqn:Hu.
      - apply list_elem_of_singleton in Hin. done.
      - exists k. apply elem_of_unused. rewrite Hu. by left. }
    rewrite (delete_unused_lines u fs' Hex) in Hin.
    apply elem_of_cons in Hin as [[=]|Hin].
    apply list_elem_of_fmap in Hin as (k & Hk & Hin).
    unfold delete_report in Hk. unfold fs' in Hk.
    rewrite delete_unused_lookup in Hk.
    apply elem_of_unused in Hin.
    destruct (fs !! k) as [f|]; [|done].
    destruct (may_unlink f) eqn:Hf.
    + by rewrite decide_True in Hk.
    + rewrite decide_False in Hk by naive_solver. by rewrite Hf in Hk.
Qed.

(** X15: pruning right after a scan: a reusable file that is on disk and
    may be removed is gone afterwards exactly when no directive of a readable
    content file resolves to it; a path that is not a reusable file is never
    touched. *)
Theorem prune_after_scan fs (reusable_md content_md : list str) key f :
  key ∈ reusable_md → fs !! key = Some f → may_unlink f = true →
  let r := find_usages fs reusable_md content_md in
  let fs' := (delete_unused (usages r) fs).1 in
  (fs' !! key = None ↔
   ∀ c ref, (c, ref) ∈ occurrences fs content_md →
            resolve reusable_md ref ≠ Some key) ∧
  (∀ p, p ∉ reusable_md → fs' !! p = fs !! p).
Proof.
  intros Hkey Hf Hrm r fs'. unfold fs', r. split.
  - pose proof (find_usages_usages fs reusable_md content_md key) as Hu.
    rewrite decide_True in Hu by done.
    rewrite delete_unused_lookup, Hf, Hu, <- uses_of_nil_iff.
    destruct (uses_of reusable_md key (occurrences fs content_md)).
    + by rewrite decide_True.
    + by rewrite decide_False by naive_solver.
  - intros p Hp.
    pose proof (find_usages_usages fs reusable_md content_md p) as Hu.
    rewrite decide_False in Hu by done.
    rewrite delete_unused_lookup, Hu.
    destruct (fs !! p); [|done]. by rewrite decide_False by naive_solver.
Qed.

Lemma prune_after_scan_witness :
  (delete_unused (usages (find_usages example_fs example_reusable [page_md]))
     example_fs).1 !! orphan_md = None.
Proof.
  refine (proj2 (proj1 (prune_after_scan example_fs example_reusable [page_md]
                          orphan_md (plain_file (py "Nobody reads this."))
                          _ _ _)) _).
  - vm_compute. repeat constructor.
  - vm_compute. reflexivity.
  - reflexivity.
  - intros c ref Hin. vm_compute in Hin.
    apply elem_of_cons in Hin as [[= -> ->]|Hin]; [vm_compute; discriminate|].
    apply elem_of_cons in Hin as [[= -> ->]|Hin]; [vm_compute; discriminate|].
    by apply elem_of_nil in Hin.
Defined.

(** ** More on [inline_singles] *)

(** X16: a candidate that goes through. When both files can be read,
    the content file holds a directive that matches and may be written, and
    the reusable file may be removed, the content file gets the text with
    the directive replaced, keeping its permissions, the reusable file is
    removed, every other path is as it was, and the report says so. *)
Theorem inline_one_succeeds
    fs out key c rest fk fc reusable_text content_text :
  fs !! key = Some fk → read fk = inr reusable_text →
  fs !! c = Some fc → read fc = inr content_text →
  existsb (key_matches key) (finditer content_text) = true →
  may_write fc = true → may_unlink fk = true →
  let new_text := inlined_text key reusable_text content_text in
  let '(fs', out') := inline_one (fs, out) (key, c :: rest) in
  out' = out ++ [InlineOk key c] ∧
  fs' !! key = None ∧
  (c ≠ key → fs' !! c = Some (rewritten fc new_text)) ∧
  (∀ p, p ≠ key → p ≠ c → fs' !! p = fs !! p).
Proof.
  intros Hk Hrk Hc Hrc Hex Hw Hu new_text.
  rewrite (inline_one_ok _ _ _ _ _ _ _ _ _ Hk Hrk Hc Hrc Hex Hw Hu).
  split_and!; [done|apply lookup_delete_eq|..].
  - intros Hne. by rewrite lookup_delete_ne, lookup_insert_eq.
  - intros p Hpk Hpc. by rewrite lookup_delete_ne, lookup_insert_ne.
Qed.

Lemma inline_one_succeeds_witness :
  (inline_one (example_fs, []) (tip_md, [page_md])).1 !! tip_md = None.
Proof.
  pose proof (inline_one_succeeds example_fs [] tip_md page_md []
                (plain_file (py "Inlined tip." ++ [NL]))
                (plain_file page_text) (py "Inlined tip." ++ [NL]) page_text
                eq_refl eq_refl eq_refl eq_refl eq_refl eq_refl eq_refl) as H.
  cbn zeta in H.
  destruct (inline_one (example_fs, []) (tip_md, [page_md])) as [fs' out'].
  by destruct H as (_ & H & _).
Defined.

(** X17: a candidate that is written but not removed. When the system
    does not let the reusable file be removed, the content file has been
    rewritten all the same, the reusable file is still there, and the report
    is the one of a failed file operation. *)
Theorem inline_one_written_not_removed
    fs out key c rest fk fc reusable_text content_text :
  fs !! key = Some fk → read fk = inr reusable_text →
  fs !! c = Some fc → read fc = inr content_text →
  existsb (key_matches key) (finditer content_text) = true →
  may_write fc = true → may_unlink fk = false →
  let fs' := <[c := rewritten fc
                      (inlined_text key reusable_text content_text)]> fs in
  inline_one (fs, out) (key, c :: rest) =
    (fs', out ++ [InlineErrorFileOp OSError]) ∧
  is_Some (fs' !! key) ∧
  (c ≠ key → fs' !! key = Some fk).
Proof.
  intros Hk Hrk Hc Hrc Hex Hw Hu fs'.
  rewrite (inline_one_writes _ _ _ _ _ _ _ _ _ Hk Hrk Hc Hrc Hex).
  unfold write_text, unlink, fs', rewritten. rewrite Hc, Hw.
  destruct (decide (c = key)) as [->|Hne].
  - rewrite !lookup_insert_eq. cbn [may_unlink].
    rewrite Hk in Hc. injection Hc as <-. rewrite Hu. by split_and!.
  - rewrite !lookup_insert_ne, Hk, Hu by done. by split_and!.
Qed.

Lemma inline_one_written_not_removed_witness :
  let locked := File (inr (py "Inlined tip." ++ [NL])) true false in
  let fs := <[tip_md := locked]> example_fs in
  (inline_one (fs, []) (tip_md, [page_md])).1 !! tip_md = Some locked ∧
  read_text (inline_one (fs, []) (tip_md, [page_md])).1 page_md
  = inr (inlined_text tip_md (py "Inlined tip." ++ [NL]) page_text).
Proof.
  intros locked fs.
  destruct (inline_one_written_not_removed fs [] tip_md page_md []
              locked (plain_file page_text) (py "Inlined tip." ++ [NL])
              page_text) as (-> & _ & Hkey);
    try (vm_compute; reflexivity).
  split; [apply Hkey; discriminate|].
  vm_compute. reflexivity.
Defined.

Lemma inline_one_not_on_disk fs out key c rest :
  fs !! key = None →
  inline_one (fs, out) (key, c :: rest) =
  (fs, out ++ [InlineSkipNotOnDisk key]).
Proof. intros Hk. unfold inline_one. by rewrite (exists_None _ _ Hk). Qed.

(** X18: the candidates that are given up. A reusable file that is not
    on disk, a reusable file or a content file that cannot be read, and a
    content file that may not be written each cost one report, and the file
    system is as it was. *)
Theorem inline_one_gives_up fs out key c rest :
  (fs !! key = None →
   inline_one (fs, out) (key, c :: rest) =
   (fs, out ++ [InlineSkipNotOnDisk key])) ∧
  (∀ exc, is_Some (fs !! key) → read_text fs key = inl exc →
   inline_one (fs, out) (key, c :: rest) =
   (fs, out ++ [InlineErrorRead exc])) ∧
  (∀ reusable_text exc,
   read_text fs key = inr reusable_text → read_text fs c = inl exc →
   inline_one (fs, out) (key, c :: rest) =
   (fs, out ++ [InlineErrorRead exc])) ∧
  (∀ reusable_text content_text fc,
   read_text fs key = inr reusable_text →
   fs !! c = Some fc → read fc = inr content_text →
   existsb (key_matches key) (finditer content_text) = true →
   may_write fc = false →
   inline_one (fs, out) (key, c :: rest) =
   (fs, out ++ [InlineErrorFileOp OSError])).
Proof.
  split_and!.
  - apply inline_one_not_on_disk.
  - intros exc [fk Hk] Hr. unfold inline_one.
    by rewrite (exists_Some _ _ _ Hk), Hr.
  - intros rt exc Hr Hc. unfold inline_one.
    pose proof Hr as (fk & Hk & _)%read_text_Some.
    by rewrite (exists_Some _ _ _ Hk), Hr, Hc.
  - intros rt ct fc (fk & Hk & Hrk)%read_text_Some Hc Hrc Hex Hw.
    rewrite (inline_one_writes _ _ _ _ _ _ _ _ _ Hk Hrk Hc Hrc Hex).
    unfold write_text. by rewrite Hc, Hw.
Qed.

Lemma foldl_inline_one_absent st (items : list (str * list str)) :
  Forall (λ item, st.1 !! item.1 = None ∧ item.2 ≠ []) items →
  foldl inline_one st items =
  (st.1, st.2 ++ (InlineSkipNotOnDisk <$> items.*1)).
Proof.
  revert st. induction items as [|[key locs] items IH]; intros [fs out].
  - intros _. cbn. by rewrite app_nil_r.
  - intros [[Hk Hl] Hitems]%Forall_cons_1. cbn [fst snd] in *.
    destruct locs as [|c rest]; [done|]. cbn [foldl].
    rewrite (inline_one_not_on_disk fs out key c rest Hk).
    rewrite IH by done. cbn [fst snd fmap list_fmap].
    by rewrite <- app_assoc.
Qed.

Lemma elem_of_singles_one (u : usage_map) key locs :
  (key, locs) ∈ singles u → ∃ c, locs = [c] ∧ u !! key = Some [c].
Proof.
  intros [Hk Hl]%elem_of_singles. destruct locs as [|c [|]]; try done.
  by exists c.
Qed.

(** X19: nothing to do. When no key has a list of one element,
    [inline_singles] prints one line and leaves the file system alone; when
    the reusable file of every such key is not on disk, as after a run that
    has inlined them all, it skips them all, in ascending order of the keys,
    and leaves the file system alone. *)
Theorem inline_singles_nothing_to_do (u : usage_map) fs :
  ((∀ key c, u !! key ≠ Some [c]) →
   inline_singles u fs = (fs, [InlineNothing])) ∧
  ((∃ key c, u !! key = Some [c]) →
   (∀ key c, u !! key = Some [c] → fs !! key = None) →
   inline_singles u fs =
   (fs, InlineHeader (length (singles u))
        :: (InlineSkipNotOnDisk <$> (singles u).*1))) ∧
  StronglySorted str_le (singles u).*1.
Proof.
  split_and!.
  - intros Hno. unfold inline_singles.
    destruct (singles u) as [|[key locs] items] eqn:Hu; [done|].
    assert ((key, locs) ∈ singles u) as Hin by (rewrite Hu; by left).
    apply elem_of_singles_one in Hin as (c & -> & Hc). by destruct (Hno key c).
  - intros (key & c & Hkc) Habs.
    rewrite inline_singles_unfold.
    + rewrite foldl_inline_one_absent; [done|].
      apply Forall_forall. intros [k locs] (c' & -> & Hk)%elem_of_singles_one.
      split; [by eapply Habs | done].
    + intros Hnil. assert ((key, [c]) ∈ singles u) as Hin.
      { by apply elem_of_singles. }
      rewrite Hnil in Hin. by apply elem_of_nil in Hin.
  - pose proof (singles_sorted u) as Hs.
    induction Hs as [|item items Hitem Hs IH]; [constructor|].
    cbn [fmap list_fmap]. constructor; [done|].
    apply Forall_fmap. by eapply Forall_impl.
Qed.

Lemma inline_singles_nothing_to_do_witness :
  inline_singles stale_usages (delete tip_md example_fs)
  = (delete tip_md example_fs, [InlineHeader 1; InlineSkipNotOnDisk tip_md]).
Proof.
  rewrite (proj1 (proj2 (inline_singles_nothing_to_do
             stale_usages (delete tip_md example_fs)))).
  - reflexivity.
  - exists tip_md, plain_md. reflexivity.
  - intros key c Hkey. unfold stale_usages in Hkey.
    apply lookup_singleton_Some in Hkey as [<- _].
    reflexivity.
Defined.

Lemma inline_one_kept fs out key c rest p f' :
  (inline_one (fs, out) (key, c :: rest)).1 !! p = Some f' →
  ∃ f, fs !! p = Some f ∧
       may_write f' = may_write f ∧ may_unlink f' = may_unlink f ∧
       (read f' = read f ∨ p = c).
Proof.
  unfold inline_one.
  destruct (negb (exists_ fs key)); [by eauto 10|].
  destruct (read_text fs key) as [|reusable_text]; [by eauto 10|].
  destruct (read_text fs c) as [|content_text] eqn:Hrc; [by eauto 10|].
  destruct (sub _ _ _) as [new_content replaced].
  destruct (negb replaced); [by eauto 10|].
  apply read_text_Some in Hrc as (fc & Hc & _).
  unfold write_text. rewrite Hc.
  destruct (may_write fc) eqn:Hmw; [|by eauto 10].
  assert (∀ q g, <[c := File (inr new_content) true (may_unlink fc)]> fs !! q
                 = Some g →
                 ∃ f, fs !! q = Some f ∧ may_write g = may_write f ∧
                      may_unlink g = may_unlink f ∧
                      (read g = read f ∨ q = c)) as Hins.
  { intros q g. rewrite lookup_insert. case_decide as Hq.
    - subst q. intros [= <-]. exists fc. cbn. by split_and!; [| |done|right].
    - eauto 10. }
  destruct (unlink _ key) as [|fs2] eqn:Hu; cbn [fst]; [by apply Hins|].
  erewrite unlink_lookup by done. case_decide; [done | by apply Hins].
Qed.

Lemma foldl_inline_one_kept (u : usage_map) st (items : list (str * list str)) :
  Forall (λ item, ∃ c, item.2 = [c] ∧ u !! item.1 = Some [c]) items →
  kept_from u st.1 (foldl inline_one st items).1.
Proof.
  revert st. induction items as [|[key locs] items IH]; intros [fs out].
  - intros _ p f' Hp. exists f'. by split_and!; [..|left].
  - intros [(c & Hl & Hu) Hitems]%Forall_cons_1. cbn [fst snd] in *.
    subst locs. cbn [foldl]. intros p f' Hp.
    destruct (inline_one (fs, out) (key, [c])) as [fs1 out1] eqn:Hstep.
    destruct (IH (fs1, out1) Hitems p f' Hp) as (f1 & Hf1 & Hw1 & Hu1 & Hr1).
    cbn [fst] in Hf1.
    pose proof (inline_one_kept fs out key c [] p f1) as Hk.
    rewrite Hstep in Hk. destruct (Hk Hf1) as (f & Hf & Hw & Hul & Hr).
    exists f. split_and!; [done|congruence..|].
    destruct Hr1 as [Hr1|Hr1]; [|by right].
    destruct Hr as [Hr| ->]; [left; congruence | right; eauto].
Qed.

Lemma inline_singles_kept (u : usage_map) fs :
  kept_from u fs (inline_singles u fs).1.
Proof.
  unfold inline_singles. destruct (singles u) as [|item items] eqn:Hu.
  - intros p f' Hp. exists f'. by split_and!; [..|left].
  - rewrite <- Hu. apply (foldl_inline_one_kept u (fs, _)).
    apply Forall_forall. intros [key locs] (c & -> & Hk)%elem_of_singles_one.
    by exists c.
Qed.

(** X20: what [inline_singles] never does. It adds no file and changes
    no permission, and the only files whose contents it changes are the
    content files named by the keys with one use: every file there is
    afterwards was there before with the same permissions, and with the same
    contents unless it is such a content file. *)
Theorem inline_singles_keeps (u : usage_map) fs :
  kept_from u fs (inline_singles u fs).1.
Proof. apply inline_singles_kept. Qed.

(** X21: inlining right after a scan. For the first candidate, whose
    files are still as the scan read them, the directive is always there:
    a reusable file that the scan has found used once, by [c], is matched by
    a directive of [c]; so when the files may be read, written and removed,
    the candidate goes through. *)
Theorem inline_after_scan
    fs (reusable_md content_md : list str) out key c fk fc
    reusable_text content_text :
  usages (find_usages fs reusable_md content_md) !! key = Some [c] →
  fs !! key = Some fk → read fk = inr reusable_text →
  fs !! c = Some fc → read fc = inr content_text →
  may_write fc = true → may_unlink fk = true →
  existsb (key_matches key) (finditer content_text) = true ∧
  inline_one (fs, out) (key, [c]) =
  (delete key
     (<[c := rewritten fc (inlined_text key reusable_text content_text)]> fs),
   out ++ [InlineOk key c]).
Proof.
  intros Hu Hk Hrk Hc Hrc Hw Hul.
  assert (existsb (key_matches key) (finditer content_text) = true) as Hex.
  { rewrite find_usages_usages in Hu. case_decide; [|done].
    injection Hu as Hu.
    assert (c ∈ uses_of reusable_md key (occurrences fs content_md)) as Hin
      by (rewrite Hu; by left).
    unfold uses_of in Hin.
    apply list_elem_of_fmap in Hin as ([c' ref] & -> & Hin).
    apply list_elem_of_filter in Hin as [Hres Hin]. cbn [fst snd] in *.
    apply elem_of_occurrences in Hin as (_ & text & Hr & Href).
    unfold read_text in Hr. rewrite Hc, Hrc in Hr. injection Hr as <-.
    apply resolve_Some in Hres as (_ & _ & _ & Hm & _).
    apply existsb_exists. exists ref. split; [|done].
    by apply list_elem_of_In. }
  split; [done|]. by eapply inline_one_ok.
Qed.

Lemma inline_after_scan_witness :
  inline_one (example_fs, []) (tip_md, [page_md]) =
  (delete tip_md
     (<[page_md := rewritten (plain_file page_text)
                     (inlined_text tip_md (py "Inlined tip." ++ [NL])
                                   page_text)]> example_fs),
   [] ++ [InlineOk tip_md page_md]).
Proof.
  refine (proj2 (inline_after_scan example_fs example_reusable [page_md] []
                   tip_md page_md (plain_file (py "Inlined tip." ++ [NL]))
                   (plain_file page_text) (py "Inlined tip." ++ [NL])
                   page_text _ _ _ _ _ _ _));
    vm_compute; reflexivity.
Defined.

(** ** [report] *)

Example report_example :
  report [(py "b.md", [py "p"; py "p"]); (py "a.md", []); (py "c.md", [py "q"; py "p"])]
         {[ py "ghost.md" ]} true true
  = [ReportTitle 3; ReportRule;
     AlertHeader 1; Alert (py "a.md") ZeroUses;
     MissingHeader 1; MissingRef (py "ghost.md");
     TableHeader; TableRule;
     Row (py "b.md") 2; RowLocation (py "p");
     Row (py "c.md") 2; RowLocation (py "p"); RowLocation (py "q");
     Row (py "a.md") 0;
     ReportEnd].
Proof. vm_compute. reflexivity. Qed.

Lemma insert_by_uses_Permutation x l : insert_by_uses x l ≡ₚ x :: l.
Proof.
  induction l as [|y l IH]; [done|]. cbn [insert_by_uses].
  destruct (length x.2 <? length y.2)%nat; [|done].
  rewrite IH. apply Permutation_swap.
Qed.

Lemma sort_by_uses_Permutation items : sort_by_uses items ≡ₚ items.
Proof.
  induction items as [|x items IH]; [done|]. cbn [sort_by_uses foldr].
  fold (sort_by_uses items). by rewrite insert_by_uses_Permutation, IH.
Qed.

Lemma insert_by_uses_sorted x l :
  StronglySorted more_uses l → StronglySorted more_uses (insert_by_uses x l).
Proof.
  induction 1 as [|y l Hl IH Hy]; cbn [insert_by_uses].
  - by repeat constructor.
  - destruct (Nat.ltb_spec (length x.2) (length y.2)).
    + constructor; [done|]. rewrite insert_by_uses_Permutation.
      constructor; [unfold more_uses; lia | done].
    + constructor; [by constructor|]. constructor; [done|].
      eapply Forall_impl; [exact Hy|]. unfold more_uses. intros; lia.
Qed.

Lemma sort_by_uses_sorted items : StronglySorted more_uses (sort_by_uses items).
Proof.
  induction items as [|x items IH]; [constructor|].
  by apply insert_by_uses_sorted.
Qed.

Lemma insert_by_uses_filter n x l :
  filter (λ kv, length kv.2 = n) (insert_by_uses x l) =
  filter (λ kv, length kv.2 = n) (x :: l).
Proof.
  induction l as [|y l IH]; [done|]. cbn [insert_by_uses].
  destruct (Nat.ltb_spec (length x.2) (length y.2)); [|done].
  rewrite filter_cons, IH, !filter_cons.
  repeat case_decide; try done; lia.
Qed.

Lemma sort_by_uses_filter n items :
  filter (λ kv, length kv.2 = n) (sort_by_uses items) =
  filter (λ kv, length kv.2 = n) items.
Proof.
  induction items as [|x items IH]; [done|]. cbn [sort_by_uses foldr].
  fold (sort_by_uses items). by rewrite insert_by_uses_filter, !filter_cons, IH.
Qed.

Section projections.
Context {B : Type} (f : report_line → option B).

Lemma omap_bind_nil {A} (g : A → list report_line) l :
  (∀ x, omap f (g x) = []) → omap f (l ≫= g) = [].
Proof.
  intros Hg. induction l as [|x l IH]; [done|].
  cbn [mbind list_bind]. fold (mbind g l). by rewrite omap_app, Hg, IH.
Qed.

Lemma omap_fmap_nil {A} (g : A → report_line) l :
  (∀ x, f (g x) = None) → omap f (g <$> l) = [].
Proof.
  intros Hg. induction l as [|x l IH]; [done|].
  cbn [fmap list_fmap omap list_omap]. by rewrite Hg, IH.
Qed.

Lemma omap_bind_one {A} (g : A → list report_line) (h : A → B) l :
  (∀ x, omap f (g x) = [h x]) → omap f (l ≫= g) = h <$> l.
Proof.
  intros Hg. induction l as [|x l IH]; [done|].
  cbn [mbind list_bind]. fold (mbind g l). by rewrite omap_app, Hg, IH.
Qed.

End projections.

Lemma alert_lines_rows sl item :
  omap (λ l, match l with Row p n => Some (p, n) | _ => None end)
       (alert_lines sl item) = [].
Proof.
  destruct item as [p locs]. cbn [alert_lines omap list_omap].
  destruct sl, locs; try done. by apply omap_fmap_nil.
Qed.

Lemma row_lines_rows sl item :
  omap (λ l, match l with Row p n => Some (p, n) | _ => None end)
       (row_lines sl item) = [(item.1, length item.2)].
Proof.
  destruct item as [p locs]. cbn [row_lines omap list_omap fst snd].
  f_equal. destruct sl, locs; try done. by apply omap_fmap_nil.
Qed.

Lemma rows_alert_section items sl :
  omap (λ l, match l with Row p n => Some (p, n) | _ => None end)
       (alert_section items sl) = [].
Proof.
  unfold alert_section. destruct (report_errors items) as [|x l]; [done|].
  cbn [omap list_omap]. apply omap_bind_nil, alert_lines_rows.
Qed.

Lemma rows_missing_section missing sm :
  omap (λ l, match l with Row p n => Some (p, n) | _ => None end)
       (missing_section missing sm) = [].
Proof.
  unfold missing_section. destruct sm; [|done]. case_decide; [done|].
  cbn [omap list_omap]. by apply omap_fmap_nil.
Qed.

Lemma rows_report items missing sl sm :
  rows (report items missing sl sm) =
  (λ kv, (kv.1, length kv.2)) <$> sort_by_uses items.
Proof.
  unfold rows, report, table_section.
  rewrite !omap_app, rows_alert_section, rows_missing_section.
  cbn [omap list_omap app].
  by rewrite (omap_bind_one _ _ _ _ (row_lines_rows sl)), app_nil_r.
Qed.

(** X22: the table of the report has one row for every reusable file,
    with the number of its uses; the rows stand in descending order of that
    number, and files with the same number stand in the order of the dict,
    not in the order of their paths. The title gives the number of rows. *)
Theorem report_table items missing sl sm :
  let out := report items missing sl sm in
  let table := sort_by_uses items in
  rows out = (λ kv, (kv.1, length kv.2)) <$> table ∧
  table ≡ₚ items ∧
  StronglySorted more_uses table ∧
  (∀ n, filter (λ kv, length kv.2 = n) table
        = filter (λ kv, length kv.2 = n) items) ∧
  head out = Some (ReportTitle (length (rows out))).
Proof.
  intros out table. unfold out, table. split_and!.
  - apply rows_report.
  - apply sort_by_uses_Permutation.
  - apply sort_by_uses_sorted.
  - intros n. apply sort_by_uses_filter.
  - rewrite rows_report, length_fmap, sort_by_uses_Permutation. done.
Qed.

Lemma StronglySorted_filter {A} (R : relation A) (P : A → Prop)
    `{∀ x, Decision (P x)} l :
  StronglySorted R l → StronglySorted R (filter P l).
Proof.
  induction 1 as [|x l Hl IH Hx]; [constructor|].
  rewrite filter_cons. case_decide; [|done].
  constructor; [done|]. rewrite Forall_forall in Hx |- *.
  intros y [_ Hy]%list_elem_of_filter. by apply Hx.
Qed.

#[local] Instance str_le_antisym : AntiSymm (=) str_le.
Proof.
  intros a b Hab%Is_true_true Hba%Is_true_true. by apply str_leb_antisym.
Qed.

Lemma alert_lines_alerts sl item :
  alerts (alert_lines sl item) = [(item.1, label_of item.2)].
Proof.
  destruct item as [p locs]. unfold alerts.
  cbn [alert_lines omap list_omap fst snd]. f_equal.
  destruct sl, locs; try done. by apply omap_fmap_nil.
Qed.

Lemma row_lines_alerts sl item : alerts (row_lines sl item) = [].
Proof.
  destruct item as [p locs]. unfold alerts. cbn [row_lines omap list_omap].
  destruct sl, locs; try done. by apply omap_fmap_nil.
Qed.

Lemma alerts_report items missing sl sm :
  alerts (report items missing sl sm) =
  (λ kv, (kv.1, label_of kv.2)) <$> report_errors items.
Proof.
  unfold report, alerts at 1. rewrite !omap_app. cbn [omap list_omap app].
  fold (alerts (alert_section items sl)).
  assert (alerts (alert_section items sl)
          = (λ kv, (kv.1, label_of kv.2)) <$> report_errors items) as ->.
  { unfold alert_section. destruct (report_errors items) as [|x l]; [done|].
    unfold alerts. cbn [omap list_omap].
    apply (omap_bind_one _ _ _ _ (alert_lines_alerts sl)). }
  assert (omap (λ l, match l with Alert p lab => Some (p, lab) | _ => None end)
               (missing_section missing sm) = []) as ->.
  { unfold missing_section. destruct sm; [|done]. case_decide; [done|].
    cbn [omap list_omap]. by apply omap_fmap_nil. }
  unfold table_section. rewrite omap_app. cbn [omap list_omap app].
  rewrite (omap_bind_nil _ _ _ (row_lines_alerts sl)).
  by rewrite app_nil_r.
Qed.

Lemma elem_of_report_errors items p locs :
  (p, locs) ∈ report_errors items ↔
  (p, locs) ∈ items ∧ (length locs ≤ 1)%nat.
Proof.
  unfold report_errors. rewrite list_elem_of_filter, merge_sort_Permutation.
  cbn. tauto.
Qed.

Lemma report_errors_sorted items :
  StronglySorted item_le (report_errors items).
Proof.
  apply StronglySorted_filter, StronglySorted_merge_sort; apply _.
Qed.

Lemma StronglySorted_fst (l : list (str * list str)) :
  StronglySorted item_le l → StronglySorted str_le l.*1.
Proof.
  induction 1 as [|x l Hl IH Hx]; [constructor|].
  cbn [fmap list_fmap]. constructor; [done|]. by apply Forall_fmap.
Qed.

Lemma alert_section_all_ok items sl :
  AllUsedMoreThanOnce ∈ alert_section items sl ↔ report_errors items = [].
Proof.
  unfold alert_section. destruct (report_errors items) as [|x l].
  - split; [done|]. intros _. by left.
  - split; [|done]. intros [[=]|Hin]%elem_of_cons.
    apply list_elem_of_bind in Hin as ([p locs] & Hin & _).
    cbn [alert_lines] in Hin. apply elem_of_cons in Hin as [[=]|Hin].
    destruct sl, locs; try by apply elem_of_nil in Hin.
    by apply list_elem_of_fmap in Hin as (? & [=] & _).
Qed.

(** X23: the alert section of the report lists the reusable files with
    no use or with one use, each once with its label, in ascending order of
    their paths, whatever the order of the dict; and the line that says that
    all files are used more than once is printed exactly when there is no
    such file. *)
Theorem report_alerts items missing sl sm :
  let out := report items missing sl sm in
  (∀ p lab, (p, lab) ∈ alerts out ↔
            ∃ locs, (p, locs) ∈ items ∧ (length locs ≤ 1)%nat ∧
                    lab = label_of locs) ∧
  StronglySorted str_le (alerts out).*1 ∧
  (alerts out = [] ↔ ∀ item, item ∈ items → (2 ≤ length item.2)%nat) ∧
  (alerts out = [] → AllUsedMoreThanOnce ∈ out).
Proof.
  intros out. unfold out. rewrite alerts_report. split_and!.
  - intros p lab. rewrite list_elem_of_fmap. split.
    + intros ([p' locs] & [= -> ->] & Hin%elem_of_report_errors).
      exists locs. by destruct Hin.
    + intros (locs & Hin & Hlen & ->). exists (p, locs). split; [done|].
      by apply elem_of_report_errors.
  - rewrite <- list_fmap_compose.
    apply (StronglySorted_fst (report_errors items)), report_errors_sorted.
  - split.
    + intros Hnil%fmap_nil_inv [p locs] Hin. cbn [snd].
      destruct (decide (length locs ≤ 1)%nat) as [Hle|]; [|lia].
      assert ((p, locs) ∈ report_errors items) as Hin'.
      { by apply elem_of_report_errors. }
      rewrite Hnil in Hin'. by apply elem_of_nil in Hin'.
    + intros Hall. destruct (report_errors items) as [|[p locs] l] eqn:He;
        [done|]. exfalso.
      assert ((p, locs) ∈ report_errors items) as Hin by (rewrite He; by left).
      apply elem_of_report_errors in Hin as [Hin Hle].
      apply Hall in Hin. cbn in Hin. lia.
  - intros Hnil%fmap_nil_inv. unfold report.
    rewrite !elem_of_app. right. left. by apply alert_section_all_ok.
Qed.

Lemma items_of_elem (u : usage_map) items p locs :
  items_of u items → (p, locs) ∈ items ↔ u !! p = Some locs.
Proof. intros ->. apply elem_of_map_to_list. Qed.

Lemma items_of_NoDup (u : usage_map) items : items_of u items → NoDup items.*1.
Proof. intros ->. apply NoDup_fst_map_to_list. Qed.

Lemma alerted_report lab items missing sl sm :
  alerted lab (report items missing sl sm) =
  (filter (λ kv, (length kv.2 ≤ 1)%nat ∧ label_of kv.2 = lab)
          (merge_sort item_le items)).*1.
Proof.
  unfold alerted. rewrite alerts_report. unfold report_errors.
  induction (merge_sort item_le items) as [|[p locs] l IH]; [done|].
  rewrite !filter_cons. cbn [fst snd].
  destruct (decide (length locs ≤ 1)%nat) as [Hle|Hle].
  - rewrite fmap_cons, filter_cons. cbn [fst snd].
    destruct (decide (label_of locs = lab)) as [Hlab|Hlab].
    + rewrite decide_True by done. cbn [fmap list_fmap fst]. f_equal. apply IH.
    + rewrite decide_False by tauto. apply IH.
  - rewrite decide_False by tauto. apply IH.
Qed.

Lemma alerted_sorted lab items missing sl sm :
  StronglySorted str_le (alerted lab (report items missing sl sm)).
Proof.
  rewrite alerted_report.
  apply StronglySorted_fst, StronglySorted_filter, StronglySorted_merge_sort;
    apply _.
Qed.

Lemma label_of_zero (locs : list str) :
  ((length locs ≤ 1)%nat ∧ label_of locs = ZeroUses) ↔ length locs = 0%nat.
Proof.
  unfold label_of. destruct locs as [|? [|? ?]]; cbn [length Nat.eqb];
    split; try intros [? ?]; try done; try lia; split; done || lia.
Qed.

Lemma label_of_one (locs : list str) :
  ((length locs ≤ 1)%nat ∧ label_of locs = OneUse) ↔ length locs = 1%nat.
Proof.
  unfold label_of. destruct locs as [|? [|? ?]]; cbn [length Nat.eqb];
    split; try intros [? ?]; try done; try lia; split; done || lia.
Qed.

Lemma alerted_candidates (u : usage_map) items missing sl sm :
  items_of u items →
  alerted ZeroUses (report items missing sl sm) = unused u ∧
  alerted OneUse (report items missing sl sm) = (singles u).*1.
Proof.
  intros Hitems. split.
  - apply (StronglySorted_unique str_le);
      [apply alerted_sorted|apply unused_sorted|].
    rewrite alerted_report. unfold unused.
    rewrite !merge_sort_Permutation, Hitems.
    apply fmap_Permutation. erewrite list_filter_iff; [done|].
    intros [p locs]. apply label_of_zero.
  - apply (StronglySorted_unique str_le);
      [apply alerted_sorted|apply StronglySorted_fst, singles_sorted|].
    rewrite alerted_report. unfold singles.
    rewrite !merge_sort_Permutation, Hitems.
    apply fmap_Permutation. erewrite list_filter_iff; [done|].
    intros [p locs]. apply label_of_one.
Qed.

(** X24: the files the report alerts with no use are the files
    [delete_unused] goes through, and the files it alerts with one use are
    the files [inline_singles] goes through, in the same order, when the
    three are given the same dict. *)
Theorem report_alerts_are_candidates (u : usage_map) items missing sl sm :
  items_of u items →
  alerted ZeroUses (report items missing sl sm) = unused u ∧
  alerted OneUse (report items missing sl sm) = (singles u).*1.
Proof. apply alerted_candidates. Qed.

Lemma report_alerts_are_candidates_witness :
  alerted ZeroUses
    (report (map_to_list (usages (find_usages example_fs example_reusable
                                    [page_md; twice_md])))
            ∅ true true)
  = unused (usages (find_usages example_fs example_reusable
                      [page_md; twice_md])) ∧
  alerted OneUse
    (report (map_to_list (usages (find_usages example_fs example_reusable
                                    [page_md; twice_md])))
            ∅ true true)
  = (singles (usages (find_usages example_fs example_reusable
                        [page_md; twice_md]))).*1.
Proof.
  apply (report_alerts_are_candidates
           (usages (find_usages example_fs example_reusable
                      [page_md; twice_md]))).
  unfold items_of. reflexivity.
Defined.

Lemma omap_bind {A B} (f : report_line → option B)
    (g : A → list report_line) (l : list A) :
  omap f (l ≫= g) = l ≫= (λ x, omap f (g x)).
Proof.
  induction l as [|x l IH]; [done|].
  cbn [mbind list_bind]. fold (mbind g l).
  fold (mbind (λ x, omap f (g x)) l). by rewrite omap_app, IH.
Qed.

Lemma omap_fmap_id {A B} (f : report_line → option B) (g : A → report_line)
    (h : A → B) (l : list A) :
  (∀ x, f (g x) = Some (h x)) → omap f (g <$> l) = h <$> l.
Proof.
  intros Hg. induction l as [|x l IH]; [done|].
  cbn [fmap list_fmap omap list_omap]. by rewrite Hg, IH.
Qed.

Lemma missing_refs_report items missing sl sm :
  missing_refs (report items missing sl sm) =
  if sm then merge_sort str_le (elements missing) else [].
Proof.
  unfold missing_refs, report, table_section. rewrite !omap_app.
  cbn [omap list_omap app].
  assert (omap (λ l, match l with MissingRef r => Some r | _ => None end)
               (alert_section items sl) = []) as ->.
  { unfold alert_section. destruct (report_errors items) as [|x l]; [done|].
    cbn [omap list_omap]. apply omap_bind_nil. intros [p locs].
    cbn [alert_lines omap list_omap]. destruct sl, locs; try done.
    by apply omap_fmap_nil. }
  rewrite (omap_bind_nil _ (row_lines sl)), app_nil_r.
  2:{ intros [p locs]. cbn [row_lines omap list_omap].
      destruct sl, locs; try done. by apply omap_fmap_nil. }
  cbn [app]. unfold missing_section. destruct sm; [|done].
  case_decide as Hm.
  - subst missing. by rewrite elements_empty.
  - cbn [omap list_omap]. rewrite (omap_fmap_id _ _ id) by done.
    by rewrite list_fmap_id.
Qed.

Lemma alert_section_no_missing_line items sl :
  Forall (λ l, is_missing_line l = false) (alert_section items sl).
Proof.
  unfold alert_section. destruct (report_errors items) as [|x l].
  { by repeat constructor. }
  constructor; [done|]. apply Forall_forall. intros line Hin.
  apply list_elem_of_bind in Hin as ([p locs] & Hin & _).
  cbn [alert_lines] in Hin. apply elem_of_cons in Hin as [->|Hin]; [done|].
  destruct sl, locs; try by apply elem_of_nil in Hin.
  by apply list_elem_of_fmap in Hin as (? & -> & _).
Qed.

Lemma table_section_no_missing_line items sl :
  Forall (λ l, is_missing_line l = false) (table_section items sl).
Proof.
  unfold table_section. repeat (constructor; [done|]).
  apply Forall_forall. intros line Hin.
  apply list_elem_of_bind in Hin as ([p locs] & Hin & _).
  cbn [row_lines] in Hin. apply elem_of_cons in Hin as [->|Hin]; [done|].
  destruct sl, locs; try by apply elem_of_nil in Hin.
  by apply list_elem_of_fmap in Hin as (? & -> & _).
Qed.

Lemma elem_of_section_fixed (l : report_line) items missing sl sm :
  l ∈ report items missing sl sm ↔
  l = ReportTitle (length items) ∨ l = ReportRule ∨
  l ∈ alert_section items sl ∨ l ∈ missing_section missing sm ∨
  l ∈ table_section items sl ∨ l = ReportEnd.
Proof.
  unfold report. rewrite !elem_of_app, !elem_of_cons, !elem_of_nil.
  tauto.
Qed.

(** X25: without [show_missing] the report has no line about missing
    references. With it, the report lists the references of [missing], each
    once and in ascending order, under a header with their number, or, when
    there is none, the line that says that all referenced files exist. *)
Theorem report_missing items missing sl :
  Forall (λ l, is_missing_line l = false) (report items missing sl false) ∧
  let out := report items missing sl true in
  (∀ ref, ref ∈ missing_refs out ↔ ref ∈ missing) ∧
  NoDup (missing_refs out) ∧
  StronglySorted str_le (missing_refs out) ∧
  (NothingMissing ∈ out ↔ missing = ∅) ∧
  (∀ n, MissingHeader n ∈ out ↔ missing ≠ ∅ ∧ n = size missing).
Proof.
  split; [|cbv zeta; split_and!].
  - unfold report. rewrite !Forall_app. split_and!.
    + by repeat constructor.
    + apply alert_section_no_missing_line.
    + constructor.
    + apply table_section_no_missing_line.
    + by repeat constructor.
  - intros ref. rewrite missing_refs_report, merge_sort_Permutation.
    apply elem_of_elements.
  - rewrite missing_refs_report, merge_sort_Permutation. apply NoDup_elements.
  - rewrite missing_refs_report. apply StronglySorted_merge_sort; apply _.
  - rewrite elem_of_section_fixed. split.
    + intros [[=]|[[=]|[Hin|[Hin|[Hin|[=]]]]]].
      * pose proof (alert_section_no_missing_line items sl) as Hall.
        rewrite Forall_forall in Hall. by apply Hall in Hin.
      * unfold missing_section in Hin. case_decide; [done|].
        apply elem_of_cons in Hin as [[=]|Hin].
        by apply list_elem_of_fmap in Hin as (? & [=] & _).
      * pose proof (table_section_no_missing_line items sl) as Hall.
        rewrite Forall_forall in Hall. by apply Hall in Hin.
    + intros ->. do 3 right. left. unfold missing_section.
      rewrite decide_True by done. by left.
  - intros n. rewrite elem_of_section_fixed. split.
    + intros [[=]|[[=]|[Hin|[Hin|[Hin|[=]]]]]].
      * pose proof (alert_section_no_missing_line items sl) as Hall.
        rewrite Forall_forall in Hall. by apply Hall in Hin.
      * unfold missing_section in Hin. case_decide.
        { by apply elem_of_cons in Hin as [[=]|Hin%elem_of_nil]. }
        apply elem_of_cons in Hin as [[= ->]|Hin]; [done|].
        by apply list_elem_of_fmap in Hin as (? & [=] & _).
      * pose proof (table_section_no_missing_line items sl) as Hall.
        rewrite Forall_forall in Hall. by apply Hall in Hin.
    + intros [Hne ->]. do 3 right. left. unfold missing_section.
      rewrite decide_False by done. by left.
Qed.

Lemma alert_section_no_location items :
  Forall (λ l, is_location l = false) (alert_section items false).
Proof.
  unfold alert_section. destruct (report_errors items) as [|x l].
  { by repeat constructor. }
  constructor; [done|]. apply Forall_forall. intros line Hin.
  apply list_elem_of_bind in Hin as ([p locs] & Hin & _).
  cbn [alert_lines] in Hin.
  by apply elem_of_cons in Hin as [->|Hin%elem_of_nil].
Qed.

Lemma table_section_no_location items :
  Forall (λ l, is_location l = false) (table_section items false).
Proof.
  unfold table_section. repeat (constructor; [done|]).
  apply Forall_forall. intros line Hin.
  apply list_elem_of_bind in Hin as ([p locs] & Hin & _).
  cbn [row_lines] in Hin.
  by apply elem_of_cons in Hin as [->|Hin%elem_of_nil].
Qed.

Lemma missing_section_no_location missing sm :
  Forall (λ l, is_location l = false) (missing_section missing sm).
Proof.
  unfold missing_section. destruct sm; [|constructor].
  case_decide; [by repeat constructor|]. constructor; [done|].
  apply Forall_forall. by intros line (? & -> & _)%list_elem_of_fmap.
Qed.

Lemma alert_lines_alert_locations item :
  alert_locations (alert_lines true item) = item.2.
Proof.
  destruct item as [p locs]. unfold alert_locations.
  cbn [alert_lines omap list_omap snd]. destruct locs as [|loc locs]; [done|].
  rewrite (omap_fmap_id _ _ id) by done. by rewrite list_fmap_id.
Qed.

Lemma row_lines_alert_locations sl item :
  alert_locations (row_lines sl item) = [].
Proof.
  destruct item as [p locs]. unfold alert_locations.
  cbn [row_lines omap list_omap]. destruct sl, locs; try done.
  by apply omap_fmap_nil.
Qed.

Lemma alert_lines_row_locations sl item :
  row_locations (alert_lines sl item) = [].
Proof.
  destruct item as [p locs]. unfold row_locations.
  cbn [alert_lines omap list_omap]. destruct sl, locs; try done.
  by apply omap_fmap_nil.
Qed.

Lemma row_lines_row_locations item :
  row_locations (row_lines true item) =
  merge_sort str_le (elements (list_to_set item.2 : gset (list N))).
Proof.
  destruct item as [p locs]. unfold row_locations.
  cbn [row_lines omap list_omap snd]. destruct locs as [|loc locs].
  { by rewrite list_to_set_nil, elements_empty. }
  rewrite (omap_fmap_id _ _ id) by done. by rewrite list_fmap_id.
Qed.

Lemma alert_locations_report items missing sm :
  alert_locations (report items missing true sm) =
  report_errors items ≫= snd.
Proof.
  unfold alert_locations, report, table_section. rewrite !omap_app.
  cbn [omap list_omap app].
  rewrite (omap_bind_nil _ (row_lines true)) by apply row_lines_alert_locations.
  assert (omap (λ l, match l with AlertLocation x => Some x | _ => None end)
               (missing_section missing sm) = []) as ->.
  { unfold missing_section. destruct sm; [|done]. case_decide; [done|].
    cbn [omap list_omap]. by apply omap_fmap_nil. }
  rewrite !app_nil_r. unfold alert_section.
  destruct (report_errors items) as [|x l] eqn:He; [done|].
  cbn [omap list_omap]. rewrite omap_bind.
  generalize (x :: l). intros k. induction k as [|y k IH]; [done|].
  cbn [mbind list_bind]. f_equal; [apply alert_lines_alert_locations|apply IH].
Qed.

Lemma row_locations_report items missing sm :
  row_locations (report items missing true sm) =
  sort_by_uses items ≫=
    (λ kv, merge_sort str_le (elements (list_to_set kv.2 : gset (list N)))).
Proof.
  unfold row_locations, report, table_section. rewrite !omap_app.
  cbn [omap list_omap app].
  assert (omap (λ l, match l with RowLocation x => Some x | _ => None end)
               (alert_section items true) = []) as ->.
  { unfold alert_section. destruct (report_errors items) as [|x l]; [done|].
    cbn [omap list_omap]. apply omap_bind_nil, alert_lines_row_locations. }
  assert (omap (λ l, match l with RowLocation x => Some x | _ => None end)
               (missing_section missing sm) = []) as ->.
  { unfold missing_section. destruct sm; [|done]. case_decide; [done|].
    cbn [omap list_omap]. by apply omap_fmap_nil. }
  rewrite app_nil_r. cbn [app]. rewrite omap_bind.
  generalize (sort_by_uses items). intros k.
  induction k as [|y k IH]; [done|].
  cbn [mbind list_bind]. f_equal; [apply row_lines_row_locations|apply IH].
Qed.

Lemma omap_fmap_Some {A B C} (f : B → option C) (g : A → B) (h : A → C)
    (l : list A) :
  (∀ x, f (g x) = Some (h x)) → omap f (g <$> l) = h <$> l.
Proof.
  intros Hg. induction l as [|x l IH]; [done|].
  cbn [fmap list_fmap omap list_omap]. by rewrite Hg, IH.
Qed.

Lemma omap_fmap_None {A B C} (f : B → option C) (g : A → B) (l : list A) :
  (∀ x, f (g x) = None) → omap f (g <$> l) = [].
Proof.
  intros Hg. induction l as [|x l IH]; [done|].
  cbn [fmap list_fmap omap list_omap]. by rewrite Hg, IH.
Qed.

Section blocks.
Context {A : Type} (opens : report_line → option A).
Context (loc : report_line → option str).

Lemma blocks_skip l1 l2 :
  omap opens l1 = [] → blocks opens loc (l1 ++ l2) = blocks opens loc l2.
Proof.
  induction l1 as [|l l1 IH]; [done|]. cbn [omap list_omap app blocks].
  destruct (opens l); [done|]. apply IH.
Qed.

Lemma blocks_none l : omap opens l = [] → blocks opens loc l = [].
Proof.
  intros H. rewrite <- (app_nil_r l). by rewrite blocks_skip.
Qed.

Lemma beneath_fmap (g : str → report_line) (L : list str) rest :
  (∀ x, loc (g x) = Some x) → beneath loc rest = [] →
  beneath loc ((g <$> L) ++ rest) = L.
Proof.
  intros Hg Hrest. induction L as [|x L IH]; [done|].
  cbn [fmap list_fmap app beneath]. rewrite Hg. f_equal. apply IH.
Qed.

(** The blocks of a run of entries, each a line that opens a block with
    location lines after it, in front of lines that start with no location
    line. *)
Lemma blocks_entries {B} (h : B → report_line) (g : str → report_line)
    (a : B → A) (L : B → list str) (entries : list B) rest :
  (∀ b, opens (h b) = Some (a b)) → (∀ b, loc (h b) = None) →
  (∀ x, opens (g x) = None) → (∀ x, loc (g x) = Some x) →
  beneath loc rest = [] →
  blocks opens loc ((entries ≫= λ b, h b :: (g <$> L b)) ++ rest) =
  ((λ b, (a b, L b)) <$> entries) ++ blocks opens loc rest.
Proof.
  intros Hh Hhl Hg Hgl Hrest.
  assert (∀ l, beneath loc ((l ≫= λ b, h b :: (g <$> L b)) ++ rest) = [])
    as Hstart.
  { intros [|b l]; [done|]. cbn [mbind list_bind app beneath].
    by rewrite Hhl. }
  induction entries as [|b entries IH]; [done|].
  cbn [mbind list_bind fmap list_fmap app blocks].
  fold (mbind (λ b, h b :: (g <$> L b)) entries).
  rewrite Hh, <- !app_assoc. f_equal.
  - f_equal. by apply beneath_fmap.
  - rewrite blocks_skip; [apply IH|]. by apply omap_fmap_None.
Qed.

End blocks.

Lemma row_lines_entry sl item :
  row_lines sl item =
  Row item.1 (length item.2)
  :: (RowLocation <$> (if sl then sorted_set item.2 else [])).
Proof.
  destruct item as [p locs]. unfold row_lines, sorted_set. cbn [fst snd].
  destruct sl; [|done]. destruct locs as [|loc locs]; [|done].
  by rewrite list_to_set_nil, elements_empty.
Qed.

Lemma alert_lines_entry sl item :
  alert_lines sl item =
  Alert item.1 (label_of item.2)
  :: (AlertLocation <$> (if sl then item.2 else [])).
Proof.
  destruct item as [p locs]. unfold alert_lines. cbn [fst snd].
  destruct sl; [|done]. by destruct locs.
Qed.

Lemma bind_ext_entries {A} (f g : A → list report_line) (l : list A) :
  (∀ x, f x = g x) → l ≫= f = l ≫= g.
Proof.
  intros H. induction l as [|x l IH]; [done|].
  cbn [mbind list_bind]. by rewrite H, IH.
Qed.

Lemma row_blocks_report items missing sl sm :
  row_blocks (report items missing sl sm) =
  (λ kv, (kv.1, length kv.2, if sl then sorted_set kv.2 else []))
    <$> sort_by_uses items.
Proof.
  unfold row_blocks, report, table_section. cbn [app blocks].
  rewrite blocks_skip by apply rows_alert_section.
  rewrite blocks_skip by apply rows_missing_section.
  cbn [app blocks].
  rewrite (bind_ext_entries _ _ _ (row_lines_entry sl)).
  rewrite (blocks_entries _ _
             (λ kv : str * list str, Row kv.1 (length kv.2)) RowLocation
             (λ kv, (kv.1, length kv.2))
             (λ kv, if sl then sorted_set kv.2 else [])) by done.
  cbn [blocks]. by rewrite app_nil_r.
Qed.

Lemma alert_blocks_report items missing sl sm :
  alert_blocks (report items missing sl sm) =
  (λ kv, (kv.1, label_of kv.2, if sl then kv.2 else []))
    <$> report_errors items.
Proof.
  unfold alert_blocks, report. cbn [app blocks].
  assert (omap (λ l, match l with Alert p lab => Some (p, lab) | _ => None end)
               (missing_section missing sm ++ table_section items sl
                ++ [ReportEnd]) = []) as Hrest.
  { rewrite !omap_app. unfold table_section. rewrite omap_app.
    cbn [omap list_omap app].
    rewrite (omap_bind_nil _ _ _ (row_lines_alerts sl)).
    unfold missing_section. destruct sm; [|done]. case_decide; [done|].
    cbn [omap list_omap]. rewrite omap_fmap_nil by done. done. }
  assert (beneath
            (λ l, match l with AlertLocation x => Some x | _ => None end)
            (missing_section missing sm ++ table_section items sl
             ++ [ReportEnd]) = []) as Hstart.
  { unfold missing_section, table_section. destruct sm; [|done].
    by case_decide. }
  unfold alert_section. destruct (report_errors items) as [|x l] eqn:He.
  { cbn [app blocks fmap list_fmap]. by apply blocks_none. }
  cbn [app blocks]. 
  rewrite (bind_ext_entries _ _ _ (alert_lines_entry sl)).
  rewrite (blocks_entries _ _
             (λ kv : str * list str, Alert kv.1 (label_of kv.2)) AlertLocation
             (λ kv, (kv.1, label_of kv.2))
             (λ kv, if sl then kv.2 else [])) by done.
  by rewrite (blocks_none _ _ _ Hrest), app_nil_r.
Qed.

Example row_blocks_example :
  row_blocks (report [(orphan_md, []); (tip_md, [twice_md; page_md; twice_md])]
                     ∅ true false)
  = [(tip_md, 3%nat, [page_md; twice_md]); (orphan_md, 0%nat, [])] ∧
  alert_blocks (report [(tip_md, [page_md]); (orphan_md, [])] ∅ true false)
  = [(orphan_md, ZeroUses, []); (tip_md, OneUse, [page_md])].
Proof. vm_compute. done. Qed.

(** X26: without [show_locations] the report has no location line. With
    it, the report has beneath every alert the locations of the file as
    they stand in its list, and beneath every row of the table the distinct
    locations of the file in ascending order: a content file that uses a
    reusable file twice counts twice in the row and stands once beneath
    it. The alerts and the rows stand in the order of the alert section and
    of the table. *)
Theorem report_locations items missing sm :
  let out := report items missing true sm in
  Forall (λ l, is_location l = false) (report items missing false sm) ∧
  alert_blocks out =
    (λ kv, (kv.1, label_of kv.2, kv.2)) <$> report_errors items ∧
  row_blocks out =
    (λ kv, (kv.1, length kv.2, sorted_set kv.2)) <$> sort_by_uses items ∧
  (∀ p n locs', (p, n, locs') ∈ row_blocks out →
     ∃ locs, (p, locs) ∈ items ∧ n = length locs ∧
             NoDup locs' ∧ StronglySorted str_le locs' ∧
             ∀ loc, loc ∈ locs' ↔ loc ∈ locs) ∧
  (∀ p locs, (p, locs) ∈ items →
     ∃ locs', (p, length locs, locs') ∈ row_blocks out ∧
              ∀ loc, loc ∈ locs' ↔ loc ∈ locs) ∧
  (∀ p lab locs', (p, lab, locs') ∈ alert_blocks out ↔
     (p, locs') ∈ items ∧ (length locs' ≤ 1)%nat ∧ lab = label_of locs') ∧
  (∀ loc, loc ∈ alert_locations out ↔ ∃ p, (p, [loc]) ∈ items) ∧
  (∀ loc, loc ∈ row_locations out ↔
          ∃ p locs, (p, locs) ∈ items ∧ loc ∈ locs).
Proof.
  assert (∀ locs loc, loc ∈ sorted_set locs ↔ loc ∈ locs) as Hset.
  { intros locs loc. unfold sorted_set.
    by rewrite merge_sort_Permutation, elem_of_elements,
      elem_of_list_to_set. }
  cbv zeta. split_and!.
  - unfold report. rewrite !Forall_app. split_and!.
    + by repeat constructor.
    + apply alert_section_no_location.
    + apply missing_section_no_location.
    + apply table_section_no_location.
    + by repeat constructor.
  - apply alert_blocks_report.
  - apply row_blocks_report.
  - intros p n locs'. rewrite row_blocks_report, list_elem_of_fmap.
    intros ([p' locs] & [= -> -> ->] & Hin).
    rewrite sort_by_uses_Permutation in Hin. exists locs.
    split_and!; [done..| | |apply Hset].
    + unfold sorted_set. rewrite merge_sort_Permutation. apply NoDup_elements.
    + apply StronglySorted_merge_sort; apply _.
  - intros p locs Hin. exists (sorted_set locs). split; [|apply Hset].
    rewrite row_blocks_report, list_elem_of_fmap. exists (p, locs).
    split; [done|]. by rewrite sort_by_uses_Permutation.
  - intros p lab locs'. rewrite alert_blocks_report, list_elem_of_fmap. split.
    + intros ([p' locs] & [= -> -> ->] & Hin%elem_of_report_errors).
      by destruct Hin.
    + intros (Hin & Hle & ->). exists (p, locs'). split; [done|].
      by apply elem_of_report_errors.
  - intros loc. rewrite alert_locations_report, list_elem_of_bind. split.
    + intros ([p locs] & Hloc & [Hin Hle]%elem_of_report_errors).
      cbn [snd] in Hloc. exists p.
      destruct locs as [|x [|y locs]]; cbn in Hle; [| |lia].
      * by apply elem_of_nil in Hloc.
      * apply elem_of_cons in Hloc as [->|Hloc]; [done|].
        by apply elem_of_nil in Hloc.
    + intros (p & Hin). exists (p, [loc]). split; [cbn; by left|].
      apply elem_of_report_errors. split; [done|]. cbn. lia.
  - intros loc. rewrite row_locations_report, list_elem_of_bind. split.
    + intros ([p locs] & Hloc & Hin). cbn [snd] in Hloc.
      rewrite merge_sort_Permutation, elem_of_elements,
        elem_of_list_to_set in Hloc.
      rewrite sort_by_uses_Permutation in Hin. by exists p, locs.
    + intros (p & locs & Hin & Hloc). exists (p, locs). split.
      * cbn [snd].
        by rewrite merge_sort_Permutation, elem_of_elements,
          elem_of_list_to_set.
      * by rewrite sort_by_uses_Permutation.
Qed.

(** ** [main] *)

Example main_example :
  let o := main (example_args true true) example_machine in
  exit_status o = 0%nat ∧
  mutation_lines (out_lines o) =
    [InlineNothing; DeleteHeader 1; DeleteOk orphan_md] ∧
  rows (report_lines (out_lines o)) = [(tip_md, 3%nat); (orphan_md, 0%nat)] ∧
  err_lines o = [Warning (WarnCouldNotRead broken_md UnicodeDecodeError)] ∧
  final_files o = delete orphan_md example_fs.
Proof. vm_compute. done. Qed.

Lemma elem_of_dict_keys (keys : list str) k : k ∈ dict_keys keys ↔ k ∈ keys.
Proof.
  induction keys as [|k' keys IH]; [done|]. cbn [dict_keys].
  rewrite !elem_of_cons, list_elem_of_filter, IH.
  destruct (decide (k = k')); naive_solver.
Qed.

Lemma dict_keys_NoDup (keys : list str) : NoDup (dict_keys keys).
Proof.
  induction keys as [|k keys IH]; [constructor|]. cbn [dict_keys].
  constructor; [|by apply NoDup_filter].
  by intros [? _]%list_elem_of_filter.
Qed.

Lemma elem_of_dict_items (reusable_md : list str) (u : usage_map) k locs :
  (k, locs) ∈ dict_items reusable_md u ↔ k ∈ reusable_md ∧ u !! k = Some locs.
Proof.
  unfold dict_items. rewrite list_elem_of_omap. split.
  - intros (k' & Hin & Hk). apply (proj1 (elem_of_dict_keys _ _)) in Hin.
    destruct (u !! k') as [locs'|] eqn:Hu; [|done].
    cbn in Hk. injection Hk as Hk1 Hk2. subst k' locs'. done.
  - intros [Hin Hu]. exists k. split; [by apply elem_of_dict_keys|].
    by rewrite Hu.
Qed.

Lemma dict_items_NoDup (reusable_md : list str) (u : usage_map) :
  NoDup (dict_items reusable_md u).
Proof.
  unfold dict_items. pose proof (dict_keys_NoDup reusable_md) as Hnd.
  induction Hnd as [|k keys Hk _ IH]; [constructor|].
  cbn [omap list_omap]. destruct (u !! k) as [locs|] eqn:Hu; [|done].
  cbn [fmap option_fmap option_map]. constructor; [|done].
  intros (k' & Hin & Hk')%list_elem_of_omap.
  destruct (u !! k') as [locs'|]; [|done]. cbn in Hk'.
  injection Hk' as Hk1 _. subst k'. done.
Qed.

Lemma dict_items_items_of fs (reusable_md content_md : list str) :
  items_of (usages (find_usages fs reusable_md content_md))
           (dict_items reusable_md
              (usages (find_usages fs reusable_md content_md))).
Proof.
  unfold items_of. apply NoDup_Permutation.
  - apply dict_items_NoDup.
  - apply NoDup_map_to_list.
  - intros [k locs]. rewrite elem_of_dict_items, elem_of_map_to_list.
    split; [by intros [_ ?]|]. intros Hu. split; [|done].
    rewrite find_usages_usages in Hu. by case_decide.
Qed.

(** A run that gets past the check of the two directories. *)
Lemma main_valid a m :
  is_dir m (resolved m (arg_reusable_dir a)) = true →
  is_dir m (resolved m (arg_content_dir a)) = true →
  let st := scanned a m in
  let r1 := if arg_inline_singles a
            then inline_singles (usages st) (files m) else (files m, []) in
  let r2 := if arg_delete_unused a
            then delete_unused (usages st) r1.1 else (r1.1, []) in
  main a m =
  Outcome 0
    ((ReportLine <$>
        report (dict_items (rglob_md m (resolved m (arg_reusable_dir a)))
                           (usages st))
               (missing st) (arg_show_locations a) (arg_show_missing a))
     ++ (MutationLine <$> r1.2) ++ (MutationLine <$> r2.2))
    (Warning <$> stderr st) r2.1.
Proof.
  intros Hr Hc. cbv zeta. unfold main, scanned. rewrite Hr, Hc. cbn [negb].
  destruct (arg_inline_singles a).
  - destruct (inline_singles _ _) as [fs1 out1]. cbn [fst snd].
    destruct (arg_delete_unused a); [|done].
    by destruct (delete_unused _ _) as [fs2 out2].
  - cbn [fst snd]. destruct (arg_delete_unused a); [|done].
    by destruct (delete_unused _ _) as [fs2 out2].
Qed.

Lemma main_invalid a m :
  is_dir m (resolved m (arg_reusable_dir a)) = false ∨
  is_dir m (resolved m (arg_content_dir a)) = false →
  main a m =
  Outcome 1 []
    [if is_dir m (resolved m (arg_reusable_dir a))
     then NotADirectory ContentDir (resolved m (arg_content_dir a))
     else NotADirectory ReusableDir (resolved m (arg_reusable_dir a))]
    (files m).
Proof.
  unfold main. destruct (is_dir m (resolved m (arg_reusable_dir a))); [|done].
  intros [|Hc]; [done|]. by rewrite Hc.
Qed.

(** X27: [main] checks the two directories before anything else. It
    ends with status 1 exactly when one of them is not a directory; it has
    then printed nothing on the standard output and changed no file, and the
    one line on the standard error names the reusable directory when both
    are wrong. Otherwise it ends with status 0. *)
Theorem main_invalid_directory a m :
  let reusable_dir := resolved m (arg_reusable_dir a) in
  let content_dir := resolved m (arg_content_dir a) in
  let o := main a m in
  (exit_status o = 1%nat ↔
   is_dir m reusable_dir = false ∨ is_dir m content_dir = false) ∧
  (exit_status o = 0%nat ↔
   is_dir m reusable_dir = true ∧ is_dir m content_dir = true) ∧
  (exit_status o = 1%nat →
   out_lines o = [] ∧ final_files o = files m ∧
   err_lines o =
     [if is_dir m reusable_dir then NotADirectory ContentDir content_dir
      else NotADirectory ReusableDir reusable_dir]).
Proof.
  cbv zeta.
  destruct (is_dir m (resolved m (arg_reusable_dir a))) eqn:Hr,
           (is_dir m (resolved m (arg_content_dir a))) eqn:Hc.
  - rewrite (main_valid a m Hr Hc). cbn [exit_status]. naive_solver.
  - rewrite (main_invalid a m) by (by right). rewrite Hr.
    cbn [exit_status out_lines final_files err_lines]. naive_solver.
  - rewrite (main_invalid a m) by (by left). rewrite Hr.
    cbn [exit_status out_lines final_files err_lines]. naive_solver.
  - rewrite (main_invalid a m) by (by left). rewrite Hr.
    cbn [exit_status out_lines final_files err_lines]. naive_solver.
Qed.

Lemma main_kept a m :
  kept_from (usages (scanned a m)) (files m) (final_files (main a m)).
Proof.
  assert (kept_from (usages (scanned a m)) (files m) (files m)) as Hrefl.
  { intros p f Hp. exists f. by split_and!; [..|left]. }
  destruct (is_dir m (resolved m (arg_reusable_dir a))) eqn:Hr; cycle 1.
  { by rewrite (main_invalid a m) by (by left). }
  destruct (is_dir m (resolved m (arg_content_dir a))) eqn:Hc; cycle 1.
  { by rewrite (main_invalid a m) by (by right). }
  rewrite (main_valid a m Hr Hc). cbn [final_files].
  assert (kept_from (usages (scanned a m)) (files m)
            (if arg_inline_singles a
             then inline_singles (usages (scanned a m)) (files m)
             else (files m, [])).1) as H1.
  { destruct (arg_inline_singles a); [apply inline_singles_kept|done]. }
  destruct (arg_delete_unused a); [|done].
  intros p f' Hp. apply H1. rewrite delete_unused_lookup in Hp.
  destruct (_ !! p) as [f|]; [|done]. by case_decide.
Qed.

(** X28: what [main] never does, whatever the flags. No file is added
    and no permission changes, and a file that is there at the end has the
    contents it had unless it is the content file of a reusable file with
    one use. Without the two mutation flags the files are left as they
    were and no mutation line is printed. *)
Theorem main_keeps a m :
  kept_from (usages (scanned a m)) (files m) (final_files (main a m)) ∧
  ∀ reusable_dir content_dir sl sm,
    let o := main (Args reusable_dir content_dir sl sm false false) m in
    final_files o = files m ∧ mutation_lines (out_lines o) = [].
Proof.
  split; [apply main_kept|]. intros rd cd sl sm. cbv zeta. unfold main.
  cbn [arg_reusable_dir arg_content_dir arg_inline_singles arg_delete_unused].
  destruct (is_dir m (resolved m rd)); [|done].
  destruct (is_dir m (resolved m cd)); [|done].
  cbn [negb final_files out_lines fmap list_fmap]. split; [done|].
  rewrite !app_nil_r. unfold mutation_lines. by apply omap_fmap_None.
Qed.

(** X29: with the flag to delete unused files, a reusable file that
    the scan has found without a use, and that the system lets be removed,
    is gone when [main] ends, whether or not the run inlines as well. *)
Theorem main_deletes_unused a m key :
  is_dir m (resolved m (arg_reusable_dir a)) = true →
  is_dir m (resolved m (arg_content_dir a)) = true →
  arg_delete_unused a = true →
  usages (scanned a m) !! key = Some [] →
  removable (files m) key = true →
  final_files (main a m) !! key = None.
Proof.
  intros Hr Hc Hd Hu Hrm. rewrite (main_valid a m Hr Hc). cbn [final_files].
  rewrite Hd, delete_unused_lookup.
  set (fs1 := (if arg_inline_singles a
               then inline_singles (usages (scanned a m)) (files m)
               else (files m, [])).1).
  assert (kept_from (usages (scanned a m)) (files m) fs1) as H1.
  { unfold fs1. destruct (arg_inline_singles a); [apply inline_singles_kept|].
    intros p f Hp. exists f. by split_and!; [..|left]. }
  destruct (fs1 !! key) as [f'|] eqn:Hf'; [|done].
  apply H1 in Hf' as (f & Hf & _ & Hul & _).
  unfold removable in Hrm. rewrite Hf in Hrm.
  rewrite decide_True; [done|]. split; [done|]. congruence.
Qed.

Lemma main_deletes_unused_witness :
  final_files (main (example_args true true) example_machine) !! orphan_md
  = None.
Proof.
  apply (main_deletes_unused (example_args true true) example_machine
           orphan_md); vm_compute; reflexivity.
Defined.

(** X30: the report [main] prints and the mutations it then runs are
    about the same scan. The files the report alerts with no use are the
    files the deletion goes through, the files it alerts with one use are
    the files the inlining goes through, in the same order; the table has a
    row for every reusable file of the listing, once, and the title counts
    them; the standard error has the warnings of the scan. *)
Theorem main_reports_what_it_mutates a m :
  is_dir m (resolved m (arg_reusable_dir a)) = true →
  is_dir m (resolved m (arg_content_dir a)) = true →
  let o := main a m in
  let u := usages (scanned a m) in
  let printed := report_lines (out_lines o) in
  alerted ZeroUses printed = unused u ∧
  alerted OneUse printed = (singles u).*1 ∧
  (rows printed).*1 ≡ₚ
    dict_keys (rglob_md m (resolved m (arg_reusable_dir a))) ∧
  head printed = Some (ReportTitle (length (rows printed))) ∧
  err_lines o =
    Warning <$> warnings (files m)
                  (rglob_md m (resolved m (arg_content_dir a))).
Proof.
  intros Hr Hc. cbv zeta. rewrite (main_valid a m Hr Hc).
  cbn [out_lines err_lines]. unfold report_lines.
  rewrite !omap_app, (omap_fmap_Some _ _ id), list_fmap_id by done.
  rewrite !omap_fmap_None, !app_nil_r by done.
  set (items := dict_items _ _).
  assert (items_of (usages (scanned a m)) items) as Hitems
    by apply dict_items_items_of.
  destruct (alerted_candidates (usages (scanned a m)) items
              (missing (scanned a m)) (arg_show_locations a)
              (arg_show_missing a) Hitems) as [H0 H1].
  split_and!; [done|done| | |].
  - rewrite rows_report, <- list_fmap_compose, sort_by_uses_Permutation.
    apply NoDup_Permutation.
    + apply (NoDup_fmap_1 (λ k, (k, usages (scanned a m) !! k))).
      rewrite <- list_fmap_compose. 
      apply NoDup_fmap_2_strong; [|apply dict_items_NoDup].
      intros [k1 l1] [k2 l2] [_ H1']%elem_of_dict_items
        [_ H2']%elem_of_dict_items [= ->]. cbn in *. congruence.
    + apply dict_keys_NoDup.
    + intros k. rewrite list_elem_of_fmap, elem_of_dict_keys. split.
      * by intros ([k' locs] & -> & [? _]%elem_of_dict_items).
      * intros Hk. unfold scanned in *.
        exists (k, uses_of (rglob_md m (resolved m (arg_reusable_dir a))) k
                     (occurrences (files m)
                        (rglob_md m (resolved m (arg_content_dir a))))).
        split; [done|]. apply elem_of_dict_items. split; [done|].
        rewrite find_usages_usages. by rewrite decide_True.
  - rewrite rows_report, length_fmap,
      (Permutation_length (sort_by_uses_Permutation items)).
    done.
  - unfold scanned. by rewrite find_usages_stderr.
Qed.

Lemma main_reports_what_it_mutates_witness :
  let o := main (example_args true false) example_machine in
  let u := usages (scanned (example_args true false) example_machine) in
  let printed := report_lines (out_lines o) in
  alerted ZeroUses printed = unused u ∧
  alerted OneUse printed = (singles u).*1 ∧
  (rows printed).*1 ≡ₚ
    dict_keys (rglob_md example_machine
                 (resolved example_machine
                    (arg_reusable_dir (example_args true false)))) ∧
  head printed = Some (ReportTitle (length (rows printed))) ∧
  err_lines o =
    Warning <$> warnings (files example_machine)
                  (rglob_md example_machine
                     (resolved example_machine
                        (arg_content_dir (example_args true false)))).
Proof.
  apply (main_reports_what_it_mutates (example_args true false)
           example_machine); vm_compute; reflexivity.
Defined.

